(** * NOVASAFE route safety scoring: a shallow embedding of the route pipeline

Embedded source:
- [routes/routes.js]: [decodePolyline], [calculateRouteSafetyScore],
  [generateRouteTags] and the classification and ranking steps of the
  [POST /calculate] handler;
- [models/SafetyReport.js]: [calculateSafetyImpact];
- [models/Route.js]: [calculateSafetyScore].

JavaScript numbers are IEEE-754 binary64 values.  Scores, weights and
coordinates are kept as primitive floats ([PrimFloat.float]), whose
operations are the binary64 ones.  Values that the code only ever uses as
integers (character codes, the 32-bit bit-twiddling of the decoder, the
running fixed-point accumulators, durations in seconds) are kept in [Z],
with the 32-bit wrap-around and the binary64 rounding written out. *)

From Stdlib Require Import ZArith List Bool String Ascii Lia Floats Permutation Sorted.
Import ListNotations.

(* Decimal literals denote the nearest binary64 value, as they do in JavaScript. *)
#[local] Set Warnings "-inexact-float".

Local Open Scope Z_scope.

(* ------------------------------------------------------------------------- *)
(** ** JavaScript number primitives *)

Module JS.

(** A number that is either an integer or [NaN] (the only non-integer a
    character code computation can produce). *)
Definition IntOrNaN := option Z.
Definition NaN : IntOrNaN := None.

(** A string is its sequence of UTF-16 code units. *)
Definition JsString := list Z.

Definition of_string (s : string) : JsString :=
  map (fun c => Z.of_N (N_of_ascii c)) (list_ascii_of_string s).

(** [s.charCodeAt(i)]: the code unit at [i], [NaN] when [i] is out of range. *)
Definition charCodeAt (s : JsString) (index : nat) : IntOrNaN := nth_error s index.

(** [x - k] on a number that may be [NaN]. *)
Definition minus (x : IntOrNaN) (k : Z) : IntOrNaN := option_map (fun c => c - k) x.

(** [x >= k]; every comparison with [NaN] is false. *)
Definition geb (x : IntOrNaN) (k : Z) : bool :=
  match x with Some v => k <=? v | None => false end.

(** ECMAScript ToInt32 on an integer: reduction modulo 2^32 into
    [-2^31, 2^31). *)
Definition wrap32 (z : Z) : Z := (z + 2 ^ 31) mod 2 ^ 32 - 2 ^ 31.

(** ToInt32 of a number: [NaN] becomes 0. *)
Definition ToInt32 (x : IntOrNaN) : Z :=
  match x with Some v => wrap32 v | None => 0 end.

(** The 32-bit operators [&], [|], [<<], [>>] and [~].  The shift count is
    taken modulo 32. *)
Definition and32 (a b : Z) : Z := Z.land (wrap32 a) (wrap32 b).
Definition or32 (a b : Z) : Z := Z.lor (wrap32 a) (wrap32 b).
Definition shl32 (a n : Z) : Z := wrap32 (Z.shiftl (wrap32 a) (n mod 32)).
Definition sar32 (a n : Z) : Z := Z.shiftr (wrap32 a) (n mod 32).
Definition not32 (a : Z) : Z := Z.lnot (wrap32 a).

(** Rounding of an integer to the nearest binary64 value, ties to even.
    Integers below 2^53 in magnitude are exact. *)
Definition round_double (z : Z) : Z :=
  let a := Z.abs z in
  if a <? 2 ^ 53 then z
  else
    let e := Z.log2 a - 52 in
    let q := Z.shiftr a e in
    let r := Z.land a (Z.ones e) in
    let half := 2 ^ (e - 1) in
    let q' := if (half <? r) || ((r =? half) && Z.odd q) then q + 1 else q in
    Z.sgn z * Z.shiftl q' e.

(** [x + y] on integer-valued numbers: the exact sum, rounded.  (A sum of
    magnitude 2^1024 or more would be an infinity; the accumulators of the
    decoder stay far below, a string having fewer than 2^53 code units.) *)
Definition add_int (x y : Z) : Z := round_double (x + y).

(** The binary64 value nearest to an integer. *)
Definition Z2float (z : Z) : float :=
  SF2Prim (binary_normalize prec emax z 0 false).

Definition is_nan (x : float) : bool := negb (PrimFloat.eqb x x).

Definition is_neg_zero (x : float) : bool :=
  match Prim2SF x with S754_zero true => true | _ => false end.

(** [Math.min(a, b)] and [Math.max(a, b)]: [NaN] if either argument is, and
    [-0] counts as smaller than [+0]. *)
Definition Math_min (a b : float) : float :=
  if is_nan a || is_nan b then PrimFloat.nan
  else if PrimFloat.ltb a b then a
  else if PrimFloat.ltb b a then b
  else if is_neg_zero a then a else b.

Definition Math_max (a b : float) : float :=
  if is_nan a || is_nan b then PrimFloat.nan
  else if PrimFloat.ltb b a then a
  else if PrimFloat.ltb a b then b
  else if is_neg_zero a then b else a.

(** [Math.round(x)]: the integer nearest to [x], ties towards +infinity;
    [NaN], the infinities and the zeros are returned unchanged, and a
    negative [x] that rounds to zero gives [-0]. *)
Definition Math_round (x : float) : float :=
  match Prim2SF x with
  | S754_finite s m e =>
      if 0 <=? e then x
      else
        let n := (2 * cond_Zopp s (Z.pos m) + 2 ^ (- e)) / 2 ^ (1 - e) in
        if n =? 0 then (if s then PrimFloat.neg_zero else PrimFloat.zero)
        else Z2float n
  | _ => x
  end.

End JS.

(* ------------------------------------------------------------------------- *)
(** ** Polyline codec ([routes/routes.js], [decodePolyline]) *)

Module Polyline.
Import JS.

Record Point := { lat : float; lng : float }.

(** The zig-zag step [(result & 1) ? ~(result >> 1) : (result >> 1)]. *)
Definition unzigzag (result : Z) : Z :=
  if and32 result 1 =? 0 then sar32 result 1 else not32 (sar32 result 1).

(** One [do { ... } while (b >= 0x20)] loop, started with the given [shift]
    and [result].  It returns the final [result] and [index]; [None] only
    when [fuel] iterations were not enough. *)
Fixpoint readGroup (fuel : nat) (encoded : JsString) (index : nat)
                   (shift result : Z) : option (Z * nat) :=
  match fuel with
  | O => None
  | S fuel' =>
      let b := minus (charCodeAt encoded index) 63 in
      let index := S index in
      let result := or32 result (shl32 (and32 (ToInt32 b) 31) shift) in
      let shift := shift + 5 in
      if geb b 32 then readGroup fuel' encoded index shift result
      else Some (result, index)
  end.

Definition toPoint (lat lng : Z) : Point :=
  {| lat := PrimFloat.div (Z2float lat) 100000;
     lng := PrimFloat.div (Z2float lng) 100000 |}.

(** The [while (index < encoded.length)] loop. *)
Fixpoint decodeLoop (fuel : nat) (encoded : JsString) (index : nat)
                    (lat lng : Z) (points : list Point) : option (list Point) :=
  match fuel with
  | O => None
  | S fuel' =>
      if (index <? List.length encoded)%nat then
        match readGroup fuel encoded index 0 0 with
        | None => None
        | Some (result, index) =>
            let dlat := unzigzag result in
            let lat := add_int lat dlat in
            match readGroup fuel encoded index 0 0 with
            | None => None
            | Some (result, index) =>
                let dlng := unzigzag result in
                let lng := add_int lng dlng in
                decodeLoop fuel' encoded index lat lng (points ++ [toPoint lat lng])
            end
        end
      else Some points
  end.

(** [decodePolyline(encoded)] run for at most [fuel] iterations of each
    loop. *)
Definition decodePolylineFuel (fuel : nat) (encoded : JsString) : option (list Point) :=
  decodeLoop fuel encoded 0 0 0 [].

(** [decodePolyline(encoded)].  One more iteration than there are code
    units is always enough (lemma [decodePolyline_fuel]), so the
    second branch is never taken. *)
Definition decodePolyline (encoded : JsString) : list Point :=
  match decodePolylineFuel (S (List.length encoded)) encoded with
  | Some points => points
  | None => []
  end.

(** A stream that ends in the middle of a group: its last code unit passes
    the decoder's continuation test [b >= 0x20], so the group it belongs to
    has no closing chunk. *)
Definition terminatesMidGroup (encoded : JsString) : bool :=
  match rev encoded with
  | c :: _ => geb (Some (c - 63)) 32
  | [] => false
  end.

(** Modelled from the spec: a GeoPoint, a latitude between -90 and 90 and a
    longitude between -180 and 180 (which excludes [NaN] and the
    infinities). *)
Definition isGeoPoint (p : Point) : Prop :=
  PrimFloat.leb (-90) (lat p) = true /\ PrimFloat.leb (lat p) 90 = true /\
  PrimFloat.leb (-180) (lng p) = true /\ PrimFloat.leb (lng p) 180 = true.

(** Modelled from the spec: the fixed-point coordinate of a number at scale
    1e5, that is [Math.round(x * 1e5)] as an integer: the integer nearest to
    the binary64 product, the upper one of two that are equally near (and 0
    for a product that is not finite). *)
Definition quantise (x : float) : Z :=
  match Prim2SF (PrimFloat.mul x 100000) with
  | S754_finite s m e =>
      if 0 <=? e then cond_Zopp s (Z.pos m) * 2 ^ e
      else (2 * cond_Zopp s (Z.pos m) + 2 ^ (- e)) / 2 ^ (1 - e)
  | _ => 0
  end.

(** Modelled from the spec: a coordinate rounded to 1e-5 degrees, one that
    rounding to five decimals, [Math.round(x * 1e5) / 1e5], leaves as it
    is. *)
Definition isRounded (x : float) : Prop :=
  PrimFloat.div (Z2float (quantise x)) 100000 = x.

(** Modelled from the spec: a GeoPoint with both coordinates rounded to
    1e-5 degrees. *)
Definition isRoundedPoint (p : Point) : Prop := isRounded (lat p) /\ isRounded (lng p).

(** Modelled from the spec: the zig-zag sign encoding of a delta. *)
Definition zigzag (delta : Z) : Z :=
  if delta <? 0 then Z.lnot (Z.shiftl delta 1) else Z.shiftl delta 1.

(** Modelled from the spec: the chunks of a non-negative value, every
    chunk but the last carrying the continuation bit.  The recursion runs on
    [fuel]; [log2 v] is enough for the value [v]. *)
Fixpoint encodeChunks (fuel : nat) (v : Z) : JsString :=
  match fuel with
  | O => [v + 63]
  | S fuel' =>
      if 32 <=? v then (Z.lor 32 (Z.land v 31) + 63) :: encodeChunks fuel' (Z.shiftr v 5)
      else [v + 63]
  end.

(** Modelled from the spec: the group of one signed delta. *)
Definition encodeSigned (delta : Z) : JsString :=
  let v := zigzag delta in encodeChunks (Z.to_nat (Z.log2 v)) v.

(** Modelled from the spec: the groups of the points, given by their
    fixed-point coordinates, that follow the point ([prevLat],
    [prevLng]). *)
Fixpoint encodeFrom (prevLat prevLng : Z) (points : list (Z * Z)) : JsString :=
  match points with
  | [] => []
  | (lat, lng) :: rest =>
      encodeSigned (lat - prevLat) ++ encodeSigned (lng - prevLng) ++ encodeFrom lat lng rest
  end.

(** Modelled from the spec: [encode(points)], the inverse of the decoder,
    which the source does not contain.  It follows the scheme the spec gives
    for the codec: the coordinates of the GeoPoints brought to fixed point
    at scale 1e5, deltas between successive points starting from (0, 0),
    zig-zag sign encoding, 5-bit groups, least significant first,
    continuation bit 0x20, offset 63. *)
Definition encode (points : list Point) : JsString :=
  encodeFrom 0 0 (map (fun p => (quantise (lat p), quantise (lng p))) points).

(** Modelled from the spec: the coordinate range of a GeoPoint, in units
    of 1e-5 degrees. *)
Definition inRange (p : Z * Z) : Prop :=
  -9000000 <= fst p <= 9000000 /\ -18000000 <= snd p <= 18000000.

End Polyline.

(* ------------------------------------------------------------------------- *)
(** ** Safety reports ([models/SafetyReport.js]) *)

Module SafetyReport.

(** The keys of the two tables of [calculateSafetyImpact], which are the
    values of the [reportType] and [severity] enums of the schema, and the
    [status] enum. *)
Inductive ReportType :=
| PoorStreetLighting | Harassment | RoadHazard | LackOfPolicePresence
| SuspiciousActivity | TheftRobbery | UnsafeArea | Other.

Inductive Severity := low | medium | high | critical.

Inductive Status := pending | verified | resolved | dismissed.

(** A report document as a query returns it.  The schema's enums are
    checked when a document is saved, not when a query returns it:
    [reportType] and [severity] are [None] when the field holds no key of
    its table. *)
Record t := {
  reportType : option ReportType;
  severity : option Severity;
  status : Status
}.

(** [severityWeights[this.severity]] and [typeWeights[this.reportType]];
    [None] is the [undefined] of a key that the table does not have. *)
Definition severityWeights (s : option Severity) : option float :=
  match s with
  | Some low => Some (-0.5)%float
  | Some medium => Some (-1.5)%float
  | Some high => Some (-3.0)%float
  | Some critical => Some (-5.0)%float
  | None => None
  end.

Definition typeWeights (t : option ReportType) : option float :=
  match t with
  | Some PoorStreetLighting => Some 1.0%float
  | Some Harassment => Some 2.5%float
  | Some RoadHazard => Some 1.5%float
  | Some LackOfPolicePresence => Some 1.8%float
  | Some SuspiciousActivity => Some 2.0%float
  | Some TheftRobbery => Some 3.0%float
  | Some UnsafeArea => Some 2.5%float
  | Some Other => Some 1.0%float
  | None => None
  end.

(** [report.calculateSafetyImpact()]: the product of the two table
    entries, [NaN] when either is [undefined]. *)
Definition calculateSafetyImpact (report : t) : float :=
  match severityWeights (severity report), typeWeights (reportType report) with
  | Some w, Some v => PrimFloat.mul w v
  | _, _ => PrimFloat.nan
  end.

(** The report has a severity and a type that the tables know, as every
    report that passed the schema's enums with a value has. *)
Definition inTables (report : t) : bool :=
  match severity report, reportType report with
  | Some _, Some _ => true
  | _, _ => false
  end.

End SafetyReport.

(* ------------------------------------------------------------------------- *)
(** ** Safety scoring ([routes/routes.js], [models/Route.js]) *)

Module Scoring.
Import JS Polyline.

Inductive FactorKey :=
| Lighting | PolicePresence | CrimeRate | PedestrianTraffic | RoadCondition
| CommunityReports.

(** The [factors] object; its six keys are fixed. *)
Record FactorSet := {
  lighting : float;
  policePresence : float;
  crimeRate : float;
  pedestrianTraffic : float;
  roadCondition : float;
  communityReports : float
}.

(** [factors[key]] and [factors[key] = v]. *)
Definition get (factors : FactorSet) (key : FactorKey) : float :=
  match key with
  | Lighting => lighting factors
  | PolicePresence => policePresence factors
  | CrimeRate => crimeRate factors
  | PedestrianTraffic => pedestrianTraffic factors
  | RoadCondition => roadCondition factors
  | CommunityReports => communityReports factors
  end.

Definition set (factors : FactorSet) (key : FactorKey) (v : float) : FactorSet :=
  match key with
  | Lighting =>
      {| lighting := v; policePresence := policePresence factors;
         crimeRate := crimeRate factors; pedestrianTraffic := pedestrianTraffic factors;
         roadCondition := roadCondition factors; communityReports := communityReports factors |}
  | PolicePresence =>
      {| lighting := lighting factors; policePresence := v;
         crimeRate := crimeRate factors; pedestrianTraffic := pedestrianTraffic factors;
         roadCondition := roadCondition factors; communityReports := communityReports factors |}
  | CrimeRate =>
      {| lighting := lighting factors; policePresence := policePresence factors;
         crimeRate := v; pedestrianTraffic := pedestrianTraffic factors;
         roadCondition := roadCondition factors; communityReports := communityReports factors |}
  | PedestrianTraffic =>
      {| lighting := lighting factors; policePresence := policePresence factors;
         crimeRate := crimeRate factors; pedestrianTraffic := v;
         roadCondition := roadCondition factors; communityReports := communityReports factors |}
  | RoadCondition =>
      {| lighting := lighting factors; policePresence := policePresence factors;
         crimeRate := crimeRate factors; pedestrianTraffic := pedestrianTraffic factors;
         roadCondition := v; communityReports := communityReports factors |}
  | CommunityReports =>
      {| lighting := lighting factors; policePresence := policePresence factors;
         crimeRate := crimeRate factors; pedestrianTraffic := pedestrianTraffic factors;
         roadCondition := roadCondition factors; communityReports := v |}
  end.

(** [Object.keys(factors)], in insertion order. *)
Definition keys : list FactorKey :=
  [Lighting; PolicePresence; CrimeRate; PedestrianTraffic; RoadCondition; CommunityReports].

(** The initial [factors] literal of [calculateRouteSafetyScore]. *)
Definition baseline : FactorSet :=
  {| lighting := 7; policePresence := 6; crimeRate := 7;
     pedestrianTraffic := 6; roadCondition := 7; communityReports := 8 |}%float.

(** [Object.entries(weights)], the same literal in both source files. *)
Definition weights : list (FactorKey * float) :=
  [(Lighting, 0.20); (PolicePresence, 0.20); (CrimeRate, 0.25);
   (PedestrianTraffic, 0.15); (RoadCondition, 0.10); (CommunityReports, 0.10)]%float.

Record SafetyScore := { overall : float; factors : FactorSet }.

(** [for (const [factor, weight] of Object.entries(weights))
       score += factors[factor] * weight], started from [0]. *)
Definition weightedSum (factors : FactorSet) : float :=
  fold_left (fun totalScore '(factor, weight) =>
               PrimFloat.add totalScore (PrimFloat.mul (get factors factor) weight))
            weights 0%float.

(** [Math.round(score * 10) / 10]. *)
Definition roundOneDecimal (score : float) : float :=
  PrimFloat.div (Math_round (PrimFloat.mul score 10)) 10.

(** [Route.prototype.calculateSafetyScore] of [models/Route.js], as a
    function of the document's stored factors: the value it stores in
    [safetyScore.overall] and returns. *)
Definition calculateSafetyScore (storedFactors : FactorSet) : float :=
  roundOneDecimal (weightedSum storedFactors).

(** [array.length] as a number (array lengths are below 2^32, where the
    conversion is exact). *)
Definition length_number {A} (a : list A) : float :=
  PrimFloat.of_uint63 (Uint63.of_Z (Z.of_nat (List.length a))).

(** [array.filter((_, index) => p(index))]. *)
Fixpoint filter_index {A} (p : nat -> bool) (index : nat) (a : list A) : list A :=
  match a with
  | [] => []
  | x :: rest =>
      if p index then x :: filter_index p (S index) rest
      else filter_index p (S index) rest
  end.

(** [Math.max(0, Math.min(10, x))]. *)
Definition clamp (x : float) : float := Math_max 0 (Math_min 10 x).

Section WithStore.

(** The report collection is an external store.  [findNearby db
    coordinates maxDistance] is the answer of the geospatial query of
    [SafetyReport.findNearby] (reports within [maxDistance] metres whose
    status is [verified] or [pending], most recent first) together with
    the state of the store after the query, so that answers may change
    between two queries. *)
Variable Db : Type.
Variable findNearby : Db -> float * float -> float -> list SafetyReport.t * Db.

(** The [nearbyReports.forEach] body, folded over the reports. *)
Definition addReports (nearbyReports : list SafetyReport.t) (factors : FactorSet)
  : FactorSet :=
  fold_left (fun factors report =>
               let impact := SafetyReport.calculateSafetyImpact report in
               set factors CommunityReports
                   (PrimFloat.add (communityReports factors)
                                  (PrimFloat.div impact (length_number nearbyReports))))
            nearbyReports factors.

(** The [for (const point of samplePoints)] loop. *)
Fixpoint scanSamples (db : Db) (samplePoints : list Point) (factors : FactorSet)
  : FactorSet * Db :=
  match samplePoints with
  | [] => (factors, db)
  | point :: rest =>
      let '(nearbyReports, db) := findNearby db (lng point, lat point) 500%float in
      let factors :=
        if (0 <? List.length nearbyReports)%nat then addReports nearbyReports factors
        else factors in
      scanSamples db rest factors
  end.

(** [calculateRouteSafetyScore(polyline)]. *)
Definition calculateRouteSafetyScore (db : Db) (polyline : JsString)
  : SafetyScore * Db :=
  let routePoints := decodePolyline polyline in
  let samplePoints := filter_index (fun index => (index mod 10 =? 0)%nat) 0 routePoints in
  let '(factors, db) := scanSamples db samplePoints baseline in
  let factors :=
    fold_left (fun factors key => set factors key (clamp (get factors key)))
              keys factors in
  let totalScore := weightedSum factors in
  ({| overall := roundOneDecimal totalScore; factors := factors |}, db).

End WithStore.

(** The five factors that the scoring loop never assigns. *)
Definition untouched (f : FactorSet) : float * float * float * float * float :=
  (lighting f, policePresence f, crimeRate f, pedestrianTraffic f, roadCondition f).

(** The sample points of a polyline: the [samplePoints] array of
    [calculateRouteSafetyScore]. *)
Definition samplePointsOf (polyline : JsString) : list Point :=
  filter_index (fun index => (index mod 10 =? 0)%nat) 0 (decodePolyline polyline).

(** The factor set as [calculateRouteSafetyScore] holds it when the loop
    over the sample points is over, before the clamp. *)
Definition accumulated (Db : Type)
           (findNearby : Db -> float * float -> float -> list SafetyReport.t * Db)
           (db : Db) (polyline : JsString) : FactorSet :=
  fst (scanSamples Db findNearby db (samplePointsOf polyline) baseline).

(** The factor set after [Object.keys(factors).forEach(...)]. *)
Definition clampAll (f : FactorSet) : FactorSet :=
  {| lighting := clamp (lighting f); policePresence := clamp (policePresence f);
     crimeRate := clamp (crimeRate f); pedestrianTraffic := clamp (pedestrianTraffic f);
     roadCondition := clamp (roadCondition f); communityReports := clamp (communityReports f) |}.

(** A store without reports. *)
Definition emptyStore (db : unit) (coordinates : float * float) (maxDistance : float)
  : list SafetyReport.t * unit := ([], db).

Inductive Tag := WellLit | PolicePatrolled | HighTraffic | MainRoads.

(** [generateRouteTags(safetyScore)]. *)
Definition generateRouteTags (safetyScore : SafetyScore) : list Tag :=
  let f := factors safetyScore in
  (if PrimFloat.leb 7 (lighting f) then [WellLit] else []) ++
  (if PrimFloat.leb 7 (policePresence f) then [PolicePatrolled] else []) ++
  (if PrimFloat.leb 6 (pedestrianTraffic f) then [HighTraffic] else []) ++
  (if PrimFloat.leb 7 (roadCondition f) then [MainRoads] else []).

End Scoring.

(* ------------------------------------------------------------------------- *)
(** ** The [POST /calculate] handler ([routes/routes.js]) *)

Module Routes.
Import JS Polyline Scoring.

(** The fields of a route of the directions response that the handler
    reads: [legs[0].distance.value], [legs[0].duration.value] (whole metres
    and seconds) and [overview_polyline.points]. *)
Record DirectionsRoute := {
  distance_value : Z;
  duration_value : Z;
  overview_polyline : JsString
}.

Inductive RouteType := balanced | safest | fastest.

(** An element of [processedRoutes].  The persisted document, its id and
    the turn-by-turn steps play no part in classification or ranking and
    are left out. *)
Record ProcessedRoute := {
  routeType : RouteType;
  distance_meters : Z;
  duration_seconds : Z;
  safetyScore : float;
  safetyFactors : FactorSet;
  tags : list Tag;
  polyline : JsString
}.

(** [Math.min(...values)]; [None] stands for the [Infinity] returned on
    an empty argument list. *)
Definition Math_min_spread (values : list Z) : option Z :=
  fold_left (fun m v => match m with
                        | None => Some v
                        | Some m => Some (if v <? m then v else m)
                        end) values None.

(** The three statements that determine [routeType]. *)
Definition determineRouteType (routes : list DirectionsRoute) (index : nat)
           (route : DirectionsRoute) (safetyScore : SafetyScore) : RouteType :=
  let routeType := balanced in
  let routeType :=
    if (index =? 0)%nat && PrimFloat.leb 8 (overall safetyScore) then safest
    else routeType in
  let routeType :=
    match Math_min_spread (map duration_value routes) with
    | Some m => if duration_value route =? m then fastest else routeType
    | None => routeType
    end in
  routeType.

(** The value returned by the [routes.map] callback, given the safety
    score computed for the route. *)
Definition processRoute (routes : list DirectionsRoute) (index : nat)
           (route : DirectionsRoute) (safetyScore : SafetyScore) : ProcessedRoute :=
  {| routeType := determineRouteType routes index route safetyScore;
     distance_meters := distance_value route;
     duration_seconds := duration_value route;
     safetyScore := overall safetyScore;
     safetyFactors := factors safetyScore;
     tags := generateRouteTags safetyScore;
     polyline := overview_polyline route |}.

(** What the [map] callback produced for a route of the response. *)
Definition processedFrom (routes : list DirectionsRoute) (route : DirectionsRoute)
           (p : ProcessedRoute) : Prop :=
  exists index score, p = processRoute routes index route score.

(** The sign of a comparator result, as [Array.prototype.sort] reads it:
    negative, zero or positive; a [NaN] result counts as zero. *)
Definition sign_float (v : float) : comparison :=
  if PrimFloat.ltb v 0 then Lt else if PrimFloat.ltb 0 v then Gt else Eq.

Definition sign_int (v : Z) : comparison := v ?= 0.

(** The comparator passed to [processedRoutes.sort]. *)
Definition compareRoutes (routePreference : string) (a b : ProcessedRoute) : comparison :=
  if String.eqb routePreference "safest" then
    sign_float (PrimFloat.sub (safetyScore b) (safetyScore a))
  else if String.eqb routePreference "fastest" then
    sign_int (duration_seconds a - duration_seconds b)
  else
    let scoreA := PrimFloat.add (PrimFloat.mul (safetyScore a) 0.6)
                    (PrimFloat.mul (PrimFloat.mul (PrimFloat.div 1 (Z2float (duration_seconds a))) 10000) 0.4) in
    let scoreB := PrimFloat.add (PrimFloat.mul (safetyScore b) 0.6)
                    (PrimFloat.mul (PrimFloat.mul (PrimFloat.div 1 (Z2float (duration_seconds b))) 10000) 0.4) in
    sign_float (PrimFloat.sub scoreB scoreA).

(** [Array.prototype.sort(compareFn)].  The sort is stable (ECMAScript
    2019): it is modelled as the insertion sort that places an element
    before the first element it does not compare greater than. *)
Section Sort.
Context {A : Type} (compareFn : A -> A -> comparison).

Fixpoint insert (x : A) (sorted : list A) : list A :=
  match sorted with
  | [] => [x]
  | y :: rest =>
      match compareFn x y with
      | Gt => y :: insert x rest
      | _ => x :: sorted
      end
  end.

Fixpoint sort (a : list A) : list A :=
  match a with
  | [] => []
  | x :: rest => insert x (sort rest)
  end.
End Sort.

Section WithStore.
Variable Db : Type.
Variable findNearby : Db -> float * float -> float -> list SafetyReport.t * Db.

(** [routes.map(async (route, index) => ...)]: every route is scored and
    classified against the whole list [routes].  The queries of the
    routes are issued against the store one route after the other. *)
Fixpoint mapRoutes (routes : list DirectionsRoute) (db : Db) (index : nat)
         (todo : list DirectionsRoute) : list ProcessedRoute * Db :=
  match todo with
  | [] => ([], db)
  | route :: rest =>
      let '(safetyScore, db) :=
        calculateRouteSafetyScore Db findNearby db (overview_polyline route) in
      let '(processed, db) := mapRoutes routes db (S index) rest in
      (processRoute routes index route safetyScore :: processed, db)
  end.

(** The body of the handler after the directions response arrived: the
    [routes] array of the response body. *)
Definition calculate (db : Db) (routes : list DirectionsRoute)
           (routePreference : string) : list ProcessedRoute * Db :=
  let '(processedRoutes, db) := mapRoutes routes db 0 routes in
  (sort (compareRoutes routePreference) processedRoutes, db).

End WithStore.

End Routes.

(* ------------------------------------------------------------------------- *)
(** ** Shapes of binary64 values used in the bounds *)

Module Shapes.

(** Shape of a rounded result: it keeps the sign it was given and is never
    a NaN. *)
Definition signed (s : bool) (x : spec_float) : Prop :=
  match x with
  | S754_zero s' | S754_infinity s' | S754_finite s' _ _ => s' = s
  | S754_nan => False
  end.

(** Shape of a rounded result that stays below [2^k]: a zero or a finite
    number [m * 2^e] with [m <= 2^(k - e)]. *)
Definition below (s : bool) (k : Z) (x : spec_float) : Prop :=
  match x with
  | S754_zero s' => s' = s
  | S754_finite s' m e => s' = s /\ Z.pos m <= 2 ^ (k - e)
  | _ => False
  end.

(** A number that is not positive: a zero, a negative finite number or
    minus infinity. *)
Definition nonpositive (x : spec_float) : Prop :=
  match x with
  | S754_zero _ | S754_infinity true | S754_finite true _ _ => True
  | _ => False
  end.

(** A number that is at most [2^k]: not a NaN, not plus infinity, and
    when positive and finite, [m * 2^e <= 2^k]. *)
Definition at_most (k : Z) (x : spec_float) : Prop :=
  match x with
  | S754_nan | S754_infinity false => False
  | S754_finite false m e => Z.pos m <= 2 ^ (k - e)
  | _ => True
  end.

End Shapes.

(* ------------------------------------------------------------------------- *)
(** ** Values and bounds of binary64 numbers *)

Module Values.

(** The value [m * 2^e] of a mantissa and an exponent, scaled by [2^2200]
    so that it is an integer for every exponent of a binary64 number or of a
    product of two. *)
Definition val (m e : Z) : Z := m * 2 ^ (e + 2200).

(** A non-negative number that is at most [b * 2^eb]: a zero or a positive
    finite number.  [signed_zero] tells whether the zero may be [-0]. *)
Definition nonneg_upto (signed_zero : bool) (b : positive) (eb : Z) (x : spec_float) : Prop :=
  match x with
  | S754_zero s => signed_zero = true \/ s = false
  | S754_finite false m e => -1074 <= e /\ val (Z.pos m) e <= val (Z.pos b) eb
  | _ => False
  end.

(** A positive number that is at least [a * 2^ea] (plus infinity
    included). *)
Definition pos_from (a : positive) (ea : Z) (x : spec_float) : Prop :=
  match x with
  | S754_finite false m e => -1074 <= e /\ val (Z.pos a) ea <= val (Z.pos m) e
  | S754_infinity false => True
  | _ => False
  end.

(** A zero or a positive finite number. *)
Definition nonneg (x : spec_float) : Prop :=
  match x with
  | S754_zero _ => True
  | S754_finite false m e => -1074 <= e
  | _ => False
  end.

End Values.

Module Bounds.
Import JS Values.

(** [x] is [+0] (or [-0] when [z] is set) or positive and at most [B]. *)
Definition upto (z : bool) (B x : float) : Prop :=
  match Prim2SF B with
  | S754_finite false b eb => nonneg_upto z b eb (Prim2SF x)
  | _ => False
  end.

(** Side conditions of the bounds, decided by computation: the exact
    product or sum of the bounds of the operands lies strictly below the
    bound of the result. *)
Definition mul_check (Bx w B : float) : bool :=
  match Prim2SF Bx, Prim2SF w, Prim2SF B with
  | S754_finite false bx ebx, S754_finite false mw ew, S754_finite false b eb =>
      (eb <=? 900) && (val (Z.pos bx * Z.pos mw) (ebx + ew) <? val (Z.pos b) eb)
  | _, _, _ => false
  end.

Definition add_check (Bx B_y B : float) : bool :=
  match Prim2SF Bx, Prim2SF B_y, Prim2SF B with
  | S754_finite false bx ebx, S754_finite false b_y eby, S754_finite false b eb =>
      (eb <=? 900) && (val (Z.pos bx) ebx + val (Z.pos b_y) eby <? val (Z.pos b) eb)
  | _, _, _ => false
  end.

(** [B < N + 1/2], for a small [N]. *)
Definition round_check (B : float) (N : Z) : bool :=
  match Prim2SF B with
  | S754_finite false b eb => (2 * val (Z.pos b) eb <? val (2 * N + 1) 0) && (N <? 2 ^ 51)
  | _ => false
  end.

Definition positive_finite (B : float) : bool :=
  match Prim2SF B with S754_finite false _ _ => true | _ => false end.

(** The integer that [Math.round] gives for [m * 2^e] when [e < 0]. *)
Definition roundIndex (m : positive) (e : Z) : Z :=
  (2 * Z.pos m + 2 ^ (- e)) / 2 ^ (1 - e).

(** [x] is positive (possibly plus infinity) and at least [A]. *)
Definition from (A x : float) : Prop :=
  match Prim2SF A with
  | S754_finite false a ea => pos_from a ea (Prim2SF x)
  | _ => False
  end.

Definition mul_from_check (Ax w A : float) : bool :=
  match Prim2SF Ax, Prim2SF w, Prim2SF A with
  | S754_finite false ax eax, S754_finite false mw ew, S754_finite false a ea =>
      val (Z.pos a) ea <=? val (Z.pos ax * Z.pos mw) (eax + ew)
  | _, _, _ => false
  end.

(** [N - 1/2 <= A]. *)
Definition round_from_check (A : float) (N : Z) : bool :=
  match Prim2SF A with
  | S754_finite false a ea => val (2 * N - 1) 0 <=? 2 * val (Z.pos a) ea
  | _ => false
  end.

(** The tenths [0/10, 1/10, ..., N/10] as the code computes them. *)
Definition tenth (n : Z) : float := PrimFloat.div (Z2float n) 10.

Definition upTo (N : nat) : list Z := map Z.of_nat (seq 0 (S N)).

End Bounds.

(* ------------------------------------------------------------------------- *)
(** ** Sampling, scored routes and scenarios *)

Module Sampling.

(** The number of elements to pass over before the next index that is a
    multiple of ten. *)
Definition toNextTenth (index : nat) : nat := ((10 - index mod 10) mod 10)%nat.

End Sampling.

Module Ranking.
Import JS Polyline Scoring Routes Bounds.

(** What the [map] callback produced for a route of the response, with the
    score it was given: the one computed for the route's polyline in some
    state of the store. *)
Definition scoredFrom (Db : Type)
           (findNearby : Db -> float * float -> float -> list SafetyReport.t * Db)
           (routes : list DirectionsRoute) (route : DirectionsRoute)
           (p : ProcessedRoute) : Prop :=
  exists index db,
    p = processRoute routes index route
          (fst (calculateRouteSafetyScore Db findNearby db (overview_polyline route))).

(** The index of a score among the tenths [0.0 .. 6.8]. *)
Definition tenths (x : float) : Z :=
  match find (fun n => PrimFloat.eqb (tenth n) x) (upTo 68) with
  | Some n => n
  | None => 0
  end.

Definition isGt (c : comparison) : bool := match c with Gt => true | _ => false end.

(** A processed route whose score is one of the tenths [0.0 .. 6.8]. *)
Definition onGrid (p : ProcessedRoute) : Prop :=
  exists n, 0 <= n <= 68 /\ safetyScore p = tenth n.

End Ranking.

Module Order.
Import JS Routes Values.

(** A bound that the scaled value of no finite number reaches. *)
Definition beyond : Z := 2 ^ 4000.

(** The place of a number on the line: its value scaled by [2^2200]; the
    infinities lie beyond every finite number. *)
Definition ord (x : spec_float) : Z :=
  match x with
  | S754_zero _ | S754_nan => 0
  | S754_infinity s => cond_Zopp s beyond
  | S754_finite s m e => cond_Zopp s (val (Z.pos m) e)
  end.

(** A positive number, plus infinity included. *)
Definition is_positive (x : spec_float) : Prop :=
  match x with
  | S754_infinity false | S754_finite false _ _ => True
  | _ => False
  end.

(** The score by which the default preference ranks a route:
    [safetyScore * 0.6 + (1 / duration.seconds) * 10000 * 0.4]. *)
Definition combinedScore (p : ProcessedRoute) : float :=
  PrimFloat.add (PrimFloat.mul (safetyScore p) 0.6)
    (PrimFloat.mul (PrimFloat.mul (PrimFloat.div 1 (Z2float (duration_seconds p))) 10000) 0.4).

(** A zero or a finite number. *)
Definition is_finite (x : float) : bool :=
  match Prim2SF x with S754_zero _ | S754_finite _ _ _ => true | _ => false end.

(** [n] is the integer nearest to [x], the upper one of two that are
    equally near: [n - 1/2 <= x < n + 1/2], in exact arithmetic. *)
Definition nearestInteger (n : Z) (x : float) : Prop :=
  val (2 * n - 1) 0 <= 2 * ord (Prim2SF x) < val (2 * n + 1) 0.

(** [r] is [x] rounded to one decimal place: [n / 10] for the integer [n]
    nearest to [x * 10]; [NaN] when [x] is. *)
Definition roundedToOneDecimal (x r : float) : Prop :=
  (is_nan x = true /\ is_nan r = true) \/
  (exists n, nearestInteger n (PrimFloat.mul x 10) /\ r = PrimFloat.div (Z2float n) 10).

(** [v] is [a] brought into the interval from 0 to 10: 0 below it, 10
    above it, [a] itself (as a number) inside it, and [NaN] for [NaN]. *)
Definition clampedFrom (a v : float) : Prop :=
  (PrimFloat.ltb a 0 = true -> v = 0%float) /\
  (PrimFloat.ltb 10 a = true -> v = 10%float) /\
  (PrimFloat.leb 0 a = true -> PrimFloat.leb a 10 = true -> PrimFloat.eqb v a = true) /\
  (is_nan a = true -> is_nan v = true).

(** Modelled from the spec: two numbers that are equal within 1e-5
    absolute tolerance, [|x' - x| <= 1e-5] in exact arithmetic; neither is
    a [NaN] or an infinity. *)
Definition within1e5 (x' x : float) : Prop :=
  is_finite x' = true /\ is_finite x = true /\
  100000 * Z.abs (ord (Prim2SF x') - ord (Prim2SF x)) <= val 1 0.

End Order.

Module Scenarios.
Import JS Polyline Scoring.

(** A store in which every query finds one verified report of a robbery
    of critical severity. *)
Definition robberyStore (db : unit) (coordinates : float * float) (maxDistance : float)
  : list SafetyReport.t * unit :=
  ([{| SafetyReport.reportType := Some SafetyReport.TheftRobbery;
       SafetyReport.severity := Some SafetyReport.critical;
       SafetyReport.status := SafetyReport.verified |}], db).


(** A store that its first queries drain: in state [n] a query finds [n]
    reports of harassment of medium severity and leaves the state
    [n - 1]. *)
Definition drainedStore (db : nat) (coordinates : float * float) (maxDistance : float)
  : list SafetyReport.t * nat :=
  (repeat {| SafetyReport.reportType := Some SafetyReport.Harassment;
             SafetyReport.severity := Some SafetyReport.medium;
             SafetyReport.status := SafetyReport.verified |} db,
   Nat.pred db).

(** Every answer of the store holds only reports with a severity and a
    type of the tables. *)
Definition answersInTables (Db : Type)
           (findNearby : Db -> float * float -> float -> list SafetyReport.t * Db) : Prop :=
  forall db coordinates maxDistance,
    Forall (fun report => SafetyReport.inTables report = true)
           (fst (findNearby db coordinates maxDistance)).

End Scenarios.

(* ------------------------------------------------------------------------- *)
(** ** Facts on binary64 rounding, addition, division and comparison *)

Module Binary64.
Import Shapes.

Lemma fexp_unfold (e : Z) : fexp prec emax e = Z.max (e - 53) (-1074).
Proof. reflexivity. Qed.

Lemma digits2_pos_size (p : positive) : digits2_pos p = Pos.size p.
Proof. induction p as [p IH|p IH|]; simpl; now rewrite ?IH. Qed.

(** The number of binary digits of a non-negative mantissa below [2^n]. *)
Lemma Zdigits2_le (m n : Z) : 0 <= m < 2 ^ n -> Zdigits2 m <= n.
Proof.
  intros [Hm Hlt].
  assert (Hn : 0 <= n).
  { destruct (Z.ltb_spec n 0) as [Hneg|]; [|assumption].
    rewrite (Z.pow_neg_r 2 n Hneg) in Hlt. lia. }
  destruct m as [|p|p]; [exact Hn | | lia].
  cbn [Zdigits2]. rewrite digits2_pos_size.
  pose proof (Pos.size_le p) as Hsz.
  assert (H2 : 2 ^ Z.pos (Pos.size p) <= 2 * Z.pos p).
  { change (2 * Z.pos p) with (Z.pos p~0). rewrite <- Pos2Z.inj_pow. apply Pos2Z.pos_le_pos. exact Hsz. }
  destruct (Z.leb_spec (Z.pos (Pos.size p)) n) as [|Hgt]; [assumption|exfalso].
  assert (2 ^ (n + 1) <= 2 ^ Z.pos (Pos.size p)) by (apply Z.pow_le_mono_r; lia).
  rewrite Z.pow_add_r in H by lia. lia.
Qed.

(** One step of the right shift halves a non-negative mantissa. *)
Lemma shr_1_m (mrs : shr_record) :
  0 <= shr_m mrs -> shr_m (shr_1 mrs) = shr_m mrs / 2.
Proof.
  destruct mrs as [m r s]. cbn [shr_m]. intros Hm.
  destruct m as [|[p|p|]|p]; cbn [shr_1 shr_m]; [reflexivity | | | reflexivity | lia].
  - apply (Z.div_unique _ 2 _ 1); lia.
  - apply (Z.div_unique _ 2 _ 0); lia.
Qed.

Lemma shr_iter_m (p : positive) :
  forall mrs, 0 <= shr_m mrs ->
              shr_m (iter_pos shr_1 p mrs) = shr_m mrs / 2 ^ Z.pos p.
Proof.
  induction p as [p IH|p IH|]; intros mrs Hm; cbn [iter_pos].
  - assert (H1 : 0 <= shr_m (shr_1 mrs)) by (rewrite shr_1_m by assumption; apply Z.div_pos; lia).
    assert (H2 : 0 <= shr_m (iter_pos shr_1 p (shr_1 mrs)))
      by (rewrite IH by assumption; apply Z.div_pos; lia).
    rewrite IH, IH, shr_1_m by assumption.
    rewrite !Z.div_div by lia. f_equal.
    rewrite Pos2Z.inj_xI.
    replace (2 * Z.pos p + 1) with (1 + Z.pos p + Z.pos p) by lia.
    rewrite !Z.pow_add_r by lia. change (2 ^ 1) with 2. ring.
  - assert (H2 : 0 <= shr_m (iter_pos shr_1 p mrs))
      by (rewrite IH by assumption; apply Z.div_pos; lia).
    rewrite IH, IH by assumption.
    rewrite !Z.div_div by lia. f_equal.
    rewrite <- Z.pow_add_r by lia. f_equal. lia.
  - rewrite shr_1_m by assumption. reflexivity.
Qed.

Lemma shr_record_of_loc_m (m : Z) (l : location) : shr_m (shr_record_of_loc m l) = m.
Proof. destruct l as [|[]]; reflexivity. Qed.

(** [shr_fexp] either leaves the mantissa alone or divides it by the power
    of two that brings the exponent up to [fexp]. *)
Lemma shr_fexp_cases (m e : Z) (l : location) :
  0 <= m ->
  forall mrs e', shr_fexp prec emax m e l = (mrs, e') ->
  0 <= shr_m mrs /\
  ((e' = e /\ shr_m mrs = m) \/
   (e < e' /\ e' = fexp prec emax (Zdigits2 m + e) /\ shr_m mrs = m / 2 ^ (e' - e))).
Proof.
  intros Hm mrs e'. unfold shr_fexp, shr.
  destruct (fexp prec emax (Zdigits2 m + e) - e) as [|p|p] eqn:Hn; intros H; inversion H; subst.
  - rewrite shr_record_of_loc_m. auto.
  - rewrite shr_iter_m by (rewrite shr_record_of_loc_m; assumption).
    rewrite shr_record_of_loc_m.
    replace (e + Z.pos p - e) with (Z.pos p) by lia.
    split; [apply Z.div_pos; lia|]. right. repeat split; lia.
  - rewrite shr_record_of_loc_m. auto.
Qed.

Lemma round_nearest_even_range (m : Z) (l : location) :
  m <= round_nearest_even m l <= m + 1.
Proof. destruct l as [|[]]; cbn; try destruct (Z.even m); lia. Qed.

Lemma pow2_split (a b : Z) : 0 <= a -> 0 <= b -> 2 ^ (a + b) = 2 ^ a * 2 ^ b.
Proof. intros. now apply Z.pow_add_r. Qed.

(** A strict bound on a non-negative mantissa forces a non-negative
    exponent gap. *)
Lemma pow2_gap_nonneg (m n : Z) : 0 <= m < 2 ^ n -> 0 <= n.
Proof.
  intros [Hm Hlt]. destruct (Z.ltb_spec n 0) as [Hneg|]; [|assumption].
  rewrite (Z.pow_neg_r 2 n Hneg) in Hlt. lia.
Qed.

Lemma binary_round_aux_signed (s : bool) (mx ex : Z) (lx : location) :
  0 <= mx -> signed s (binary_round_aux prec emax s mx ex lx).
Proof.
  intros Hm. unfold binary_round_aux.
  destruct (shr_fexp prec emax mx ex lx) as [mrs1 e1] eqn:E1.
  destruct (shr_fexp_cases _ _ _ Hm _ _ E1) as [Hm1 _].
  pose proof (round_nearest_even_range (shr_m mrs1) (loc_of_shr_record mrs1)) as Hr.
  assert (Hr0 : 0 <= round_nearest_even (shr_m mrs1) (loc_of_shr_record mrs1)) by lia.
  destruct (shr_fexp prec emax (round_nearest_even _ _) e1 loc_Exact) as [mrs2 e2] eqn:E2.
  destruct (shr_fexp_cases _ _ _ Hr0 _ _ E2) as [Hm2 _].
  destruct (shr_m mrs2) as [|m|m]; [reflexivity | | lia].
  destruct (e2 <=? emax - prec); reflexivity.
Qed.

Lemma binary_round_aux_below (s : bool) (mx ex : Z) (lx : location) (k : Z) :
  0 <= mx < 2 ^ (k - ex) -> -1074 < k <= 971 ->
  below s k (binary_round_aux prec emax s mx ex lx).
Proof.
  intros [Hm Hlt] Hk. unfold binary_round_aux.
  pose proof (pow2_gap_nonneg _ _ (conj Hm Hlt)) as Hgap.
  pose proof (Zdigits2_le _ _ (conj Hm Hlt)) as Hdig.
  destruct (shr_fexp prec emax mx ex lx) as [mrs1 e1] eqn:E1.
  destruct (shr_fexp_cases _ _ _ Hm _ _ E1) as [Hm1 Hc1].
  pose proof (round_nearest_even_range (shr_m mrs1) (loc_of_shr_record mrs1)) as Hr.
  set (m2 := round_nearest_even (shr_m mrs1) (loc_of_shr_record mrs1)) in *.
  assert (H2 : m2 <= 2 ^ (k - e1)).
  { destruct Hc1 as [[He1 Hq] | (Hlt1 & He1 & Hq)]; [rewrite He1; lia|].
    rewrite fexp_unfold in He1.
    assert (Hq' : shr_m mrs1 < 2 ^ (k - e1)).
    { rewrite Hq. apply Z.div_lt_upper_bound; [apply Z.pow_pos_nonneg; lia|].
      rewrite <- pow2_split by lia. replace (e1 - ex + (k - e1)) with (k - ex) by lia.
      exact Hlt. }
    lia. }
  assert (Hr0 : 0 <= m2) by lia.
  destruct (shr_fexp prec emax m2 e1 loc_Exact) as [mrs2 e2] eqn:E2.
  destruct (shr_fexp_cases _ _ _ Hr0 _ _ E2) as [Hm2 Hc2].
  assert (H3 : shr_m mrs2 <= 2 ^ (k - e2)).
  { destruct Hc2 as [[He2 Hq] | (Hlt2 & _ & Hq)]; [rewrite He2, Hq; exact H2|].
    rewrite Hq.
    destruct (Z.ltb_spec (k - e2) 0) as [Hneg|Hpos].
    - rewrite (Z.pow_neg_r 2 _ Hneg).
      rewrite Z.div_small; [lia|]. split; [lia|].
      apply Z.le_lt_trans with (1 := H2).
      apply Z.pow_lt_mono_r; lia.
    - apply Z.div_le_upper_bound; [apply Z.pow_pos_nonneg; lia|].
      rewrite <- pow2_split by lia. replace (e2 - e1 + (k - e2)) with (k - e1) by lia.
      exact H2. }
  destruct (shr_m mrs2) as [|m|m]; [reflexivity | | lia].
  cbv [below].
  assert (He2 : e2 <= k).
  { destruct (Z.leb_spec e2 k) as [|Hgt]; [assumption|].
    rewrite (Z.pow_neg_r 2 (k - e2)) in H3 by lia. lia. }
  replace (e2 <=? emax - prec) with true by (symmetry; apply Z.leb_le; change (emax - prec) with 971; lia).
  split; [reflexivity | exact H3].
Qed.

(** The value of a left-aligned mantissa. *)
Lemma shl_align_value (mx : positive) (ex ez : Z) :
  ez <= ex ->
  Z.pos (fst (shl_align mx ex ez)) = Z.pos mx * 2 ^ (ex - ez) /\
  snd (shl_align mx ex ez) = ez.
Proof.
  intros Hle. unfold shl_align.
  destruct (ez - ex) as [|d|d] eqn:Hd; cbn [fst snd].
  - replace (ex - ez) with 0 by lia. split; lia.
  - lia.
  - replace (ex - ez) with (Z.pos d) by lia.
    change (Pos.iter xO mx d) with (shift_pos d mx).
    rewrite shift_pos_correct, Zpower_pos_nat, Zpower_nat_Z, positive_nat_Z.
    split; [ring | reflexivity].
Qed.

Lemma shl_align_fexp_value (mx : positive) (ex : Z) :
  let '(mz, ez) := shl_align mx ex (fexp prec emax (Z.pos (digits2_pos mx) + ex)) in
  ez <= ex /\ Z.pos mz = Z.pos mx * 2 ^ (ex - ez).
Proof.
  unfold shl_align.
  destruct (fexp prec emax (Z.pos (digits2_pos mx) + ex) - ex) as [|d|d] eqn:Hd.
  - split; [lia|]. rewrite Z.sub_diag. change (2 ^ 0) with 1. lia.
  - split; [lia|]. rewrite Z.sub_diag. change (2 ^ 0) with 1. lia.
  - split; [lia|].
    replace (ex - fexp prec emax (Z.pos (digits2_pos mx) + ex)) with (Z.pos d) by lia.
    change (Pos.iter xO mx d) with (shift_pos d mx).
    rewrite shift_pos_correct, Zpower_pos_nat, Zpower_nat_Z, positive_nat_Z. ring.
Qed.

Lemma binary_round_signed (s : bool) (m : positive) (e : Z) :
  signed s (binary_round prec emax s m e).
Proof.
  unfold binary_round.
  destruct (shl_align m e _) as [mz ez].
  apply binary_round_aux_signed. lia.
Qed.

Lemma binary_round_below (s : bool) (m : positive) (e k : Z) :
  Z.pos m < 2 ^ (k - e) -> -1074 < k <= 971 ->
  below s k (binary_round prec emax s m e).
Proof.
  intros Hlt Hk. unfold binary_round.
  pose proof (shl_align_fexp_value m e) as Hal.
  destruct (shl_align m e _) as [mz ez]. destruct Hal as [Hle Hmz].
  apply binary_round_aux_below; [|exact Hk].
  split; [lia|]. rewrite Hmz.
  assert (0 <= k - e) by (apply (pow2_gap_nonneg (Z.pos m)); lia).
  replace (k - ez) with ((k - e) + (e - ez)) by lia.
  rewrite pow2_split by lia.
  apply Z.mul_lt_mono_pos_r; [apply Z.pow_pos_nonneg; lia | exact Hlt].
Qed.

Lemma signed_true_at_most (k : Z) (x : spec_float) : signed true x -> at_most k x.
Proof. destruct x as [s|s| |s m e]; cbn; try tauto; intros ->; exact I. Qed.

Lemma below_at_most (k : Z) (x : spec_float) : below false k x -> at_most k x.
Proof. destruct x as [s|s| |s m e]; cbn; try tauto. intros [-> H]. exact H. Qed.

(** Adding a non-positive number keeps a sum at most [2^k]. *)
Lemma SFadd_at_most (k : Z) (x y : spec_float) :
  -1074 < k <= 971 ->
  at_most k x -> nonpositive y -> at_most k (SFadd prec emax x y).
Proof.
  intros Hk Hx Hy.
  destruct x as [sx|[|]| |sx mx ex]; cbn [at_most] in Hx; try contradiction;
    destruct y as [sy|[|]| |[|] my ey]; cbn [nonpositive] in Hy; try contradiction;
    try exact I; try exact Hx.
  - destruct sx, sy; exact I.
  - (* finite + finite *)
    cbn [SFadd].
    set (ez := Z.min ex ey).
    destruct (shl_align_value mx ex ez ltac:(lia)) as [HX _].
    destruct (shl_align_value my ey ez ltac:(lia)) as [HY _].
    set (X := fst (shl_align mx ex ez)) in *.
    set (Y := fst (shl_align my ey ez)) in *.
    unfold binary_normalize.
    destruct (cond_Zopp sx (Z.pos X) + cond_Zopp true (Z.pos Y)) as [|p|p] eqn:HM.
    + exact I.
    + destruct sx; cbn [cond_Zopp] in HM; [lia|].
      apply below_at_most. apply binary_round_below; [|exact Hk].
      assert (0 <= k - ex).
      { destruct (Z.ltb_spec (k - ex) 0) as [Hneg|]; [|assumption].
        rewrite (Z.pow_neg_r 2 _ Hneg) in Hx. lia. }
      assert (Z.pos X <= 2 ^ (k - ez)).
      { rewrite HX. replace (k - ez) with ((k - ex) + (ex - ez)) by lia.
        rewrite pow2_split by lia.
        apply Z.mul_le_mono_nonneg_r; [apply Z.pow_nonneg; lia | exact Hx]. }
      lia.
    + apply signed_true_at_most. apply binary_round_signed.
Qed.

(** The quotient of a negative finite number by a number that is zero,
    positive or plus infinity is not positive. *)
Lemma SFdiv_nonpositive (mx : positive) (ex : Z) (y : spec_float) :
  signed false y ->
  nonpositive (SFdiv prec emax (S754_finite true mx ex) y).
Proof.
  destruct y as [sy|sy| |sy my ey]; cbn [signed]; intros Hs; try contradiction; subst;
    try exact I.
  cbn [SFdiv].
  unfold SFdiv_core_binary.
  set (e' := Z.min _ _). set (m' := match _ with Z0 => _ | _ => _ end).
  assert (Hm' : 0 <= m').
  { subst m'. destruct (ex - ey - e'); [lia | apply Z.shiftl_nonneg; lia | lia]. }
  pose proof (Z.div_pos m' (Z.pos my) Hm' ltac:(lia)) as Hq.
  unfold Z.div in Hq.
  destruct (Z.div_eucl m' (Z.pos my)) as [q r].
  pose proof (binary_round_aux_signed (xorb true false) q e' (new_location (Z.pos my) r) Hq) as H.
  cbn [xorb] in H.
  destruct (binary_round_aux _ _ _ _ _ _) as [s|s| |s m e]; cbn in H |- *;
    try contradiction; subst; exact I.
Qed.

Lemma binary_normalize_nonneg_signed (n : Z) :
  0 <= n -> signed false (binary_normalize prec emax n 0 false).
Proof.
  intros Hn. destruct n as [|p|p]; [reflexivity | apply binary_round_signed | lia].
Qed.

(** Comparison of non-NaN numbers. *)
Lemma SFcompare_antisym (x y : spec_float) :
  SFcompare y x = option_map CompOpp (SFcompare x y).
Proof.
  destruct x as [sx|sx| |sx mx ex], y as [sy|sy| |sy my ey]; cbn;
    try destruct sx; try destruct sy; try reflexivity;
    rewrite (Z.compare_antisym ex ey); destruct (ex ?= ey); cbn; try reflexivity;
    rewrite ?(Pos.compare_cont_antisym mx my Eq); reflexivity.
Qed.


End Binary64.

(* ------------------------------------------------------------------------- *)
(** ** Properties of the polyline decoder *)

Module PolylineFacts.
Import JS Polyline.

(** A read at or past the end of the string yields [NaN]. *)
Lemma charCodeAt_past_end (encoded : JsString) (index : nat) :
  (List.length encoded <= index)%nat -> charCodeAt encoded index = NaN.
Proof. intros H. unfold charCodeAt, NaN. now apply nth_error_None. Qed.

(** A [NaN] character code ends the group after one iteration and
    contributes no bits. *)
Lemma readGroup_past_end (fuel : nat) (encoded : JsString) (index : nat) (shift result : Z) :
  (List.length encoded <= index)%nat ->
  readGroup (S fuel) encoded index shift result
  = Some (or32 result (shl32 0 shift), S index).
Proof.
  intros H. simpl. rewrite (charCodeAt_past_end _ _ H). reflexivity.
Qed.

(** Every iteration of the group loop advances [index]. *)
Lemma readGroup_index_increases (fuel : nat) (encoded : JsString) :
  forall index shift result result' index',
    readGroup fuel encoded index shift result = Some (result', index') ->
    (index < index')%nat.
Proof.
  induction fuel as [|fuel IH]; intros index shift result result' index' H.
  - discriminate.
  - simpl in H.
    destruct (geb (minus (charCodeAt encoded index) 63) 32).
    + apply IH in H. lia.
    + inversion H; subst. lia.
Qed.

Lemma geb_in_range (encoded : JsString) (index : nat) (k : Z) :
  geb (minus (charCodeAt encoded index) 63) k = true ->
  (index < List.length encoded)%nat.
Proof.
  unfold charCodeAt. intros H.
  apply nth_error_Some. destruct (nth_error encoded index); [discriminate | discriminate H].
Qed.

(** The group loop continues only after an in-range read, so it returns
    once the fuel exceeds the number of code units left. *)
Lemma readGroup_enough_fuel (fuel : nat) (encoded : JsString) :
  forall index shift result,
    (1 <= fuel)%nat ->
    (List.length encoded < fuel + index)%nat ->
    exists result' index', readGroup fuel encoded index shift result = Some (result', index').
Proof.
  induction fuel as [|fuel IH]; intros index shift result Hpos H; [lia|].
  simpl.
  destruct (geb (minus (charCodeAt encoded index) 63) 32) eqn:Hb.
  - apply geb_in_range in Hb. apply IH; lia.
  - eauto.
Qed.

(** More fuel does not change a result. *)
Lemma readGroup_fuel_mono (fuel : nat) (encoded : JsString) :
  forall fuel' index shift result out,
    (fuel <= fuel')%nat ->
    readGroup fuel encoded index shift result = Some out ->
    readGroup fuel' encoded index shift result = Some out.
Proof.
  induction fuel as [|fuel IH]; intros fuel' index shift result out Hle H; [discriminate|].
  destruct fuel' as [|fuel']; [lia|].
  simpl in *.
  destruct (geb (minus (charCodeAt encoded index) 63) 32); [|exact H].
  apply IH; [lia | exact H].
Qed.

Lemma decodeLoop_enough_fuel (fuel : nat) (encoded : JsString) :
  forall index lat lng points,
    (1 <= fuel)%nat ->
    (List.length encoded < fuel + index)%nat ->
    exists points', decodeLoop fuel encoded index lat lng points = Some points'.
Proof.
  induction fuel as [|fuel IH]; intros index lat lng points Hpos H; [lia|].
  cbn [decodeLoop].
  destruct (index <? List.length encoded)%nat eqn:Hin; [|eauto].
  apply Nat.ltb_lt in Hin.
  destruct (readGroup_enough_fuel (S fuel) encoded index 0 0) as (r1 & i1 & H1); [lia..|].
  rewrite H1.
  pose proof (readGroup_index_increases _ _ _ _ _ _ _ H1) as Hi1.
  destruct (readGroup_enough_fuel (S fuel) encoded i1 0 0) as (r2 & i2 & H2); [lia..|].
  rewrite H2.
  pose proof (readGroup_index_increases _ _ _ _ _ _ _ H2) as Hi2.
  apply IH; lia.
Qed.

Lemma decodeLoop_fuel_mono (fuel : nat) (encoded : JsString) :
  forall fuel' index lat lng points out,
    (fuel <= fuel')%nat ->
    decodeLoop fuel encoded index lat lng points = Some out ->
    decodeLoop fuel' encoded index lat lng points = Some out.
Proof.
  induction fuel as [|fuel IH]; intros fuel' index lat lng points out Hle H; [discriminate|].
  destruct fuel' as [|fuel']; [lia|].
  cbn [decodeLoop] in *.
  destruct (index <? List.length encoded)%nat; [|exact H].
  destruct (readGroup (S fuel) encoded index 0 0) as [[r1 i1]|] eqn:H1; [|discriminate].
  assert (Hfuel : (S fuel <= S fuel')%nat) by lia.
  rewrite (readGroup_fuel_mono _ _ _ _ _ _ _ Hfuel H1).
  destruct (readGroup (S fuel) encoded i1 0 0) as [[r2 i2]|] eqn:H2; [|discriminate].
  rewrite (readGroup_fuel_mono _ _ _ _ _ _ _ Hfuel H2).
  apply IH; [lia | exact H].
Qed.

(** The default branch of [decodePolyline] is dead. *)
Lemma decodePolyline_fuel (encoded : JsString) :
  forall fuel, (List.length encoded < fuel)%nat ->
    decodePolylineFuel fuel encoded = Some (decodePolyline encoded).
Proof.
  intros fuel Hfuel. unfold decodePolyline, decodePolylineFuel.
  destruct (decodeLoop_enough_fuel (S (List.length encoded)) encoded 0 0 0 [])
    as (pts & Hpts); [lia..|].
  rewrite Hpts.
  apply (decodeLoop_fuel_mono (S (List.length encoded))); [lia | exact Hpts].
Qed.

(** *** 32-bit arithmetic on values in range *)

Lemma wrap32_small (z : Z) : - 2 ^ 31 <= z < 2 ^ 31 -> wrap32 z = z.
Proof. intros H. unfold wrap32. rewrite Z.mod_small; lia. Qed.

(** Bits set in disjoint positions add up. *)
Lemma lor_shiftl_add (r x s : Z) :
  0 <= s -> 0 <= r < 2 ^ s -> Z.lor r (Z.shiftl x s) = r + x * 2 ^ s.
Proof.
  intros Hs Hr.
  rewrite Z.shiftl_mul_pow2 by lia.
  rewrite <- Z.lxor_lor, <- Z.add_nocarry_lxor; try reflexivity.
  all: apply Z.bits_inj'; intros n Hn; rewrite Z.land_spec, Z.bits_0;
    destruct (Z.lt_ge_cases n s) as [Hlt|Hge].
  all: try (rewrite Z.mul_pow2_bits_low by lia; apply andb_false_r).
  all: rewrite <- (Z.mod_small r (2 ^ s)) by lia;
    rewrite Z.mod_pow2_bits_high by lia; reflexivity.
Qed.

Lemma land_31 (v : Z) : Z.land v 31 = v mod 32.
Proof. change 31 with (Z.ones 5). now rewrite Z.land_ones by lia. Qed.

Lemma continuation_chunk (v : Z) :
  Z.lor 32 (Z.land v 31) = 32 + v mod 32.
Proof.
  rewrite land_31.
  replace (Z.lor 32 (v mod 32)) with (Z.lor (v mod 32) (Z.shiftl 1 5))
    by (rewrite Z.lor_comm; reflexivity).
  pose proof (Z.mod_pos_bound v 32 ltac:(lia)) as Hr.
  rewrite lor_shiftl_add; change (2 ^ 5) with 32; lia.
Qed.

(** *** One group *)

Lemma charCodeAt_app (pre : JsString) (c : Z) (post : JsString) :
  charCodeAt (pre ++ c :: post) (List.length pre) = Some c.
Proof.
  unfold charCodeAt. rewrite nth_error_app2 by lia. now rewrite Nat.sub_diag.
Qed.

(** A left shift whose result fits in 31 bits is a multiplication. *)
Lemma shl32_small (x shift : Z) :
  0 <= x -> 0 <= shift < 32 -> x * 2 ^ shift < 2 ^ 31 ->
  shl32 x shift = x * 2 ^ shift.
Proof.
  intros Hx Hs Hfit. unfold shl32.
  assert (0 < 2 ^ shift) by (apply Z.pow_pos_nonneg; lia).
  assert (x < 2 ^ 31) by nia.
  rewrite (wrap32_small x) by lia.
  rewrite Z.mod_small by lia.
  rewrite Z.shiftl_mul_pow2 by lia.
  apply wrap32_small. nia.
Qed.

(** The update [result |= (b & 0x1f) << shift] on values that fit. *)
Lemma accumulate_chunk (result b shift : Z) :
  0 <= b < 64 -> 0 <= shift < 32 -> 0 <= result < 2 ^ shift ->
  result + (b mod 32) * 2 ^ shift < 2 ^ 31 ->
  or32 result (shl32 (and32 (ToInt32 (Some b)) 31) shift)
  = result + (b mod 32) * 2 ^ shift.
Proof.
  intros Hb Hs Hr Hfit. cbn [ToInt32]. unfold and32.
  assert (0 < 2 ^ shift) by (apply Z.pow_pos_nonneg; lia).
  pose proof (Z.mod_pos_bound b 32 ltac:(lia)) as Hm.
  rewrite !(wrap32_small b) by lia.
  rewrite (wrap32_small 31) by lia.
  rewrite land_31.
  assert (0 <= (b mod 32) * 2 ^ shift) by nia.
  rewrite shl32_small by lia.
  unfold or32. rewrite !wrap32_small by lia.
  rewrite <- (lor_shiftl_add result (b mod 32) shift) by lia.
  now rewrite Z.shiftl_mul_pow2 by lia.
Qed.

Lemma log2_bound (v : Z) (n : nat) :
  0 <= v -> Z.log2 v <= Z.of_nat n -> v < 2 ^ (Z.of_nat n + 1).
Proof.
  intros Hv Hlog. destruct (Z.eq_dec v 0) as [->|Hne].
  - apply Z.pow_pos_nonneg; lia.
  - apply Z.log2_lt_pow2; lia.
Qed.

(** The group loop reads back the chunks of a value: started on the first
    chunk with the low bits already in [result], it ends on the last chunk
    with the whole value. *)
Lemma readGroup_encodeChunks (n : nat) :
  forall v shift result pre post fuel,
    Z.log2 v <= Z.of_nat n ->
    0 <= v -> 0 <= shift < 32 -> 0 <= result < 2 ^ shift ->
    result + v * 2 ^ shift < 2 ^ 31 ->
    (List.length (encodeChunks n v) <= fuel)%nat ->
    readGroup fuel (pre ++ encodeChunks n v ++ post) (List.length pre) shift result
    = Some (result + v * 2 ^ shift, (List.length pre + List.length (encodeChunks n v))%nat).
Proof.
  induction n as [|n IH]; intros v shift result pre post fuel Hlog Hv Hshift Hres Hfit Hfuel.
  - (* a single chunk *)
    pose proof (log2_bound v 0 Hv Hlog) as Hv2. change (2 ^ (Z.of_nat 0 + 1)) with 2 in Hv2.
    cbn [encodeChunks] in *. destruct fuel as [|fuel]; [cbn in Hfuel; lia|].
    cbn [readGroup app]. rewrite charCodeAt_app. cbn [minus option_map geb].
    replace (v + 63 - 63) with v by lia.
    replace (32 <=? v) with false by (symmetry; apply Z.leb_gt; lia).
    rewrite accumulate_chunk; rewrite ?(Z.mod_small v 32) by lia; try lia.
    f_equal. f_equal. cbn [List.length]. lia.
  - cbn [encodeChunks] in *.
    destruct (Z.leb_spec 32 v) as [Hbig|Hsmall].
    + (* a continuation chunk, then the rest *)
      destruct fuel as [|fuel]; [cbn in Hfuel; lia|].
      cbn [readGroup app]. rewrite charCodeAt_app. cbn [minus option_map geb].
      rewrite continuation_chunk.
      replace (32 + v mod 32 + 63 - 63) with (32 + v mod 32) by lia.
      pose proof (Z.mod_pos_bound v 32 ltac:(lia)) as Hm.
      replace (32 <=? 32 + v mod 32) with true by (symmetry; apply Z.leb_le; lia).
      assert (Hp : 0 < 2 ^ shift) by (apply Z.pow_pos_nonneg; lia).
      assert (Hdiv : v = 32 * (v / 32) + v mod 32) by (apply Z.div_mod; lia).
      assert (Hq : 1 <= v / 32) by (apply Z.div_le_lower_bound; lia).
      assert (Hshift5 : shift + 5 < 32).
      { destruct (Z.lt_ge_cases (shift + 5) 32) as [|Hge]; [assumption|exfalso].
        assert (2 ^ 27 <= 2 ^ shift) by (apply Z.pow_le_mono_r; lia).
        nia. }
      assert (Hpow : 2 ^ (shift + 5) = 32 * 2 ^ shift)
        by (rewrite Z.pow_add_r by lia; change (2 ^ 5) with 32; ring).
      rewrite accumulate_chunk; try lia;
        replace ((32 + v mod 32) mod 32) with (v mod 32)
          by (rewrite <- (Z.mod_mod v 32) at 1 by lia;
              replace (32 + v mod 32) with (v mod 32 + 1 * 32) by lia;
              now rewrite Z.mod_add by lia); try nia.
      replace (pre ++ (32 + v mod 32 + 63) :: encodeChunks n (Z.shiftr v 5) ++ post)
        with ((pre ++ [32 + v mod 32 + 63]) ++ encodeChunks n (Z.shiftr v 5) ++ post)
        by (now rewrite <- app_assoc).
      replace (S (List.length pre)) with (List.length (pre ++ [32 + v mod 32 + 63]))
        by (rewrite length_app; cbn; lia).
      rewrite Z.shiftr_div_pow2 in * by lia. change (2 ^ 5) with 32 in *.
      rewrite IH.
      * f_equal. f_equal; [nia|]. rewrite length_app. cbn [List.length]. lia.
      * assert (Z.log2 (v / 32) = Z.log2 v - 5).
        { replace (v / 32) with (Z.shiftr v 5)
            by (rewrite Z.shiftr_div_pow2 by lia; reflexivity).
          rewrite Z.log2_shiftr by lia.
          assert (5 <= Z.log2 v) by (apply Z.log2_le_pow2; lia). lia. }
        lia.
      * lia.
      * lia.
      * nia.
      * nia.
      * cbn [List.length] in Hfuel. lia.
    + destruct fuel as [|fuel]; [cbn in Hfuel; lia|].
      cbn [readGroup app]. rewrite charCodeAt_app. cbn [minus option_map geb].
      replace (v + 63 - 63) with v by lia.
      replace (32 <=? v) with false by (symmetry; apply Z.leb_gt; lia).
      rewrite accumulate_chunk; rewrite ?(Z.mod_small v 32) by lia; try lia.
      f_equal. f_equal. cbn [List.length]. lia.
Qed.

(** *** Zig-zag *)

Lemma zigzag_value (delta : Z) :
  zigzag delta = if delta <? 0 then - 2 * delta - 1 else 2 * delta.
Proof.
  unfold zigzag. rewrite Z.shiftl_mul_pow2 by lia. change (2 ^ 1) with 2.
  destruct (delta <? 0); [unfold Z.lnot|]; lia.
Qed.

Lemma zigzag_range (delta : Z) :
  - 2 ^ 30 <= delta < 2 ^ 30 -> 0 <= zigzag delta < 2 ^ 31.
Proof.
  intros H. rewrite zigzag_value. destruct (Z.ltb_spec delta 0); lia.
Qed.

Lemma unzigzag_zigzag (delta : Z) :
  - 2 ^ 30 <= delta < 2 ^ 30 -> unzigzag (zigzag delta) = delta.
Proof.
  intros H. pose proof (zigzag_range delta H) as Hr.
  unfold unzigzag, and32, sar32, not32.
  rewrite (wrap32_small (zigzag delta)), (wrap32_small 1) by lia.
  change (1 mod 32) with 1.
  change 1 with (Z.ones 1) at 1. rewrite Z.land_ones by lia. change (2 ^ 1) with 2.
  rewrite Z.shiftr_div_pow2 by lia. change (2 ^ 1) with 2.
  rewrite zigzag_value in *.
  destruct (Z.ltb_spec delta 0) as [Hneg|Hpos].
  - replace (- 2 * delta - 1) with (1 + (- delta - 1) * 2) by lia.
    rewrite Z.mod_add, Z.div_add by lia. cbn.
    rewrite wrap32_small by lia. unfold Z.lnot. lia.
  - replace (2 * delta) with (0 + delta * 2) by lia.
    rewrite Z.mod_add, Z.div_add by lia. cbn. lia.
Qed.

Lemma encodeChunks_nonempty (n : nat) (v : Z) : (1 <= List.length (encodeChunks n v))%nat.
Proof. destruct n; cbn; [lia|]. destruct (32 <=? v); cbn; lia. Qed.

Lemma readGroup_encodeSigned (delta : Z) (pre post : JsString) (fuel : nat) :
  - 2 ^ 30 <= delta < 2 ^ 30 ->
  (List.length (encodeSigned delta) <= fuel)%nat ->
  readGroup fuel (pre ++ encodeSigned delta ++ post) (List.length pre) 0 0
  = Some (zigzag delta, List.length (pre ++ encodeSigned delta)).
Proof.
  intros Hd Hfuel. pose proof (zigzag_range delta Hd) as Hr.
  unfold encodeSigned in *. cbv zeta in *.
  pose proof (Z.log2_nonneg (zigzag delta)).
  rewrite readGroup_encodeChunks; change (2 ^ 0) with 1; try lia.
  rewrite length_app. f_equal. f_equal. lia.
Qed.

Lemma add_int_exact (x y : Z) : Z.abs (x + y) < 2 ^ 53 -> add_int x y = x + y.
Proof.
  intros H. unfold add_int, round_double.
  now replace (Z.abs (x + y) <? 2 ^ 53) with true by (symmetry; now apply Z.ltb_lt).
Qed.

(** *** The whole string *)

Lemma decodeLoop_encodeFrom (points : list (Z * Z)) :
  forall pre prevLat prevLng acc fuel,
    inRange (prevLat, prevLng) ->
    Forall inRange points ->
    (List.length (encodeFrom prevLat prevLng points) < fuel)%nat ->
    decodeLoop fuel (pre ++ encodeFrom prevLat prevLng points) (List.length pre)
               prevLat prevLng acc
    = Some (acc ++ map (fun p => toPoint (fst p) (snd p)) points).
Proof.
  induction points as [|[lat lng] rest IH];
    intros pre prevLat prevLng acc fuel Hprev Hpts Hfuel.
  - destruct fuel as [|fuel]; [cbn in Hfuel; lia|].
    cbn [encodeFrom decodeLoop map]. rewrite !app_nil_r.
    now rewrite Nat.ltb_irrefl.
  - inversion Hpts as [|p ps Hp Hrest]; subst.
    unfold inRange in Hprev, Hp. cbn [fst snd] in Hprev, Hp.
    destruct fuel as [|fuel]; [cbn in Hfuel; lia|].
    cbn [encodeFrom] in *.
    set (eLat := encodeSigned (lat - prevLat)) in *.
    set (eLng := encodeSigned (lng - prevLng)) in *.
    set (eRest := encodeFrom lat lng rest) in *.
    rewrite !length_app in Hfuel.
    pose proof (encodeChunks_nonempty (Z.to_nat (Z.log2 (zigzag (lat - prevLat))))
                                      (zigzag (lat - prevLat))) as HnLat.
    pose proof (encodeChunks_nonempty (Z.to_nat (Z.log2 (zigzag (lng - prevLng))))
                                      (zigzag (lng - prevLng))) as HnLng.
    fold (encodeSigned (lat - prevLat)) in HnLat. fold eLat in HnLat.
    fold (encodeSigned (lng - prevLng)) in HnLng. fold eLng in HnLng.
    cbn [decodeLoop].
    replace (List.length pre <? List.length (pre ++ eLat ++ eLng ++ eRest))%nat with true
      by (symmetry; apply Nat.ltb_lt; rewrite !length_app; lia).
    subst eLat. rewrite readGroup_encodeSigned; [|lia|lia].
    rewrite unzigzag_zigzag by lia.
    rewrite add_int_exact by lia.
    replace (prevLat + (lat - prevLat)) with lat by lia.
    set (eLat := encodeSigned (lat - prevLat)) in *.
    replace (pre ++ eLat ++ eLng ++ eRest) with ((pre ++ eLat) ++ eLng ++ eRest)
      by (now rewrite <- app_assoc).
    subst eLng. rewrite readGroup_encodeSigned; [|lia|lia].
    rewrite unzigzag_zigzag by lia.
    rewrite add_int_exact by lia.
    replace (prevLng + (lng - prevLng)) with lng by lia.
    set (eLng := encodeSigned (lng - prevLng)) in *.
    replace ((pre ++ eLat) ++ eLng ++ eRest) with (((pre ++ eLat) ++ eLng) ++ eRest)
      by (now rewrite <- !app_assoc).
    subst eRest. rewrite IH; [| split; cbn [fst snd]; lia | exact Hrest | lia].
    cbn [map fst snd]. now rewrite <- app_assoc.
Qed.

(** Decoding the groups of a sequence of fixed-point coordinates gives
    back every coordinate, divided by 1e5. *)
Lemma decodePolyline_encodeFrom (points : list (Z * Z)) :
  Forall inRange points ->
  decodePolyline (encodeFrom 0 0 points) = map (fun p => toPoint (fst p) (snd p)) points.
Proof.
  intros Hpts. unfold decodePolyline, decodePolylineFuel.
  rewrite (decodeLoop_encodeFrom points [] 0 0 [] _); try assumption.
  - reflexivity.
  - split; cbn; lia.
  - cbn [app]. lia.
Qed.

(** *** Streams that end in the middle of a group *)

(** Appending the closing chunk ['?'] (value 0) changes no group: where
    the original read runs past the end and gets [NaN], the extended one
    reads a chunk without bits and without continuation. *)
Lemma readGroup_closed (fuel : nat) (encoded : JsString) :
  forall index shift result,
    readGroup fuel (encoded ++ [63]) index shift result
    = readGroup fuel encoded index shift result.
Proof.
  induction fuel as [|fuel IH]; intros index shift result; [reflexivity|].
  cbn [readGroup]. rewrite IH.
  destruct (Nat.lt_trichotomy index (List.length encoded)) as [Hlt|[Heq|Hgt]].
  - unfold charCodeAt. now rewrite nth_error_app1 by assumption.
  - subst index. rewrite charCodeAt_app.
    rewrite (charCodeAt_past_end encoded (List.length encoded)) by lia. reflexivity.
  - rewrite (charCodeAt_past_end encoded index) by lia.
    rewrite (charCodeAt_past_end (encoded ++ [63]) index)
      by (rewrite length_app; cbn; lia).
    reflexivity.
Qed.

(** A group that ends inside the string ends on a chunk without the
    continuation bit. *)
Lemma readGroup_last_chunk (fuel : nat) (encoded : JsString) :
  forall index shift result result' index',
    readGroup fuel encoded index shift result = Some (result', index') ->
    (index' <= List.length encoded)%nat ->
    exists c, nth_error encoded (Nat.pred index') = Some c /\ geb (Some (c - 63)) 32 = false.
Proof.
  induction fuel as [|fuel IH]; intros index shift result result' index' H Hle; [discriminate|].
  cbn [readGroup] in H.
  destruct (geb (minus (charCodeAt encoded index) 63) 32) eqn:Hb.
  - now apply IH in H.
  - inversion H; subst. cbn [Nat.pred].
    unfold charCodeAt in Hb.
    destruct (nth_error encoded index) as [c|] eqn:Hc.
    + exists c. split; [reflexivity | exact Hb].
    + apply nth_error_None in Hc. lia.
Qed.

Lemma terminatesMidGroup_last (encoded : JsString) :
  terminatesMidGroup encoded = true ->
  exists c, nth_error encoded (Nat.pred (List.length encoded)) = Some c /\
            geb (Some (c - 63)) 32 = true /\ (1 <= List.length encoded)%nat.
Proof.
  unfold terminatesMidGroup. intros H.
  destruct (rev encoded) as [|c l] eqn:Hrev; [discriminate|].
  apply (f_equal (@rev Z)) in Hrev. rewrite rev_involutive in Hrev. cbn [rev] in Hrev.
  subst encoded. exists c. rewrite length_app. cbn [List.length].
  replace (Nat.pred (List.length (rev l) + 1)) with (List.length (rev l)) by lia.
  split; [|split; [exact H | lia]].
  rewrite nth_error_app2 by lia. now rewrite Nat.sub_diag.
Qed.

(** In such a stream no group ends exactly at the end of the string. *)
Lemma readGroup_not_at_end (fuel : nat) (encoded : JsString) :
  terminatesMidGroup encoded = true ->
  forall index shift result result' index',
    readGroup fuel encoded index shift result = Some (result', index') ->
    index' <> List.length encoded.
Proof.
  intros Hmid index shift result result' index' H Heq.
  destruct (terminatesMidGroup_last _ Hmid) as (c & Hc & Hcont & _).
  destruct (readGroup_last_chunk _ _ _ _ _ _ _ H ltac:(lia)) as (c' & Hc' & Hstop).
  rewrite Heq in Hc'. congruence.
Qed.

Lemma decodeLoop_closed (fuel : nat) (encoded : JsString) :
  terminatesMidGroup encoded = true ->
  forall index lat lng points,
    index <> List.length encoded ->
    decodeLoop fuel (encoded ++ [63]) index lat lng points
    = decodeLoop fuel encoded index lat lng points.
Proof.
  intros Hmid. induction fuel as [|fuel IH]; intros index lat lng points Hne; [reflexivity|].
  cbn [decodeLoop]. rewrite !readGroup_closed. rewrite length_app. cbn [List.length].
  destruct (Nat.ltb_spec index (List.length encoded)) as [Hlt|Hge].
  - replace (index <? List.length encoded + 1)%nat with true
      by (symmetry; apply Nat.ltb_lt; lia).
    destruct (readGroup (S fuel) encoded index 0 0) as [[r1 i1]|] eqn:H1; [|reflexivity].
    rewrite readGroup_closed.
    destruct (readGroup (S fuel) encoded i1 0 0) as [[r2 i2]|] eqn:H2; [|reflexivity].
    apply IH. eapply readGroup_not_at_end; eassumption.
  - now replace (index <? List.length encoded + 1)%nat with false
      by (symmetry; apply Nat.ltb_ge; lia).
Qed.

(** Every iteration of the outer loop pushes a point. *)
Lemma decodeLoop_pushes (fuel : nat) (encoded : JsString) :
  forall index lat lng points out,
    decodeLoop fuel encoded index lat lng points = Some out ->
    (List.length points <= List.length out)%nat /\
    ((index < List.length encoded)%nat -> (List.length points < List.length out)%nat).
Proof.
  induction fuel as [|fuel IH]; intros index lat lng points out H; [discriminate|].
  cbn [decodeLoop] in H.
  destruct (Nat.ltb_spec index (List.length encoded)) as [Hlt|Hge].
  - destruct (readGroup (S fuel) encoded index 0 0) as [[r1 i1]|]; [|discriminate].
    destruct (readGroup (S fuel) encoded i1 0 0) as [[r2 i2]|]; [|discriminate].
    apply IH in H. rewrite length_app in H. cbn [List.length] in H. lia.
  - inversion H; subst. lia.
Qed.

(** C4, as amended: on a stream that ends in the middle of a group the
    decoder does not fail; it returns a non-empty point sequence, the one it
    returns for the same stream closed by a chunk of value zero. *)
Theorem truncated_stream_decodes (encoded : JsString) :
  terminatesMidGroup encoded = true ->
  decodePolylineFuel (S (List.length encoded)) encoded = Some (decodePolyline encoded) /\
  decodePolyline encoded <> [] /\
  decodePolyline encoded = decodePolyline (encoded ++ [63]).
Proof.
  intros Hmid.
  destruct (terminatesMidGroup_last _ Hmid) as (_ & _ & _ & Hlen).
  pose proof (decodePolyline_fuel encoded (S (List.length encoded)) ltac:(lia)) as Hrun.
  split; [exact Hrun|]. split.
  - intros Hnil. rewrite Hnil in Hrun.
    apply decodeLoop_pushes in Hrun. cbn [List.length] in Hrun. lia.
  - pose proof (decodePolyline_fuel (encoded ++ [63]) (S (S (List.length encoded)))) as Hext.
    rewrite length_app in Hext. cbn [List.length] in Hext. specialize (Hext ltac:(lia)).
    unfold decodePolylineFuel in Hext.
    rewrite decodeLoop_closed in Hext by (assumption || lia).
    pose proof (decodePolyline_fuel encoded (S (S (List.length encoded))) ltac:(lia)) as Horig.
    unfold decodePolylineFuel in Horig. congruence.
Qed.

Lemma truncated_stream_decodes_witness :
  terminatesMidGroup (of_string "_p~iF~ps|U_") = true /\
  decodePolyline (of_string "_p~iF~ps|U_") <> [] /\
  decodePolyline (of_string "_p~iF~ps|U_") = decodePolyline (of_string "_p~iF~ps|U_" ++ [63]).
Proof.
  split; [reflexivity|].
  apply (truncated_stream_decodes (of_string "_p~iF~ps|U_")). reflexivity.
Defined.

(** C6: the reference polyline decodes to exactly the three reference
    points, in order. *)
Theorem decodePolyline_reference :
  decodePolyline (of_string "_p~iF~ps|U_ulLnnqC_mqNvxq`@")
  = [ {| lat := 38.5; lng := -120.2 |};
      {| lat := 40.7; lng := -120.95 |};
      {| lat := 43.252; lng := -126.453 |} ]%float.
Proof. vm_compute. reflexivity. Qed.

(** C4, as stated, fails: the one-character string ["_"] is a lone chunk
    with the continuation bit set, and the decoder returns the point
    (0, 0) for it. *)
Lemma decodePolyline_truncated_returns :
  terminatesMidGroup (of_string "_") = true /\
  decodePolylineFuel 2 (of_string "_") = Some [ {| lat := 0; lng := 0 |} ]%float /\
  decodePolyline (of_string "_") = [ {| lat := 0; lng := 0 |} ]%float.
Proof. vm_compute. repeat split; reflexivity. Qed.

(** C10: for every input string the decoder returns a list of points
    whenever it is given more iterations than the string has code units; a
    read past the end ends the group loop at once, and every group loop
    advances the index. *)
Theorem decodePolyline_terminates (encoded : JsString) :
  (exists points,
      decodePolyline encoded = points /\
      forall fuel, (List.length encoded < fuel)%nat ->
                   decodePolylineFuel fuel encoded = Some points) /\
  (forall fuel index shift result,
      (List.length encoded <= index)%nat ->
      readGroup (S fuel) encoded index shift result
      = Some (or32 result (shl32 (and32 (ToInt32 NaN) 31) shift), S index)) /\
  (forall fuel index shift result result' index',
      readGroup fuel encoded index shift result = Some (result', index') ->
      (index < index')%nat).
Proof.
  split; [|split].
  - exists (decodePolyline encoded). split; [reflexivity|].
    apply decodePolyline_fuel.
  - intros. now apply readGroup_past_end.
  - intros fuel index shift result result' index'. apply readGroup_index_increases.
Qed.

End PolylineFacts.

(* ------------------------------------------------------------------------- *)
(** ** Properties of the scoring engine *)

Module ScoringFacts.
Import JS Polyline Scoring Shapes Binary64 Scenarios.

Lemma mul_comm (x y : float) : PrimFloat.mul x y = PrimFloat.mul y x.
Proof.
  apply Prim2SF_inj. rewrite !mul_spec. unfold SF64mul, SFmul.
  destruct (Prim2SF x) as [sx|sx| |sx mx ex], (Prim2SF y) as [sy|sy| |sy my ey];
    try reflexivity; rewrite (xorb_comm sx sy); try reflexivity.
  now rewrite Pos.mul_comm, Z.add_comm.
Qed.

(** *** Comparisons and the clamp *)

Lemma SFcompare_refl (x : spec_float) : x <> S754_nan -> SFcompare x x = Some Eq.
Proof.
  destruct x as [s|s| |s m e]; cbn; intros H; try congruence.
  - now destruct s.
  - rewrite Z.compare_refl, Pos.compare_cont_refl. now destruct s.
Qed.

Lemma is_nan_false (x : float) : Prim2SF x <> S754_nan -> is_nan x = false.
Proof.
  intros H. unfold is_nan. rewrite eqb_spec. unfold SFeqb.
  now rewrite (SFcompare_refl _ H).
Qed.




(** *** The communityReports accumulator never exceeds its prior *)


(** The impact of a report with a severity and a type of the tables is a
    negative finite number; any other report has the impact [NaN]. *)
Lemma impact_negative (report : SafetyReport.t) :
  SafetyReport.inTables report = true ->
  exists m e, Prim2SF (SafetyReport.calculateSafetyImpact report) = S754_finite true m e.
Proof.
  destruct report as [[[]|] [[]|] st]; cbn; try discriminate; intros _; vm_compute; eauto.
Qed.

Lemma impact_outside (report : SafetyReport.t) :
  SafetyReport.inTables report = false ->
  SafetyReport.calculateSafetyImpact report = PrimFloat.nan.
Proof.
  destruct report as [[[]|] [[]|] st]; cbn; try discriminate; reflexivity.
Qed.

Lemma length_number_signed {A} (a : list A) : signed false (Prim2SF (length_number a)).
Proof.
  unfold length_number. rewrite of_uint63_spec.
  apply binary_normalize_nonneg_signed.
  apply Uint63.to_Z_bounded.
Qed.

Lemma mean_impact_nonpositive {A} (report : SafetyReport.t) (a : list A) :
  SafetyReport.inTables report = true ->
  nonpositive (Prim2SF (PrimFloat.div (SafetyReport.calculateSafetyImpact report)
                                      (length_number a))).
Proof.
  intros Hin. rewrite div_spec. destruct (impact_negative report Hin) as (m & e & ->).
  apply SFdiv_nonpositive, length_number_signed.
Qed.

Lemma add_at_most (acc q : float) :
  at_most 3 (Prim2SF acc) -> nonpositive (Prim2SF q) ->
  at_most 3 (Prim2SF (PrimFloat.add acc q)).
Proof. intros Ha Hq. rewrite add_spec. apply SFadd_at_most; [lia | exact Ha | exact Hq]. Qed.

Section WithStore.
Variable Db : Type.
Variable findNearby : Db -> float * float -> float -> list SafetyReport.t * Db.

Lemma addReports_untouched (nearbyReports : list SafetyReport.t) (f : FactorSet) :
  untouched (addReports nearbyReports f) = untouched f.
Proof.
  unfold addReports. generalize (length_number nearbyReports) as d. intros d.
  revert f. induction nearbyReports as [|report rest IH]; intros f; [reflexivity|].
  cbn [fold_left]. rewrite IH. reflexivity.
Qed.

Lemma scanSamples_untouched (samplePoints : list Point) :
  forall db f, untouched (fst (scanSamples Db findNearby db samplePoints f)) = untouched f.
Proof.
  induction samplePoints as [|point rest IH]; intros db f; [reflexivity|].
  cbn [scanSamples].
  destruct (findNearby db (lng point, lat point) 500%float) as [nearbyReports db'].
  rewrite IH.
  destruct (0 <? List.length nearbyReports)%nat; [apply addReports_untouched | reflexivity].
Qed.

Lemma scanSamples_no_reports (samplePoints : list Point) :
  (forall db point, In point samplePoints ->
                    fst (findNearby db (lng point, lat point) 500%float) = []) ->
  forall db f, fst (scanSamples Db findNearby db samplePoints f) = f.
Proof.
  induction samplePoints as [|point rest IH]; intros Hnone db f; [reflexivity|].
  cbn [scanSamples].
  pose proof (Hnone db point (or_introl eq_refl)) as Hq.
  destruct (findNearby db (lng point, lat point) 500%float) as [nearbyReports db'].
  cbn [fst] in Hq. subst nearbyReports. cbn.
  apply IH. intros db0 p Hp. apply Hnone. now right.
Qed.

(** The returned score, in terms of the accumulated factor set. *)
Lemma calculateRouteSafetyScore_unfold (db : Db) (polyline : JsString) :
  fst (calculateRouteSafetyScore Db findNearby db polyline)
  = {| overall := roundOneDecimal (weightedSum (clampAll (accumulated Db findNearby db polyline)));
       factors := clampAll (accumulated Db findNearby db polyline) |}.
Proof.
  unfold calculateRouteSafetyScore, accumulated, samplePointsOf.
  destruct (scanSamples Db findNearby db _ baseline) as [raw db'].
  reflexivity.
Qed.

Lemma accumulated_untouched (db : Db) (polyline : JsString) :
  untouched (accumulated Db findNearby db polyline) = untouched baseline.
Proof. apply scanSamples_untouched. Qed.

(** C1, as amended: when the query at every sample point of the route
    comes back empty, whatever the state of the store, the returned factor
    set is the baseline and the overall score is 6.8. *)
Theorem baseline_score_no_reports (db : Db) (polyline : JsString) :
  (forall db point, In point (samplePointsOf polyline) ->
                    fst (findNearby db (lng point, lat point) 500%float) = []) ->
  fst (calculateRouteSafetyScore Db findNearby db polyline)
  = {| overall := 6.8; factors := baseline |}.
Proof.
  intros Hnone. rewrite calculateRouteSafetyScore_unfold.
  unfold accumulated. rewrite (scanSamples_no_reports _ Hnone).
  vm_compute. reflexivity.
Qed.

(** C9: whatever the polyline and the answers of the store, the returned
    lighting, policePresence, crimeRate, pedestrianTraffic and roadCondition
    factors are 7, 6, 7, 6 and 7. *)
Theorem only_communityReports_modified (db : Db) (polyline : JsString) :
  let f := factors (fst (calculateRouteSafetyScore Db findNearby db polyline)) in
  lighting f = 7%float /\ policePresence f = 6%float /\ crimeRate f = 7%float /\
  pedestrianTraffic f = 6%float /\ roadCondition f = 7%float.
Proof.
  cbv zeta. rewrite calculateRouteSafetyScore_unfold. cbn [factors].
  pose proof (accumulated_untouched db polyline) as H.
  unfold untouched in H. injection H as H1 H2 H3 H4 H5.
  unfold clampAll. cbn [lighting policePresence crimeRate pedestrianTraffic roadCondition].
  rewrite H1, H2, H3, H4, H5.
  repeat split; vm_compute; reflexivity.
Qed.

Lemma addReports_at_most (nearbyReports : list SafetyReport.t) (f : FactorSet) :
  Forall (fun report => SafetyReport.inTables report = true) nearbyReports ->
  at_most 3 (Prim2SF (communityReports f)) ->
  at_most 3 (Prim2SF (communityReports (addReports nearbyReports f))).
Proof.
  unfold addReports.
  assert (Hq : forall report,
             SafetyReport.inTables report = true ->
             nonpositive (Prim2SF (PrimFloat.div (SafetyReport.calculateSafetyImpact report)
                                                 (length_number nearbyReports))))
    by (intros report; apply mean_impact_nonpositive).
  revert Hq. generalize (length_number nearbyReports) as d. intros d Hq Hin.
  revert f. induction Hin as [|report rest Hreport Hrest IH]; intros f Hf; [exact Hf|].
  cbn [fold_left]. apply IH. cbn [set communityReports].
  apply add_at_most; [exact Hf | now apply Hq].
Qed.

Lemma scanSamples_at_most (samplePoints : list Point) :
  answersInTables Db findNearby ->
  forall db f,
    at_most 3 (Prim2SF (communityReports f)) ->
    at_most 3 (Prim2SF (communityReports (fst (scanSamples Db findNearby db samplePoints f)))).
Proof.
  intros Hin.
  induction samplePoints as [|point rest IH]; intros db f Hf; [exact Hf|].
  cbn [scanSamples].
  pose proof (Hin db (lng point, lat point) 500%float) as Hreports.
  destruct (findNearby db (lng point, lat point) 500%float) as [nearbyReports db'].
  cbn [fst] in Hreports. apply IH.
  destruct (0 <? List.length nearbyReports)%nat; [now apply addReports_at_most | exact Hf].
Qed.

Lemma accumulated_at_most (db : Db) (polyline : JsString) :
  answersInTables Db findNearby ->
  at_most 3 (Prim2SF (communityReports (accumulated Db findNearby db polyline))).
Proof.
  intros Hin. apply scanSamples_at_most; [exact Hin|]. vm_compute. discriminate.
Qed.

(** Without any assumption on the reports, the accumulator is [NaN] or at
    most 8: a report outside the tables turns it into [NaN] for good. *)
Lemma mean_impact_cases {A} (report : SafetyReport.t) (a : list A) :
  Prim2SF (PrimFloat.div (SafetyReport.calculateSafetyImpact report) (length_number a))
  = S754_nan \/
  nonpositive (Prim2SF (PrimFloat.div (SafetyReport.calculateSafetyImpact report)
                                      (length_number a))).
Proof.
  destruct (SafetyReport.inTables report) eqn:Hin.
  - right. now apply mean_impact_nonpositive.
  - left. rewrite (impact_outside _ Hin), div_spec. reflexivity.
Qed.

Lemma add_cases (acc q : float) :
  Prim2SF acc = S754_nan \/ at_most 3 (Prim2SF acc) ->
  Prim2SF q = S754_nan \/ nonpositive (Prim2SF q) ->
  Prim2SF (PrimFloat.add acc q) = S754_nan \/ at_most 3 (Prim2SF (PrimFloat.add acc q)).
Proof.
  intros [Ha|Ha] [Hq|Hq].
  - left. rewrite add_spec, Ha. reflexivity.
  - left. rewrite add_spec, Ha. reflexivity.
  - left. rewrite add_spec, Hq. destruct (Prim2SF acc); reflexivity.
  - right. now apply add_at_most.
Qed.

Lemma addReports_cases (nearbyReports : list SafetyReport.t) (f : FactorSet) :
  Prim2SF (communityReports f) = S754_nan \/ at_most 3 (Prim2SF (communityReports f)) ->
  Prim2SF (communityReports (addReports nearbyReports f)) = S754_nan \/
  at_most 3 (Prim2SF (communityReports (addReports nearbyReports f))).
Proof.
  unfold addReports.
  pose proof (fun report => mean_impact_cases report nearbyReports) as Hq.
  revert Hq. generalize (length_number nearbyReports) as d. intros d Hq.
  revert f. induction nearbyReports as [|report rest IH]; intros f Hf; [exact Hf|].
  cbn [fold_left]. apply IH. cbn [set communityReports].
  apply add_cases; [exact Hf | apply Hq].
Qed.

Lemma scanSamples_cases (samplePoints : list Point) :
  forall db f,
    Prim2SF (communityReports f) = S754_nan \/ at_most 3 (Prim2SF (communityReports f)) ->
    Prim2SF (communityReports (fst (scanSamples Db findNearby db samplePoints f))) = S754_nan \/
    at_most 3 (Prim2SF (communityReports (fst (scanSamples Db findNearby db samplePoints f)))).
Proof.
  induction samplePoints as [|point rest IH]; intros db f Hf; [exact Hf|].
  cbn [scanSamples].
  destruct (findNearby db (lng point, lat point) 500%float) as [nearbyReports db'].
  apply IH.
  destruct (0 <? List.length nearbyReports)%nat; [now apply addReports_cases | exact Hf].
Qed.

Lemma accumulated_cases (db : Db) (polyline : JsString) :
  Prim2SF (communityReports (accumulated Db findNearby db polyline)) = S754_nan \/
  at_most 3 (Prim2SF (communityReports (accumulated Db findNearby db polyline))).
Proof. apply scanSamples_cases. right. vm_compute. discriminate. Qed.


End WithStore.

(** C1, as stated, fails: on the reference polyline and a store without
    reports the overall score is 6.8, not 6.85. *)
Lemma baseline_score_is_not_6_85 :
  let score := fst (calculateRouteSafetyScore unit emptyStore tt
                      (of_string "_p~iF~ps|U_ulLnnqC_mqNvxq`@")) in
  (forall db point, fst (emptyStore db (lng point, lat point) 500%float) = []) /\
  factors score = baseline /\
  overall score = 6.8%float /\
  overall score <> 6.85%float.
Proof.
  cbv zeta. split; [reflexivity|]. split; [vm_compute; reflexivity|].
  split; [vm_compute; reflexivity|].
  intros H. apply (f_equal Prim2SF) in H. vm_compute in H. discriminate H.
Qed.

Lemma baseline_score_no_reports_witness :
  (forall db point, In point (samplePointsOf (of_string "_p~iF~ps|U_ulLnnqC_mqNvxq`@")) ->
                    fst (emptyStore db (lng point, lat point) 500%float) = []) /\
  fst (calculateRouteSafetyScore unit emptyStore tt (of_string "_p~iF~ps|U_ulLnnqC_mqNvxq`@"))
  = {| overall := 6.8; factors := baseline |}.
Proof.
  split; [reflexivity|].
  apply (baseline_score_no_reports unit emptyStore tt). reflexivity.
Defined.

Lemma robberyStore_inTables : answersInTables unit robberyStore.
Proof. intros db coordinates maxDistance. repeat constructor. Qed.



End ScoringFacts.
(* ------------------------------------------------------------------------- *)
(** ** Properties of classification and ranking *)

Module RoutesFacts.
Import JS Polyline Scoring Routes.

(** *** [Math.min] over a spread list *)

Lemma Math_min_fold (values : list Z) :
  forall a, exists m,
    fold_left (fun m v => match m with
                          | None => Some v
                          | Some m => Some (if v <? m then v else m)
                          end) values (Some a) = Some m /\
    m <= a /\ (forall v, In v values -> m <= v) /\ (m = a \/ In m values).
Proof.
  induction values as [|v rest IH]; intros a; cbn [fold_left].
  - exists a. repeat split; [lia | intros v [] | now left].
  - destruct (IH (if v <? a then v else a)) as (m & Hm & Hle & Hall & Hin).
    exists m. split; [exact Hm|].
    destruct (Z.ltb_spec v a) as [Hlt|Hge].
    + repeat split; [lia | | ].
      * intros w [<- | Hw]; [lia | now apply Hall].
      * right. destruct Hin as [-> | Hin]; [now left | now right].
    + repeat split; [lia | | ].
      * intros w [<- | Hw]; [lia | now apply Hall].
      * destruct Hin as [-> | Hin]; [now left | right; now right].
Qed.

(** The minimum of a list is the value of any element that no element
    undercuts. *)
Lemma Math_min_spread_minimal (values : list Z) (d : Z) :
  In d values -> (forall v, In v values -> d <= v) ->
  Math_min_spread values = Some d.
Proof.
  intros Hin Hmin. unfold Math_min_spread.
  destruct values as [|a rest]; [destruct Hin|]. cbn [fold_left].
  destruct (Math_min_fold rest a) as (m & -> & Hle & Hall & Hm).
  f_equal.
  assert (Hmd : m <= d) by (destruct Hin as [<- | Hin]; [exact Hle | now apply Hall]).
  assert (Hdm : d <= m) by (apply Hmin; destruct Hm as [-> | Hm]; [now left | now right]).
  lia.
Qed.

(** *** Classification *)

Lemma determineRouteType_minimal (routes : list DirectionsRoute) (index : nat)
      (route : DirectionsRoute) (score : SafetyScore) :
  In route routes ->
  (forall other, In other routes -> duration_value route <= duration_value other) ->
  determineRouteType routes index route score = fastest.
Proof.
  intros Hin Hmin. unfold determineRouteType.
  rewrite (Math_min_spread_minimal (map duration_value routes) (duration_value route)).
  - now rewrite Z.eqb_refl.
  - now apply in_map.
  - intros v Hv. apply in_map_iff in Hv. destruct Hv as (other & <- & Hother). now apply Hmin.
Qed.

Section WithStore.
Variable Db : Type.
Variable findNearby : Db -> float * float -> float -> list SafetyReport.t * Db.

Lemma mapRoutes_Forall2 (routes todo : list DirectionsRoute) :
  forall db index,
    Forall2 (processedFrom routes) todo (fst (mapRoutes Db findNearby routes db index todo)).
Proof.
  induction todo as [|route rest IH]; intros db index; cbn [mapRoutes]; [constructor|].
  destruct (calculateRouteSafetyScore Db findNearby db (overview_polyline route)) as [score db1].
  specialize (IH db1 (S index)).
  destruct (mapRoutes Db findNearby routes db1 (S index) rest) as [processed db2].
  cbn [fst] in *. constructor; [|exact IH].
  now exists index, score.
Qed.

End WithStore.

(** *** The stable sort *)

Section SortFacts.
Context {A : Type} (compareFn : A -> A -> comparison).

Lemma insert_Permutation (x : A) (l : list A) : Permutation (insert compareFn x l) (x :: l).
Proof.
  induction l as [|y rest IH]; cbn [insert]; [reflexivity|].
  destruct (compareFn x y); try reflexivity.
  rewrite IH. apply perm_swap.
Qed.

Lemma sort_Permutation (l : list A) : Permutation (sort compareFn l) l.
Proof.
  induction l as [|x rest IH]; cbn [sort]; [reflexivity|].
  rewrite insert_Permutation. now constructor.
Qed.

(** Insertion only moves an element past elements with a different key,
    when the comparator is positive only between different keys. *)
Lemma insert_filter (key : A -> Z) (d : Z) (x : A) (l : list A) :
  (forall a b, compareFn a b = Gt -> key a <> key b) ->
  filter (fun a => key a =? d) (insert compareFn x l)
  = filter (fun a => key a =? d) (x :: l).
Proof.
  intros Hgt. induction l as [|y rest IH]; cbn [insert]; [reflexivity|].
  destruct (compareFn x y) eqn:Hc; try reflexivity.
  apply Hgt in Hc.
  cbn [filter] in *. rewrite IH.
  destruct (Z.eqb_spec (key x) d), (Z.eqb_spec (key y) d); try reflexivity.
  congruence.
Qed.

Lemma sort_filter (key : A -> Z) (d : Z) (l : list A) :
  (forall a b, compareFn a b = Gt -> key a <> key b) ->
  filter (fun a => key a =? d) (sort compareFn l) = filter (fun a => key a =? d) l.
Proof.
  intros Hgt. induction l as [|x rest IH]; cbn [sort]; [reflexivity|].
  rewrite (insert_filter key d x _ Hgt). cbn [filter]. now rewrite IH.
Qed.

Lemma insert_sorted (key : A -> Z) (x : A) (l : list A) :
  (forall a b, compareFn a b = Gt <-> key b < key a) ->
  StronglySorted (fun a b => key a <= key b) l ->
  StronglySorted (fun a b => key a <= key b) (insert compareFn x l).
Proof.
  intros Hgt Hs. induction Hs as [|y rest Hrest IH Hy]; cbn [insert].
  - repeat constructor.
  - destruct (compareFn x y) eqn:Hc.
    1, 2: assert (Hxy : key x <= key y)
      by (destruct (Z.le_gt_cases (key x) (key y)) as [|Hlt]; [assumption|];
          apply Hgt in Hlt; congruence).
    1, 2: constructor; [now constructor|];
      constructor; [exact Hxy|];
      eapply Forall_impl; [|exact Hy]; cbn; intros; lia.
    apply Hgt in Hc. constructor; [exact IH|].
    rewrite (insert_Permutation x rest). constructor; [lia | exact Hy].
Qed.

Lemma sort_sorted (key : A -> Z) (l : list A) :
  (forall a b, compareFn a b = Gt <-> key b < key a) ->
  StronglySorted (fun a b => key a <= key b) (sort compareFn l).
Proof.
  intros Hgt. induction l as [|x rest IH]; cbn [sort]; [constructor|].
  now apply insert_sorted.
Qed.

End SortFacts.

Lemma compareRoutes_fastest (a b : ProcessedRoute) :
  compareRoutes "fastest" a b = (duration_seconds a - duration_seconds b ?= 0).
Proof. reflexivity. Qed.

Lemma compareRoutes_fastest_Gt (a b : ProcessedRoute) :
  compareRoutes "fastest" a b = Gt <-> duration_seconds b < duration_seconds a.
Proof. rewrite compareRoutes_fastest, Z.compare_gt_iff. lia. Qed.

Section Handler.
Variable Db : Type.
Variable findNearby : Db -> float * float -> float -> list SafetyReport.t * Db.

(** C7: every alternative whose duration no sibling undercuts is labelled
    [fastest], both in the list produced by the [map] callback (which
    follows the order of the response and keeps each route's duration and
    polyline) and in the ranked list sent back; alternatives that tie for
    the minimum are therefore all labelled [fastest]. *)
Theorem minimal_duration_is_fastest (db : Db) (routes : list DirectionsRoute)
        (routePreference : string) :
  let processed := fst (mapRoutes Db findNearby routes db 0 routes) in
  let ranked := fst (calculate Db findNearby db routes routePreference) in
  Forall2 (fun route p =>
             duration_seconds p = duration_value route /\
             polyline p = overview_polyline route /\
             ((forall other, In other routes -> duration_value route <= duration_value other) ->
              routeType p = fastest))
          routes processed /\
  (forall p, In p ranked ->
             (forall other, In other routes -> duration_seconds p <= duration_value other) ->
             routeType p = fastest).
Proof.
  cbv zeta.
  assert (Hall : forall todo l,
             (forall r, In r todo -> In r routes) ->
             Forall2 (processedFrom routes) todo l ->
             Forall2 (fun route p =>
                        duration_seconds p = duration_value route /\
                        polyline p = overview_polyline route /\
                        ((forall other, In other routes ->
                                        duration_value route <= duration_value other) ->
                         routeType p = fastest)) todo l).
  { intros todo l Hsub H. induction H as [|route p todo l (index & score & ->) _ IH];
      constructor.
    - repeat split. intros Hmin. cbn [routeType processRoute].
      apply determineRouteType_minimal; [apply Hsub; now left | exact Hmin].
    - apply IH. intros r Hr. apply Hsub. now right. }
  pose proof (mapRoutes_Forall2 Db findNearby routes routes db 0) as HF.
  split; [apply Hall; [auto | exact HF]|].
  intros p Hp Hmin. unfold calculate in Hp.
  destruct (mapRoutes Db findNearby routes db 0 routes) as [processed db'].
  cbn [fst] in *.
  apply (Permutation_in _ (sort_Permutation _ processed)) in Hp.
  apply Hall in HF; [|auto].
  clear Hall. induction HF as [|route q todo l (Hd & _ & Hq) _ IH]; [destruct Hp|].
  destruct Hp as [<- | Hp]; [|now apply IH].
  apply Hq. intros other Hother. rewrite <- Hd. now apply Hmin.
Qed.

(** C8: under preference [fastest] the ranked list is the list produced
    by the [map] callback (one entry per route of the response, in the
    order of the response), rearranged in ascending order of duration, and
    the routes of any one duration keep their relative order. *)
Theorem fastest_ranking_sorted_stable (db : Db) (routes : list DirectionsRoute) :
  let processed := fst (mapRoutes Db findNearby routes db 0 routes) in
  let ranked := fst (calculate Db findNearby db routes "fastest") in
  map duration_seconds processed = map duration_value routes /\
  map polyline processed = map overview_polyline routes /\
  Permutation ranked processed /\
  StronglySorted (fun a b => duration_seconds a <= duration_seconds b) ranked /\
  (forall d, filter (fun p => duration_seconds p =? d) ranked
             = filter (fun p => duration_seconds p =? d) processed).
Proof.
  cbv zeta. unfold calculate.
  pose proof (mapRoutes_Forall2 Db findNearby routes routes db 0) as HF.
  destruct (mapRoutes Db findNearby routes db 0 routes) as [processed db'].
  cbn [fst] in *.
  split; [|split; [|split; [|split]]].
  - induction HF as [|route p todo l (index & score & ->) _ IH]; [reflexivity|].
    cbn [map]. now rewrite IH.
  - induction HF as [|route p todo l (index & score & ->) _ IH]; [reflexivity|].
    cbn [map]. now rewrite IH.
  - apply sort_Permutation.
  - apply sort_sorted. apply compareRoutes_fastest_Gt.
  - intros d. apply sort_filter. intros a b Hgt.
    apply compareRoutes_fastest_Gt in Hgt. lia.
Qed.

End Handler.

(** The ranking scenario: durations 600, 500, 500 come back as 500, 500,
    600, the two 500-second routes (polylines ["b"] and ["c"]) in their
    original order. *)
Example fastest_ranking_scenario :
  let route d s := {| distance_value := 1000; duration_value := d;
                      overview_polyline := of_string s |} in
  map (fun p => (duration_seconds p, polyline p))
      (fst (calculate unit emptyStore tt [route 600 "a"%string; route 500 "b"%string; route 500 "c"%string]
                      "fastest"))
  = [(500, of_string "b"); (500, of_string "c"); (600, of_string "a")].
Proof. vm_compute. reflexivity. Qed.

(** The tie scenario: two alternatives share the minimum duration and
    both are labelled [fastest]. *)
Example fastest_tie_scenario :
  let route d s := {| distance_value := 1000; duration_value := d;
                      overview_polyline := of_string s |} in
  map routeType
      (fst (mapRoutes unit emptyStore [route 500 "a"%string; route 500 "b"%string; route 600 "c"%string] tt 0
                      [route 500 "a"%string; route 500 "b"%string; route 600 "c"%string]))
  = [fastest; fastest; balanced].
Proof. vm_compute. reflexivity. Qed.

End RoutesFacts.
(* ------------------------------------------------------------------------- *)
(** ** Rounding between two binary64 numbers *)

Module ValueFacts.
Import Shapes Binary64 Values.

Lemma val_pos (m e : Z) : 0 < m -> -2200 <= e -> 0 < val m e.
Proof. intros. unfold val. apply Z.mul_pos_pos; [lia | apply Z.pow_pos_nonneg; lia]. Qed.

(** Moving a power of two between the mantissa and the exponent. *)
Lemma val_shift (m e d : Z) : 0 <= d -> -2200 <= e -> val m (e + d) = val (m * 2 ^ d) e.
Proof.
  intros Hd He. unfold val.
  replace (e + d + 2200) with (d + (e + 2200)) by lia.
  rewrite Z.pow_add_r by lia. ring.
Qed.

Lemma val_mul (m1 e1 m2 e2 : Z) :
  -1100 <= e1 -> -1100 <= e2 ->
  val (m1 * m2) (e1 + e2) * 2 ^ 2200 = val m1 e1 * val m2 e2.
Proof.
  intros H1 H2. unfold val.
  rewrite <- !Z.mul_assoc. f_equal.
  rewrite (Z.mul_comm (2 ^ (e1 + 2200))), <- !Z.mul_assoc. f_equal.
  rewrite <- !Z.pow_add_r by lia. f_equal. lia.
Qed.

Lemma val_lt_cancel (m1 m2 e : Z) : -2200 <= e -> val m1 e < val m2 e -> m1 < m2.
Proof.
  unfold val. intros He H.
  apply Z.mul_lt_mono_pos_r in H; [exact H | apply Z.pow_pos_nonneg; lia].
Qed.

Lemma val_le_cancel (m1 m2 e : Z) : -2200 <= e -> val m1 e <= val m2 e -> m1 <= m2.
Proof.
  unfold val. intros He H.
  apply Z.mul_le_mono_pos_r in H; [exact H | apply Z.pow_pos_nonneg; lia].
Qed.

Lemma val_le_mono (m1 m2 e : Z) : -2200 <= e -> m1 <= m2 -> val m1 e <= val m2 e.
Proof.
  unfold val. intros He H.
  apply Z.mul_le_mono_nonneg_r; [apply Z.pow_nonneg; lia | exact H].
Qed.

(** *** Canonical mantissas *)

Lemma digits_bounds (m : positive) :
  2 ^ (Z.pos (digits2_pos m) - 1) <= Z.pos m < 2 ^ Z.pos (digits2_pos m).
Proof.
  rewrite digits2_pos_size. split.
  - pose proof (Pos.size_le m) as H.
    assert (H2 : 2 ^ Z.pos (Pos.size m) <= 2 * Z.pos m).
    { change (2 * Z.pos m) with (Z.pos m~0). rewrite <- Pos2Z.inj_pow.
      apply Pos2Z.pos_le_pos. exact H. }
    replace (Z.pos (Pos.size m)) with (1 + (Z.pos (Pos.size m) - 1)) in H2 by lia.
    rewrite Z.pow_add_r in H2 by lia. change (2 ^ 1) with 2 in H2. lia.
  - pose proof (Pos.size_gt m) as H.
    rewrite <- Pos2Z.inj_pow. apply Pos2Z.pos_lt_pos. exact H.
Qed.

Lemma canonical_facts (m : positive) (e : Z) :
  canonical_mantissa prec emax m e = true ->
  -1074 <= e /\ Z.pos (digits2_pos m) <= 53 /\
  (-1074 < e -> Z.pos (digits2_pos m) = 53).
Proof.
  unfold canonical_mantissa. rewrite fexp_unfold. intros H. apply Z.eqb_eq in H. lia.
Qed.

Lemma valid_canonical (x : float) (s : bool) (m : positive) (e : Z) :
  Prim2SF x = S754_finite s m e -> canonical_mantissa prec emax m e = true.
Proof.
  intros H. pose proof (Prim2SF_valid x) as Hv. rewrite H in Hv.
  cbn [valid_binary] in Hv. unfold bounded in Hv. now apply andb_true_iff in Hv.
Qed.

(** Comparing two canonical positive numbers compares their values. *)
Lemma SFcompare_val (m : positive) (e : Z) (b : positive) (eb : Z) :
  canonical_mantissa prec emax m e = true ->
  canonical_mantissa prec emax b eb = true ->
  SFcompare (S754_finite false m e) (S754_finite false b eb)
  = Some (val (Z.pos m) e ?= val (Z.pos b) eb).
Proof.
  intros Hm Hb.
  destruct (canonical_facts _ _ Hm) as (He & Hdm & Hnm).
  destruct (canonical_facts _ _ Hb) as (Heb & Hdb & Hnb).
  pose proof (digits_bounds m) as Bm. pose proof (digits_bounds b) as Bb.
  cbn [SFcompare]. f_equal.
  destruct (Z.compare_spec e eb) as [Heq|Hlt|Hgt].
  - subst eb. rewrite Pos.compare_cont_spec. cbn [Pos.switch_Eq].
    unfold val. rewrite <- Zmult_compare_compat_r by (apply Z.lt_gt, Z.pow_pos_nonneg; lia).
    change (Z.pos m ?= Z.pos b) with (m ?= b)%positive.
    destruct (m ?= b)%positive; reflexivity.
  - symmetry. apply Z.compare_lt_iff.
    specialize (Hnb ltac:(lia)). rewrite Hnb in Bb.
    apply Z.lt_le_trans with (val (2 ^ 53) e).
    + unfold val. apply Z.mul_lt_mono_pos_r; [apply Z.pow_pos_nonneg; lia|].
      apply Z.lt_le_trans with (2 ^ Z.pos (digits2_pos m)); [lia|].
      apply Z.pow_le_mono_r; lia.
    + apply Z.le_trans with (val (2 ^ 52) eb).
      * replace eb with (e + (eb - e)) by lia. rewrite val_shift by lia.
        apply val_le_mono; [lia|].
        rewrite <- Z.pow_add_r by lia. apply Z.pow_le_mono_r; lia.
      * apply val_le_mono; lia.
  - symmetry. apply Z.compare_gt_iff.
    specialize (Hnm ltac:(lia)). rewrite Hnm in Bm.
    apply Z.lt_le_trans with (val (2 ^ 53) eb).
    + unfold val. apply Z.mul_lt_mono_pos_r; [apply Z.pow_pos_nonneg; lia|].
      apply Z.lt_le_trans with (2 ^ Z.pos (digits2_pos b)); [lia|].
      apply Z.pow_le_mono_r; lia.
    + apply Z.le_trans with (val (2 ^ 52) e).
      * replace e with (eb + (e - eb)) by lia. rewrite val_shift by lia.
        apply val_le_mono; [lia|].
        rewrite <- Z.pow_add_r by lia. apply Z.pow_le_mono_r; lia.
      * apply val_le_mono; lia.
Qed.


Lemma val_add (m1 m2 e : Z) : val (m1 + m2) e = val m1 e + val m2 e.
Proof. unfold val. ring. Qed.

Lemma val_pow (d e : Z) : 0 <= d -> -2200 <= e -> val (2 ^ d) e = 2 ^ (d + e + 2200).
Proof.
  intros Hd He. unfold val. rewrite <- Z.pow_add_r by lia. f_equal. lia.
Qed.

(** *** Rounding an exact value that lies below a binary64 number *)

Lemma shr_fexp_exact (m e : Z) (l : location) :
  0 <= m ->
  forall mrs e', shr_fexp prec emax m e l = (mrs, e') ->
  fexp prec emax (Zdigits2 m + e) <= e' /\ 0 <= shr_m mrs /\
  ((e' = e /\ mrs = shr_record_of_loc m l) \/
   (e < e' /\ e' = fexp prec emax (Zdigits2 m + e) /\ shr_m mrs = m / 2 ^ (e' - e))).
Proof.
  intros Hm mrs e'. unfold shr_fexp, shr.
  destruct (fexp prec emax (Zdigits2 m + e) - e) as [|p|p] eqn:Hn; intros H; inversion H; subst.
  - rewrite shr_record_of_loc_m. repeat split; auto; lia.
  - rewrite shr_iter_m by (rewrite shr_record_of_loc_m; assumption).
    rewrite shr_record_of_loc_m.
    replace (e + Z.pos p - e) with (Z.pos p) by lia.
    split; [lia|]. split; [apply Z.div_pos; lia|]. right. repeat split; lia.
  - rewrite shr_record_of_loc_m. repeat split; auto; lia.
Qed.

Lemma binary_round_aux_upto (mx ex : Z) (b : positive) (eb : Z) :
  0 < mx -> -2200 <= ex ->
  canonical_mantissa prec emax b eb = true -> eb <= 900 ->
  val mx ex < val (Z.pos b) eb ->
  nonneg_upto false b eb (binary_round_aux prec emax false mx ex loc_Exact).
Proof.
  intros Hm Hex Hb Heb Hv.
  destruct (canonical_facts _ _ Hb) as (Hebl & Hdb & _).
  pose proof (digits_bounds b) as Bb.
  set (D := Z.pos (digits2_pos b)) in *.
  assert (Hlt : val mx ex < 2 ^ (D + eb + 2200)).
  { rewrite <- val_pow by lia. apply Z.lt_le_trans with (1 := Hv). apply val_le_mono; lia. }
  assert (Hgap : 0 <= D + eb - ex /\ mx < 2 ^ (D + eb - ex)).
  { destruct (Z.ltb_spec (D + eb - ex) 0) as [Hneg|Hpos].
    - exfalso.
      assert (2 ^ (D + eb + 2200) <= 2 ^ (ex + 2200)) by (apply Z.pow_le_mono_r; lia).
      assert (1 * 2 ^ (ex + 2200) <= val mx ex)
        by (unfold val; apply Z.mul_le_mono_nonneg_r; [apply Z.pow_nonneg; lia | lia]).
      lia.
    - split; [assumption|].
      apply (val_lt_cancel _ _ ex); [lia|].
      rewrite val_pow by lia.
      replace (D + eb - ex + ex + 2200) with (D + eb + 2200) by lia. exact Hlt. }
  destruct Hgap as [Hgap Hmx].
  pose proof (Zdigits2_le mx _ (conj (Z.lt_le_incl _ _ Hm) Hmx)) as Hdig.
  unfold binary_round_aux.
  destruct (shr_fexp prec emax mx ex loc_Exact) as [mrs1 e1] eqn:E1.
  destruct (shr_fexp_exact _ _ _ (Z.lt_le_incl _ _ Hm) _ _ E1) as (Hf1 & Hm1 & Hc1).
  rewrite fexp_unfold in Hf1.
  pose proof (round_nearest_even_range (shr_m mrs1) (loc_of_shr_record mrs1)) as Hr.
  set (m2 := round_nearest_even (shr_m mrs1) (loc_of_shr_record mrs1)) in *.
  assert (H2 : val m2 e1 <= val (Z.pos b) eb /\ ex <= e1).
  { destruct Hc1 as [[He1 Hq] | (Hlt1 & He1 & Hq)].
    - subst e1 mrs1. split; [|lia].
      replace m2 with mx by reflexivity. lia.
    - rewrite fexp_unfold in He1. split; [|lia].
      assert (He1b : e1 <= eb) by lia.
      assert (Hmxb : mx < Z.pos b * 2 ^ (eb - ex)).
      { apply (val_lt_cancel _ _ ex); [lia|]. rewrite <- val_shift by lia.
        replace (ex + (eb - ex)) with eb by lia. exact Hv. }
      assert (Hq' : shr_m mrs1 < Z.pos b * 2 ^ (eb - e1)).
      { rewrite Hq. apply Z.div_lt_upper_bound; [apply Z.pow_pos_nonneg; lia|].
        replace (2 ^ (e1 - ex) * (Z.pos b * 2 ^ (eb - e1)))
          with (Z.pos b * 2 ^ (eb - ex)); [exact Hmxb|].
        replace (eb - ex) with ((e1 - ex) + (eb - e1)) by lia.
        rewrite Z.pow_add_r by lia. ring. }
      replace (val (Z.pos b) eb) with (val (Z.pos b * 2 ^ (eb - e1)) e1)
        by (rewrite <- val_shift by lia; f_equal; lia).
      apply val_le_mono; lia. }
  destruct H2 as [H2 Hle1].
  assert (Hr0 : 0 <= m2) by lia.
  destruct (shr_fexp prec emax m2 e1 loc_Exact) as [mrs2 e2] eqn:E2.
  destruct (shr_fexp_exact _ _ _ Hr0 _ _ E2) as (Hf2 & Hm2 & Hc2).
  assert (H3 : val (shr_m mrs2) e2 <= val (Z.pos b) eb /\ e1 <= e2).
  { destruct Hc2 as [[He2 Hq] | (Hlt2 & _ & Hq)].
    - subst e2 mrs2. rewrite shr_record_of_loc_m. split; [exact H2 | lia].
    - split; [|lia]. apply Z.le_trans with (2 := H2).
      replace (val (shr_m mrs2) e2) with (val (shr_m mrs2 * 2 ^ (e2 - e1)) e1)
        by (rewrite <- val_shift by lia; f_equal; lia).
      apply val_le_mono; [lia|]. rewrite Hq, Z.mul_comm.
      apply Z.mul_div_le. apply Z.pow_pos_nonneg; lia. }
  destruct H3 as [H3 Hle2].
  destruct (shr_m mrs2) as [|m|m]; [cbn; auto | | lia].
  assert (He2 : e2 < 53 + eb).
  { assert (Hp : 2 ^ (e2 + 2200) < 2 ^ (53 + eb + 2200)).
    { apply Z.le_lt_trans with (val (Z.pos m) e2).
      - unfold val. replace (2 ^ (e2 + 2200)) with (1 * 2 ^ (e2 + 2200)) at 1 by ring.
        apply Z.mul_le_mono_nonneg_r; [apply Z.pow_nonneg; lia | lia].
      - apply Z.le_lt_trans with (1 := H3).
        replace (53 + eb + 2200) with (53 + (eb + 2200)) by lia.
        rewrite Z.pow_add_r by lia. unfold val.
        apply Z.mul_lt_mono_pos_r; [apply Z.pow_pos_nonneg; lia|].
        apply Z.lt_le_trans with (2 ^ D); [lia | apply Z.pow_le_mono_r; lia]. }
    apply Z.pow_lt_mono_r_iff in Hp; lia. }
  replace (e2 <=? emax - prec) with true
    by (symmetry; apply Z.leb_le; change (emax - prec) with 971; lia).
  cbn [nonneg_upto]. split; [|exact H3].
  rewrite fexp_unfold in Hf2. lia.
Qed.

Lemma shl_align_fexp_exp (mx : positive) (ex : Z) :
  Z.min ex (-1074) <= snd (shl_align mx ex (fexp prec emax (Z.pos (digits2_pos mx) + ex))).
Proof.
  rewrite fexp_unfold. unfold shl_align.
  destruct (Z.max _ _ - ex) as [|d|d] eqn:Hd; cbn [snd]; lia.
Qed.

Lemma binary_round_upto (m : positive) (e : Z) (b : positive) (eb : Z) :
  -2200 <= e ->
  canonical_mantissa prec emax b eb = true -> eb <= 900 ->
  val (Z.pos m) e < val (Z.pos b) eb ->
  nonneg_upto false b eb (binary_round prec emax false m e).
Proof.
  intros He Hb Heb Hv. unfold binary_round.
  pose proof (shl_align_fexp_value m e) as Hal.
  pose proof (shl_align_fexp_exp m e) as Hex.
  destruct (shl_align m e _) as [mz ez]. destruct Hal as [Hle Hmz]. cbn [snd] in Hex.
  apply binary_round_aux_upto; try assumption; try lia.
  rewrite Hmz, <- val_shift by lia.
  replace (ez + (e - ez)) with e by lia. exact Hv.
Qed.

(** A product by a positive constant and a sum stay below a binary64
    number that the exact bound of the result does not reach. *)
Lemma SFmul_upto (z : bool) (x : spec_float) (bx : positive) (ebx : Z)
      (mw : positive) (ew : Z) (b : positive) (eb : Z) :
  nonneg_upto z bx ebx x ->
  -1074 <= ebx -> -1074 <= ew ->
  canonical_mantissa prec emax b eb = true -> eb <= 900 ->
  val (Z.pos bx * Z.pos mw) (ebx + ew) < val (Z.pos b) eb ->
  nonneg_upto z b eb (SFmul prec emax x (S754_finite false mw ew)).
Proof.
  intros Hx Hebx Hew Hb Heb Hv.
  destruct x as [s|s| |[|] m e]; cbn [nonneg_upto] in Hx; try contradiction.
  - cbn. rewrite xorb_false_r. exact Hx.
  - destruct Hx as [He Hx]. cbn [SFmul xorb].
    assert (H : nonneg_upto false b eb
                  (binary_round_aux prec emax false (Z.pos m * Z.pos mw) (e + ew) loc_Exact)).
    { apply binary_round_aux_upto; try assumption; try lia.
      apply Z.le_lt_trans with (2 := Hv).
      apply (Z.mul_le_mono_pos_r _ _ (2 ^ 2200)); [apply Z.pow_pos_nonneg; lia|].
      rewrite !val_mul by lia.
      apply Z.mul_le_mono_nonneg_r; [|exact Hx].
      apply Z.lt_le_incl, val_pos; lia. }
    destruct (binary_round_aux _ _ _ _ _ _) as [s'|s'| |[|] m' e']; cbn in H |- *;
      try contradiction; try exact H.
    right. destruct H as [H|H]; [discriminate | exact H].
Qed.

Lemma SFadd_upto (x y : spec_float) (bx : positive) (ebx : Z) (b_y : positive) (eby : Z)
      (b : positive) (eb : Z) :
  nonneg_upto false bx ebx x -> nonneg_upto true b_y eby y ->
  -1074 <= ebx -> -1074 <= eby ->
  canonical_mantissa prec emax b eb = true -> eb <= 900 ->
  val (Z.pos bx) ebx + val (Z.pos b_y) eby < val (Z.pos b) eb ->
  nonneg_upto false b eb (SFadd prec emax x y).
Proof.
  intros Hx Hy Hebx Heby Hb Heb Hv.
  pose proof (val_pos (Z.pos bx) ebx ltac:(lia) ltac:(lia)) as Px.
  pose proof (val_pos (Z.pos b_y) eby ltac:(lia) ltac:(lia)) as Py.
  destruct x as [sx|sx| |[|] mx ex]; cbn [nonneg_upto] in Hx; try contradiction;
    destruct y as [sy|sy| |[|] my ey]; cbn [nonneg_upto] in Hy; try contradiction.
  - destruct Hx as [Hx|Hx]; [discriminate|]. subst sx. destruct sy; cbn; auto.
  - cbn [SFadd nonneg_upto]. lia.
  - cbn [SFadd nonneg_upto]. lia.
  - destruct Hx as [Hex Hx], Hy as [Hey Hy]. cbn [SFadd].
    set (ez := Z.min ex ey).
    destruct (shl_align_value mx ex ez ltac:(lia)) as [HX _].
    destruct (shl_align_value my ey ez ltac:(lia)) as [HY _].
    set (X := fst (shl_align mx ex ez)) in *.
    set (Y := fst (shl_align my ey ez)) in *.
    cbn [cond_Zopp]. unfold binary_normalize.
    destruct (Z.pos X + Z.pos Y) as [|p|p] eqn:HM; [lia | | lia].
    apply binary_round_upto; try assumption; try lia.
    rewrite <- HM, val_add, HX, HY, <- !val_shift by lia.
    replace (ez + (ex - ez)) with ex by lia.
    replace (ez + (ey - ez)) with ey by lia.
    lia.
Qed.

(** *** Rounding an exact value that reaches a binary64 number *)

Lemma val_pos_inv (m e : Z) : -2200 <= e -> 0 < val m e -> 0 < m.
Proof.
  intros He H. apply (val_lt_cancel 0 m e He). exact H.
Qed.

Lemma shr_fexp_from (m e : Z) (l : location) (a : positive) (ea : Z) :
  0 < m -> -2200 <= e ->
  canonical_mantissa prec emax a ea = true ->
  val (Z.pos a) ea <= val m e ->
  forall mrs e', shr_fexp prec emax m e l = (mrs, e') ->
  val (Z.pos a) ea <= val (shr_m mrs) e' /\ e <= e' /\
  fexp prec emax (Zdigits2 m + e) <= e'.
Proof.
  intros Hm He Ha Hv mrs e' E.
  destruct (shr_fexp_exact _ _ _ (Z.lt_le_incl _ _ Hm) _ _ E) as (Hf & _ & Hc).
  destruct (canonical_facts _ _ Ha) as (Hea & Hda & _).
  pose proof (digits_bounds a) as Ba.
  destruct Hc as [[-> ->] | (Hlt & He' & Hq)].
  - rewrite shr_record_of_loc_m. repeat split; [exact Hv | lia | exact Hf].
  - split; [|split; [lia | exact Hf]].
    rewrite Hq.
    assert (Hpow : 0 < 2 ^ (e' - e)) by (apply Z.pow_pos_nonneg; lia).
    destruct (Z.leb_spec e' ea) as [Hge|Hlta].
    + replace (val (Z.pos a) ea) with (val (Z.pos a * 2 ^ (ea - e')) e')
        by (rewrite <- val_shift by lia; f_equal; lia).
      apply val_le_mono; [lia|].
      apply Z.div_le_lower_bound; [exact Hpow|].
      apply (val_le_cancel _ _ e); [lia|].
      replace (2 ^ (e' - e) * (Z.pos a * 2 ^ (ea - e')))
        with (Z.pos a * 2 ^ (ea - e))
        by (replace (ea - e) with ((e' - e) + (ea - e')) by lia;
            rewrite Z.pow_add_r by lia; ring).
      rewrite <- val_shift by lia. replace (e + (ea - e)) with ea by lia. exact Hv.
    + destruct m as [|p|p]; try lia.
      cbn [Zdigits2] in He'. rewrite fexp_unfold in He'.
      pose proof (digits_bounds p) as Bp.
      set (d := Z.pos (digits2_pos p)) in *.
      assert (He'd : e' = d + e - 53) by lia.
      apply Z.le_trans with (val (2 ^ 52) e').
      * apply Z.le_trans with (val (2 ^ 53) ea).
        -- apply val_le_mono; [lia|].
           apply Z.le_trans with (2 ^ Z.pos (digits2_pos a)); [lia|].
           apply Z.pow_le_mono_r; lia.
        -- rewrite !val_pow by lia. apply Z.pow_le_mono_r; lia.
      * apply val_le_mono; [lia|].
        replace 52 with ((d - 1) - (e' - e)) by lia.
        rewrite Z.pow_sub_r by lia.
        apply Z.div_le_mono; [exact Hpow | lia].
Qed.

Lemma binary_round_aux_from (mx ex : Z) (lx : location) (a : positive) (ea : Z) :
  0 < mx -> -2200 <= ex ->
  canonical_mantissa prec emax a ea = true ->
  val (Z.pos a) ea <= val mx ex ->
  pos_from a ea (binary_round_aux prec emax false mx ex lx).
Proof.
  intros Hm Hex Ha Hv.
  destruct (canonical_facts _ _ Ha) as (Hea & _).
  pose proof (val_pos (Z.pos a) ea ltac:(lia) ltac:(lia)) as Pa.
  unfold binary_round_aux.
  destruct (shr_fexp prec emax mx ex lx) as [mrs1 e1] eqn:E1.
  destruct (shr_fexp_from _ _ _ _ _ Hm Hex Ha Hv _ _ E1) as (H1 & Hle1 & Hf1).
  pose proof (round_nearest_even_range (shr_m mrs1) (loc_of_shr_record mrs1)) as Hr.
  set (m2 := round_nearest_even (shr_m mrs1) (loc_of_shr_record mrs1)) in *.
  assert (Hm1 : 0 < shr_m mrs1)
    by (apply (val_pos_inv _ e1); [lia | exact (Z.lt_le_trans _ _ _ Pa H1)]).
  assert (H2 : val (Z.pos a) ea <= val m2 e1).
  { apply Z.le_trans with (1 := H1). apply val_le_mono; lia. }
  destruct (shr_fexp prec emax m2 e1 loc_Exact) as [mrs2 e2] eqn:E2.
  assert (Hm2 : 0 < m2) by lia.
  assert (He1 : -2200 <= e1) by lia.
  destruct (shr_fexp_from _ _ _ _ _ Hm2 He1 Ha H2 _ _ E2) as (H3 & Hle2 & Hf2).
  assert (Hm3 : 0 < shr_m mrs2)
    by (apply (val_pos_inv _ e2); [lia | exact (Z.lt_le_trans _ _ _ Pa H3)]).
  destruct (shr_m mrs2) as [|m|m]; try lia.
  destruct (e2 <=? emax - prec); [|exact I].
  cbn [pos_from]. split; [|exact H3].
  rewrite fexp_unfold in Hf2. lia.
Qed.

Lemma binary_round_from (m : positive) (e : Z) (a : positive) (ea : Z) :
  -2200 <= e ->
  canonical_mantissa prec emax a ea = true ->
  val (Z.pos a) ea <= val (Z.pos m) e ->
  pos_from a ea (binary_round prec emax false m e).
Proof.
  intros He Ha Hv. unfold binary_round.
  pose proof (shl_align_fexp_value m e) as Hal.
  pose proof (shl_align_fexp_exp m e) as Hex.
  destruct (shl_align m e _) as [mz ez]. destruct Hal as [Hle Hmz]. cbn [snd] in Hex.
  apply binary_round_aux_from; try assumption; try lia.
  rewrite Hmz, <- val_shift by lia.
  replace (ez + (e - ez)) with e by lia. exact Hv.
Qed.

Lemma SFmul_from (x : spec_float) (ax : positive) (eax : Z)
      (mw : positive) (ew : Z) (a : positive) (ea : Z) :
  pos_from ax eax x ->
  -1074 <= eax -> -1074 <= ew ->
  canonical_mantissa prec emax a ea = true ->
  val (Z.pos a) ea <= val (Z.pos ax * Z.pos mw) (eax + ew) ->
  pos_from a ea (SFmul prec emax x (S754_finite false mw ew)).
Proof.
  intros Hx Heax Hew Ha Hv.
  destruct x as [s|[|]| |[|] m e]; cbn [pos_from] in Hx; try contradiction.
  - exact I.
  - destruct Hx as [He Hx]. cbn [SFmul xorb].
    apply (binary_round_aux_from (Z.pos m * Z.pos mw)); try assumption; try lia.
    apply Z.le_trans with (1 := Hv).
    apply (Z.mul_le_mono_pos_r _ _ (2 ^ 2200)); [apply Z.pow_pos_nonneg; lia|].
    rewrite !val_mul by lia.
    apply Z.mul_le_mono_nonneg_r; [|exact Hx].
    apply Z.lt_le_incl, val_pos; lia.
Qed.

(** Adding a number that is not negative does not take a sum below a
    binary64 number that its first operand reaches. *)
Lemma SFadd_from (x y : spec_float) (a : positive) (ea : Z) :
  pos_from a ea x -> nonneg y ->
  canonical_mantissa prec emax a ea = true ->
  pos_from a ea (SFadd prec emax x y).
Proof.
  intros Hx Hy Ha.
  destruct x as [sx|[|]| |[|] mx ex]; cbn [pos_from] in Hx; try contradiction;
    destruct y as [sy|sy| |[|] my ey]; cbn [nonneg] in Hy; try contradiction;
    try exact I; try exact Hx.
  destruct Hx as [Hex Hx]. cbn [SFadd].
  set (ez := Z.min ex ey).
  destruct (shl_align_value mx ex ez ltac:(lia)) as [HX _].
  destruct (shl_align_value my ey ez ltac:(lia)) as [HY _].
  set (X := fst (shl_align mx ex ez)) in *.
  set (Y := fst (shl_align my ey ez)) in *.
  cbn [cond_Zopp]. unfold binary_normalize.
  destruct (Z.pos X + Z.pos Y) as [|p|p] eqn:HM; [lia | | lia].
  apply binary_round_from; try assumption; try lia.
  rewrite <- HM, val_add, HX, HY, <- !val_shift by lia.
  replace (ez + (ex - ez)) with ex by lia.
  replace (ez + (ey - ez)) with ey by lia.
  pose proof (val_pos (Z.pos my) ey ltac:(lia) ltac:(lia)). lia.
Qed.

Lemma nonneg_upto_nonneg (z : bool) (b : positive) (eb : Z) (x : spec_float) :
  nonneg_upto z b eb x -> nonneg x.
Proof. destruct x as [s|s| |[|] m e]; cbn; tauto. Qed.

End ValueFacts.

(* ------------------------------------------------------------------------- *)
(** ** The range of the scores *)

Module ScoreBounds.
Import JS Polyline Scoring Shapes Binary64 ScoringFacts Values Bounds ValueFacts Scenarios Order.

Lemma nonneg_upto_weaken (z : bool) (b : positive) (eb : Z) (x : spec_float) :
  nonneg_upto false b eb x -> nonneg_upto z b eb x.
Proof.
  destruct x as [s|s| |[|] m e]; cbn; try tauto. intros [H|H]; [discriminate | now right].
Qed.

Lemma nonneg_upto_not_nan (z : bool) (b : positive) (eb : Z) (x : spec_float) :
  nonneg_upto z b eb x -> x <> S754_nan.
Proof. destruct x; cbn; congruence. Qed.

(** The clamp sends every number that is not positive to [+0] ... *)
Lemma clamp_nonpositive (x : float) : nonpositive (Prim2SF x) -> clamp x = 0%float.
Proof.
  intros Hx.
  assert (Hn : Prim2SF x <> S754_nan) by (destruct (Prim2SF x); cbn in Hx; congruence).
  assert (Hmin : Math_min 10 x = x).
  { unfold Math_min. rewrite (is_nan_false _ Hn).
    replace (is_nan 10) with false by reflexivity. cbn [orb].
    rewrite !ltb_spec. change (Prim2SF 10) with (S754_finite false 5629499534213120 (-49)).
    destruct (Prim2SF x) as [s|[|]| |[|] m e]; cbn in Hx; try contradiction; reflexivity. }
  unfold clamp. rewrite Hmin. unfold Math_max. rewrite (is_nan_false _ Hn).
  replace (is_nan 0) with false by reflexivity. cbn [orb].
  rewrite !ltb_spec. change (Prim2SF 0) with (S754_zero false).
  replace (is_neg_zero 0) with false by reflexivity.
  destruct (Prim2SF x) as [s|[|]| |[|] m e]; cbn in Hx; try contradiction;
    reflexivity.
Qed.

(** ... and leaves a positive number that is at most 8 alone. *)
Lemma clamp_positive (x : float) (m : positive) (e : Z) :
  Prim2SF x = S754_finite false m e ->
  val (Z.pos m) e <= val 8 0 ->
  clamp x = x.
Proof.
  intros Hx Hv.
  assert (Hn : Prim2SF x <> S754_nan) by congruence.
  pose proof (valid_canonical _ _ _ _ Hx) as Hc.
  assert (H10 : SFcompare (Prim2SF 10) (Prim2SF x) = Some Gt).
  { rewrite Hx. change (Prim2SF 10) with (S754_finite false 5629499534213120 (-49)).
    rewrite SFcompare_val by (reflexivity || assumption). f_equal.
    apply Z.compare_gt_iff. apply Z.le_lt_trans with (1 := Hv). reflexivity. }
  assert (Hmin : Math_min 10 x = x).
  { unfold Math_min. rewrite (is_nan_false _ Hn).
    replace (is_nan 10) with false by reflexivity. cbn [orb].
    rewrite !ltb_spec. unfold SFltb.
    rewrite (SFcompare_antisym (Prim2SF 10) (Prim2SF x)), H10. reflexivity. }
  unfold clamp. rewrite Hmin. unfold Math_max. rewrite (is_nan_false _ Hn).
  replace (is_nan 0) with false by reflexivity. cbn [orb].
  rewrite !ltb_spec, Hx. reflexivity.
Qed.

Lemma at_most_val (m : positive) (e : Z) :
  -1074 <= e -> Z.pos m <= 2 ^ (3 - e) -> val (Z.pos m) e <= val 8 0.
Proof.
  intros He Hm.
  assert (0 <= 3 - e).
  { destruct (Z.ltb_spec (3 - e) 0) as [Hneg|]; [|assumption].
    rewrite (Z.pow_neg_r 2 _ Hneg) in Hm. lia. }
  apply Z.le_trans with (val (2 ^ (3 - e)) e); [apply val_le_mono; lia|].
  rewrite val_pow by lia. replace (3 - e + e + 2200) with 2203 by lia. reflexivity.
Qed.

(** The clamp of the accumulated communityReports: [+0] or a positive
    number that is at most 8. *)
Lemma clamp_at_most (x : float) :
  at_most 3 (Prim2SF x) ->
  nonneg_upto false 4503599627370496 (-49) (Prim2SF (clamp x)).
Proof.
  intros Hx.
  destruct (Prim2SF x) as [s|[|]| |[|] m e] eqn:E; cbn [at_most] in Hx; try contradiction.
  1-3: rewrite clamp_nonpositive by (rewrite E; exact I); cbn; auto.
  pose proof (valid_canonical _ _ _ _ E) as Hc.
  destruct (canonical_facts _ _ Hc) as (He & _).
  pose proof (at_most_val m e He Hx) as Hv.
  rewrite (clamp_positive x m e E Hv), E. cbn [nonneg_upto].
  split; [exact He|]. apply Z.le_trans with (1 := Hv). reflexivity.
Qed.


Lemma upto_weaken (z : bool) (B x : float) : upto false B x -> upto z B x.
Proof.
  unfold upto. destruct (Prim2SF B) as [| | |[|] b eb]; try tauto.
  apply nonneg_upto_weaken.
Qed.

Lemma upto_self (z : bool) (B : float) : positive_finite B = true -> upto z B B.
Proof.
  unfold upto, positive_finite.
  destruct (Prim2SF B) as [| | |[|] b eb] eqn:H; try discriminate. intros _.
  cbn [nonneg_upto].
  destruct (canonical_facts _ _ (valid_canonical _ _ _ _ H)) as (He & _). lia.
Qed.

Lemma mul_upto (z : bool) (x w Bx B : float) :
  upto z Bx x -> mul_check Bx w B = true -> upto z B (x * w).
Proof.
  unfold upto, mul_check.
  destruct (Prim2SF Bx) as [| | |[|] bx ebx] eqn:EBx; try (intros []).
  destruct (Prim2SF w) as [| | |[|] mw ew] eqn:Ew; try discriminate.
  destruct (Prim2SF B) as [| | |[|] b eb] eqn:EB; try discriminate.
  intros Hx Hc. apply andb_true_iff in Hc. destruct Hc as [H1 H2].
  apply Z.leb_le in H1. apply Z.ltb_lt in H2.
  destruct (canonical_facts _ _ (valid_canonical _ _ _ _ EBx)) as (Hebx & _).
  destruct (canonical_facts _ _ (valid_canonical _ _ _ _ Ew)) as (Hew & _).
  rewrite mul_spec, Ew.
  apply (SFmul_upto z _ bx ebx); try assumption.
  exact (valid_canonical _ _ _ _ EB).
Qed.

Lemma add_upto (z : bool) (x y Bx B_y B : float) :
  upto false Bx x -> upto z B_y y -> add_check Bx B_y B = true -> upto false B (x + y).
Proof.
  unfold upto, add_check.
  destruct (Prim2SF Bx) as [| | |[|] bx ebx] eqn:EBx; try (intros []).
  destruct (Prim2SF B_y) as [| | |[|] b_y eby] eqn:EBy; try (intros _ []).
  destruct (Prim2SF B) as [| | |[|] b eb] eqn:EB; try discriminate.
  intros Hx Hy Hc. apply andb_true_iff in Hc. destruct Hc as [H1 H2].
  apply Z.leb_le in H1. apply Z.ltb_lt in H2.
  destruct (canonical_facts _ _ (valid_canonical _ _ _ _ EBx)) as (Hebx & _).
  destruct (canonical_facts _ _ (valid_canonical _ _ _ _ EBy)) as (Heby & _).
  rewrite add_spec.
  apply (SFadd_upto _ _ bx ebx b_y eby); try assumption.
  - destruct z; [exact Hy | now apply nonneg_upto_weaken].
  - exact (valid_canonical _ _ _ _ EB).
Qed.

(** [Math.round] of a number between 0 and [B < N + 1/2]: the number is
    [+0], or it has a fraction and rounds to [roundIndex], one of the
    integers [0 .. N]. *)
Lemma Math_round_cases (u B : float) (N : Z) :
  upto false B u -> round_check B N = true ->
  (Prim2SF u = S754_zero false /\ Math_round u = Z2float 0) \/
  (exists m e, Prim2SF u = S754_finite false m e /\ e < 0 /\
               0 <= roundIndex m e <= N /\ Math_round u = Z2float (roundIndex m e)).
Proof.
  unfold upto, round_check.
  destruct (Prim2SF B) as [| | |[|] b eb] eqn:EB; try (intros []).
  intros Hu Hc. apply andb_true_iff in Hc. destruct Hc as [H1 H2].
  apply Z.ltb_lt in H1. apply Z.ltb_lt in H2.
  assert (HN : 0 <= N).
  { destruct (Z.ltb_spec N 0) as [Hneg|]; [|assumption]. exfalso.
    assert (0 < val (Z.pos b) eb).
    { apply val_pos; [lia|].
      destruct (canonical_facts _ _ (valid_canonical _ _ _ _ EB)); lia. }
    assert (val (2 * N + 1) 0 <= val 0 0) by (apply val_le_mono; lia).
    change (val 0 0) with 0 in *. lia. }
  unfold Math_round.
  destruct (Prim2SF u) as [s|s| |[|] m e] eqn:Eu; cbn [nonneg_upto] in Hu; try contradiction.
  - left. destruct Hu as [Hu|Hu]; [discriminate|]. subst s.
    split; [reflexivity|]. apply Prim2SF_inj. rewrite Eu. reflexivity.
  - right. exists m, e. split; [reflexivity|].
    destruct Hu as [He Hv].
    pose proof (valid_canonical _ _ _ _ Eu) as Hcan.
    destruct (canonical_facts _ _ Hcan) as (_ & _ & Hnorm).
    pose proof (digits_bounds m) as Bm.
    assert (Hlt : 2 * val (Z.pos m) e < val (2 * N + 1) 0) by lia.
    assert (Hneg : e < 0).
    { destruct (Z.ltb_spec e 0) as [|Hpos]; [assumption|exfalso].
      rewrite Hnorm in Bm by lia.
      assert (val (2 ^ 52) 0 <= val (Z.pos m) e).
      { apply Z.le_trans with (val (Z.pos m) 0); [apply val_le_mono; lia|].
        unfold val. apply Z.mul_le_mono_nonneg_l; [lia|].
        apply Z.pow_le_mono_r; lia. }
      assert (val (2 * N + 1) 0 <= val (2 ^ 52) 0).
      { apply val_le_mono; [lia|]. change (2 ^ 52) with (2 * 2 ^ 51). lia. }
      assert (0 < val (2 ^ 52) 0) by reflexivity.
      lia. }
    split; [exact Hneg|].
    replace (0 <=? e) with false by (symmetry; apply Z.leb_gt; exact Hneg).
    cbn [cond_Zopp]. fold (roundIndex m e).
    assert (Hn : 0 <= roundIndex m e <= N).
    { unfold roundIndex.
      assert (Hp : 0 < 2 ^ (- e)) by (apply Z.pow_pos_nonneg; lia).
      assert (Hp1 : 2 ^ (1 - e) = 2 * 2 ^ (- e)).
      { replace (1 - e) with (1 + - e) by lia. rewrite Z.pow_add_r by lia. reflexivity. }
      split; [apply Z.div_pos; lia|].
      apply Z.lt_succ_r. apply Z.div_lt_upper_bound; [lia|].
      assert (Hm : 2 * Z.pos m < (2 * N + 1) * 2 ^ (- e)).
      { apply (val_lt_cancel _ _ e); [lia|].
        rewrite <- val_shift by lia. replace (e + - e) with 0 by lia.
        unfold val in Hlt |- *. lia. }
      rewrite Hp1. lia. }
    split; [exact Hn|].
    destruct (Z.eqb_spec (roundIndex m e) 0) as [->|]; reflexivity.
Qed.

Lemma Math_round_upto (u B : float) (N : Z) :
  upto false B u -> round_check B N = true ->
  exists n, 0 <= n <= N /\ Math_round u = Z2float n.
Proof.
  intros Hu Hc.
  destruct (Math_round_cases u B N Hu Hc) as [[_ H] | (m & e & _ & _ & Hn & H)].
  - assert (0 <= N).
    { revert Hu Hc. unfold upto, round_check.
      destruct (Prim2SF B) as [| | |[|] b eb] eqn:EB; try (intros []).
      intros _ Hc. apply andb_true_iff in Hc. destruct Hc as [H1 _].
      apply Z.ltb_lt in H1.
      destruct (Z.ltb_spec N 0) as [Hneg|]; [|assumption]. exfalso.
      assert (0 < val (Z.pos b) eb).
      { apply val_pos; [lia|].
        destruct (canonical_facts _ _ (valid_canonical _ _ _ _ EB)); lia. }
      assert (val (2 * N + 1) 0 <= val 0 0) by (apply val_le_mono; lia).
      change (val 0 0) with 0 in *. lia. }
    exists 0. split; [lia | exact H].
  - exists (roundIndex m e). split; [exact Hn | exact H].
Qed.

Lemma upTo_forallb (N : nat) (P : Z -> bool) :
  forallb P (upTo N) = true ->
  forall n, 0 <= n <= Z.of_nat N -> P n = true.
Proof.
  intros H n Hn. rewrite forallb_forall in H. apply H.
  unfold upTo. apply in_map_iff. exists (Z.to_nat n). split; [lia|].
  apply in_seq. lia.
Qed.

(** *** The score of a route *)

Section WithStore.
Variable Db : Type.
Variable findNearby : Db -> float * float -> float -> list SafetyReport.t * Db.

Lemma communityReports_cases (db : Db) (polyline : JsString) :
  communityReports (clampAll (accumulated Db findNearby db polyline)) = PrimFloat.nan \/
  upto false 8 (communityReports (clampAll (accumulated Db findNearby db polyline))).
Proof.
  cbn [clampAll communityReports].
  destruct (accumulated_cases Db findNearby db polyline) as [H|H].
  - left. apply (f_equal SF2Prim) in H. rewrite SF2Prim_Prim2SF in H. rewrite H. reflexivity.
  - right. unfold upto. change (Prim2SF 8) with (S754_finite false 4503599627370496 (-49)).
    now apply clamp_at_most.
Qed.

Lemma communityReports_upto (db : Db) (polyline : JsString) :
  answersInTables Db findNearby ->
  upto false 8 (communityReports (clampAll (accumulated Db findNearby db polyline))).
Proof.
  intros Hin.
  unfold upto. change (Prim2SF 8) with (S754_finite false 4503599627370496 (-49)).
  cbn [clampAll communityReports]. now apply clamp_at_most, accumulated_at_most.
Qed.

End WithStore.

Lemma from_self (A : float) : positive_finite A = true -> from A A.
Proof.
  unfold from, positive_finite.
  destruct (Prim2SF A) as [| | |[|] a ea] eqn:H; try discriminate. intros _.
  cbn [pos_from].
  destruct (canonical_facts _ _ (valid_canonical _ _ _ _ H)) as (He & _). lia.
Qed.

Lemma mul_from (x w Ax A : float) :
  from Ax x -> mul_from_check Ax w A = true -> from A (x * w).
Proof.
  unfold from, mul_from_check.
  destruct (Prim2SF Ax) as [| | |[|] ax eax] eqn:EAx; try (intros []).
  destruct (Prim2SF w) as [| | |[|] mw ew] eqn:Ew; try discriminate.
  destruct (Prim2SF A) as [| | |[|] a ea] eqn:EA; try discriminate.
  intros Hx Hc. apply Z.leb_le in Hc.
  destruct (canonical_facts _ _ (valid_canonical _ _ _ _ EAx)) as (Heax & _).
  destruct (canonical_facts _ _ (valid_canonical _ _ _ _ Ew)) as (Hew & _).
  rewrite mul_spec, Ew.
  apply (SFmul_from _ ax eax); try assumption.
  exact (valid_canonical _ _ _ _ EA).
Qed.

Lemma add_from (z : bool) (x y A B : float) :
  from A x -> upto z B y -> from A (x + y).
Proof.
  unfold from, upto.
  destruct (Prim2SF A) as [| | |[|] a ea] eqn:EA; try (intros []).
  destruct (Prim2SF B) as [| | |[|] b eb] eqn:EB; try (intros _ []).
  intros Hx Hy. rewrite add_spec.
  apply SFadd_from; [exact Hx | exact (nonneg_upto_nonneg _ _ _ _ Hy)|].
  exact (valid_canonical _ _ _ _ EA).
Qed.

(** The integer that [Math.round] gives is the nearest one. *)
Lemma roundIndex_nearest (m : positive) (e : Z) :
  -2200 <= e < 0 ->
  val (2 * roundIndex m e - 1) 0 <= 2 * val (Z.pos m) e < val (2 * roundIndex m e + 1) 0.
Proof.
  intros He. unfold roundIndex.
  set (p := 2 ^ (- e)).
  assert (Hp : 0 < p) by (apply Z.pow_pos_nonneg; lia).
  assert (Hp1 : 2 ^ (1 - e) = 2 * p).
  { unfold p. replace (1 - e) with (1 + - e) by lia. rewrite Z.pow_add_r by lia. reflexivity. }
  rewrite Hp1.
  pose proof (Z.div_mod (2 * Z.pos m + p) (2 * p) ltac:(lia)) as Hdm.
  pose proof (Z.mod_pos_bound (2 * Z.pos m + p) (2 * p) ltac:(lia)) as Hr.
  set (n := (2 * Z.pos m + p) / (2 * p)) in *.
  set (r := (2 * Z.pos m + p) mod (2 * p)) in *.
  assert (Hlo : (2 * n - 1) * p <= 2 * Z.pos m) by nia.
  assert (Hhi : 2 * Z.pos m < (2 * n + 1) * p) by nia.
  set (q := 2 ^ (e + 2200)).
  assert (Hq : 0 < q) by (apply Z.pow_pos_nonneg; lia).
  assert (Hpq : 2 ^ (0 + 2200) = p * q).
  { unfold p, q. rewrite <- Z.pow_add_r by lia. f_equal. lia. }
  unfold val. fold q. rewrite Hpq.
  split.
  - replace ((2 * n - 1) * (p * q)) with ((2 * n - 1) * p * q) by ring.
    replace (2 * (Z.pos m * q)) with (2 * Z.pos m * q) by ring.
    apply Z.mul_le_mono_nonneg_r; lia.
  - replace ((2 * n + 1) * (p * q)) with ((2 * n + 1) * p * q) by ring.
    replace (2 * (Z.pos m * q)) with (2 * Z.pos m * q) by ring.
    apply Z.mul_lt_mono_pos_r; lia.
Qed.

(** [Math.round] of a number between [A >= N0 - 1/2] and [B < N + 1/2] is
    the nearest integer, one of [N0 .. N]. *)
Lemma Math_round_between (u A B : float) (N0 N : Z) :
  from A u -> upto false B u ->
  round_from_check A N0 = true -> round_check B N = true ->
  exists n, N0 <= n <= N /\ Math_round u = Z2float n /\ nearestInteger n u.
Proof.
  intros Hfrom Hupto HcA HcB.
  destruct (Math_round_cases u B N Hupto HcB) as [[Hz _] | (m & e & Eu & Hneg & Hn & H)].
  - exfalso. revert Hfrom. unfold from. rewrite Hz.
    destruct (Prim2SF A) as [s|s| |s a ea]; try (intros []).
    destruct s; intros [].
  - exists (roundIndex m e). split; [|split; [exact H|]].
    + split; [|lia].
      revert Hfrom HcA. unfold from, round_from_check. rewrite Eu.
      destruct (Prim2SF A) as [| | |[|] a ea] eqn:EA; try (intros []; fail).
      cbn [pos_from]. intros [He Hv] HcA. apply Z.leb_le in HcA.
      assert (Hp : 0 < 2 ^ (- e)) by (apply Z.pow_pos_nonneg; lia).
      assert (Hp1 : 2 ^ (1 - e) = 2 * 2 ^ (- e)).
      { replace (1 - e) with (1 + - e) by lia. rewrite Z.pow_add_r by lia. reflexivity. }
      unfold roundIndex. apply Z.div_le_lower_bound; [lia|].
      assert (Hm : (2 * N0 - 1) * 2 ^ (- e) <= 2 * Z.pos m).
      { apply (val_le_cancel _ _ e); [lia|].
        rewrite <- val_shift by lia. replace (e + - e) with 0 by lia.
        unfold val in Hv, HcA |- *. lia. }
      rewrite Hp1. lia.
    + unfold nearestInteger. rewrite Eu. cbn [ord cond_Zopp].
      apply roundIndex_nearest.
      destruct (canonical_facts _ _ (valid_canonical _ _ _ _ Eu)) as (He & _). lia.
Qed.

(** *** The clamp *)

Lemma leb_not_ltb (x y : float) : PrimFloat.leb x y = true -> PrimFloat.ltb y x = false.
Proof.
  rewrite ltb_spec, leb_spec. unfold SFltb, SFleb.
  rewrite (SFcompare_antisym (Prim2SF x) (Prim2SF y)).
  destruct (SFcompare (Prim2SF x) (Prim2SF y)) as [[]|]; cbn; congruence.
Qed.

Lemma leb_not_nan (x y : float) :
  PrimFloat.leb x y = true -> Prim2SF x <> S754_nan /\ Prim2SF y <> S754_nan.
Proof.
  rewrite leb_spec. unfold SFleb.
  destruct (Prim2SF x), (Prim2SF y); cbn; try discriminate; split; congruence.
Qed.

Lemma ltb_0_nonpositive (x : float) : PrimFloat.ltb x 0 = true -> nonpositive (Prim2SF x).
Proof.
  rewrite ltb_spec. unfold SFltb. change (Prim2SF 0) with (S754_zero false).
  destruct (Prim2SF x) as [s|[|]| |[|] m e]; cbn; try discriminate; auto.
Qed.

Lemma is_nan_true (x : float) : is_nan x = true -> x = PrimFloat.nan.
Proof.
  unfold is_nan. rewrite eqb_spec. unfold SFeqb. intros H.
  apply Prim2SF_inj. change (Prim2SF nan) with S754_nan.
  destruct (Prim2SF x) as [s|s| |s m e] eqn:E; try reflexivity; exfalso;
    rewrite SFcompare_refl in H by discriminate; discriminate.
Qed.

(** [Math.max(0, Math.min(10, a))] brings [a] into the interval. *)
Lemma clamp_spec (a : float) : clampedFrom a (clamp a).
Proof.
  assert (N10 : is_nan 10 = false) by reflexivity.
  assert (N0 : is_nan 0 = false) by reflexivity.
  repeat split.
  - intros H. apply clamp_nonpositive. now apply ltb_0_nonpositive.
  - intros H.
    assert (Na : is_nan a = false).
    { apply is_nan_false. revert H. rewrite ltb_spec. unfold SFltb.
      destruct (Prim2SF a); cbn; try discriminate; congruence. }
    unfold clamp, Math_min. rewrite N10, Na, H. reflexivity.
  - intros H0 H10.
    destruct (leb_not_nan _ _ H0) as [_ Na].
    pose proof (is_nan_false _ Na) as Nan.
    unfold clamp, Math_min. rewrite N10, Nan, (leb_not_ltb _ _ H10). cbn [orb].
    replace (is_neg_zero 10) with false by reflexivity.
    replace (if PrimFloat.ltb a 10 then a else a) with a by (destruct (PrimFloat.ltb a 10); reflexivity).
    unfold Math_max. rewrite N0, Nan, (leb_not_ltb _ _ H0). cbn [orb].
    replace (is_neg_zero 0) with false by reflexivity.
    destruct (PrimFloat.ltb 0 a) eqn:Hlt.
    + unfold is_nan in Nan. now apply negb_false_iff in Nan.
    + revert H0 Hlt. rewrite eqb_spec, leb_spec, ltb_spec. unfold SFeqb, SFleb, SFltb.
      destruct (SFcompare (Prim2SF 0) (Prim2SF a)) as [[]|]; congruence.
  - intros H. apply is_nan_true in H. subst a. reflexivity.
Qed.

Section WithStore.
Variable Db : Type.
Variable findNearby : Db -> float * float -> float -> list SafetyReport.t * Db.

(** The weighted sum of the factors 7, 6, 7, 6, 7 and of a communityReports
    factor between 0 and 8, times ten, rounds to one of 60 .. 68, the
    nearest integer. *)
Lemma weighted_round (c : float) :
  upto false 8 c ->
  exists n, 60 <= n <= 68 /\
    Math_round ((0 + 7 * 0.20 + 6 * 0.20 + 7 * 0.25 + 6 * 0.15 + 7 * 0.10 + c * 0.10) * 10)
    = Z2float n /\
    nearestInteger n ((0 + 7 * 0.20 + 6 * 0.20 + 7 * 0.25 + 6 * 0.15 + 7 * 0.10 + c * 0.10) * 10).
Proof.
  intros Hc.
  match goal with
  | |- exists n, _ /\ Math_round ((?a + c * ?w) * 10)%float = _ /\ _ =>
      replace a with 5.95%float by (vm_compute; reflexivity)
  end.
  set (Bp := next_up (8 * 0.1)%float).
  set (Bt := next_up (5.95 + Bp)%float).
  set (Bu := next_up (Bt * 10)%float).
  assert (Hp : upto false Bp (c * 0.1)%float)
    by (apply (mul_upto _ _ _ 8%float); [exact Hc | vm_compute; reflexivity]).
  assert (Ht : upto false Bt (5.95 + c * 0.1)%float).
  { apply (add_upto false _ _ 5.95%float Bp); [|exact Hp | vm_compute; reflexivity].
    apply upto_self. reflexivity. }
  assert (Hu : upto false Bu ((5.95 + c * 0.1) * 10)%float)
    by (apply (mul_upto _ _ _ Bt); [exact Ht | vm_compute; reflexivity]).
  assert (Lt : from 5.95 (5.95 + c * 0.1)%float).
  { apply (add_from false _ _ _ Bp); [|exact Hp]. apply from_self. reflexivity. }
  assert (Lu : from 59.5 ((5.95 + c * 0.1) * 10)%float)
    by (apply (mul_from _ _ 5.95%float); [exact Lt | vm_compute; reflexivity]).
  exact (Math_round_between _ 59.5%float Bu 60 68 Lu Hu
           ltac:(vm_compute; reflexivity) ltac:(vm_compute; reflexivity)).
Qed.

(** The weighted sum of a factor set, written out. *)
Lemma weightedSum_unfold (f : FactorSet) :
  weightedSum f
  = (0 + lighting f * 0.20 + policePresence f * 0.20 + crimeRate f * 0.25
     + pedestrianTraffic f * 0.15 + roadCondition f * 0.10 + communityReports f * 0.10)%float.
Proof. reflexivity. Qed.

(** A [NaN] communityReports factor makes the sum and the score [NaN]. *)
Lemma weighted_nan (a : float) :
  roundOneDecimal (a + PrimFloat.nan * 0.10) = PrimFloat.nan /\
  is_nan (a + PrimFloat.nan * 0.10) = true.
Proof.
  assert (H : (a + PrimFloat.nan * 0.10)%float = PrimFloat.nan).
  { apply Prim2SF_inj. rewrite add_spec. destruct (Prim2SF a); reflexivity. }
  rewrite H. split; reflexivity.
Qed.

(** The score of a route is [NaN], with a [NaN] communityReports factor, or
    one of the tenths [6.0, 6.1, ..., 6.8], the one nearest to the weighted
    sum. *)
Lemma overall_cases (db : Db) (polyline : JsString) :
  let score := fst (calculateRouteSafetyScore Db findNearby db polyline) in
  (communityReports (factors score) = PrimFloat.nan /\ overall score = PrimFloat.nan /\
   is_nan (weightedSum (factors score)) = true) \/
  (upto false 8 (communityReports (factors score)) /\
   exists n, 60 <= n <= 68 /\ overall score = tenth n /\
             nearestInteger n (weightedSum (factors score) * 10)).
Proof.
  cbv zeta. rewrite calculateRouteSafetyScore_unfold. cbn [overall factors].
  pose proof (communityReports_cases Db findNearby db polyline) as Hc.
  pose proof (accumulated_untouched Db findNearby db polyline) as H.
  unfold untouched in H. injection H as H1 H2 H3 H4 H5.
  rewrite weightedSum_unfold.
  unfold clampAll in *.
  cbn [lighting policePresence crimeRate pedestrianTraffic roadCondition communityReports] in *.
  rewrite H1, H2, H3, H4, H5.
  replace (clamp 7) with 7%float by (vm_compute; reflexivity).
  replace (clamp 6) with 6%float by (vm_compute; reflexivity).
  set (c := clamp (communityReports _)) in *.
  destruct Hc as [Hc|Hc].
  - left. rewrite Hc. split; [reflexivity|].
    destruct (weighted_nan (0 + 7 * 0.20 + 6 * 0.20 + 7 * 0.25 + 6 * 0.15 + 7 * 0.10)) as [Ha Hb].
    split; assumption.
  - right. split; [exact Hc|].
    destruct (weighted_round c Hc) as (n & Hn & Hr & Hnear).
    exists n. split; [exact Hn|]. split; [|exact Hnear].
    unfold roundOneDecimal. rewrite Hr. reflexivity.
Qed.

Lemma overall_tenth_range (db : Db) (polyline : JsString) :
  answersInTables Db findNearby ->
  exists n, 60 <= n <= 68 /\
            overall (fst (calculateRouteSafetyScore Db findNearby db polyline)) = tenth n.
Proof.
  intros Hin.
  destruct (overall_cases db polyline) as [(Hc & _) | (_ & n & Hn & Ho & _)].
  - exfalso. revert Hc. rewrite calculateRouteSafetyScore_unfold. cbn [factors].
    intros Hc. pose proof (communityReports_upto Db findNearby db polyline Hin) as Hu.
    rewrite Hc in Hu. exact Hu.
  - exists n. split; assumption.
Qed.

(** C2: the returned overall score is the weighted sum
    [0.20*lighting + 0.20*policePresence + 0.25*crimeRate +
    0.15*pedestrianTraffic + 0.10*roadCondition + 0.10*communityReports] of
    the returned factors, rounded to one decimal place (the tenth [n / 10]
    with [n] the integer nearest to ten times the sum); each returned
    factor is its accumulator brought into the interval from 0 to 10; and
    the score is a function of the returned factors alone, the one that
    [Route.calculateSafetyScore] computes from them. *)
Theorem overall_is_weighted_sum (db : Db) (polyline : JsString) :
  let score := fst (calculateRouteSafetyScore Db findNearby db polyline) in
  let f := factors score in
  let raw := accumulated Db findNearby db polyline in
  let sum := (0 + lighting f * 0.20 + policePresence f * 0.20 + crimeRate f * 0.25
              + pedestrianTraffic f * 0.15 + roadCondition f * 0.10
              + communityReports f * 0.10)%float in
  (forall key, clampedFrom (get raw key) (get f key)) /\
  roundedToOneDecimal sum (overall score) /\
  overall score = calculateSafetyScore f.
Proof.
  cbv zeta. split; [|split].
  - intros key. rewrite calculateRouteSafetyScore_unfold. cbn [factors].
    destruct key; cbn [get clampAll lighting policePresence crimeRate pedestrianTraffic
                         roadCondition communityReports]; apply clamp_spec.
  - rewrite <- weightedSum_unfold.
    destruct (overall_cases db polyline) as [(_ & Ho & Hs) | (_ & n & _ & Ho & Hnear)].
    + left. split; [exact Hs|]. rewrite Ho. reflexivity.
    + right. exists n. split; [exact Hnear | exact Ho].
  - rewrite calculateRouteSafetyScore_unfold. reflexivity.
Qed.

End WithStore.

(** *** Bounds read from comparisons, and back *)

Lemma leb_upto (x B : float) :
  positive_finite B = true ->
  PrimFloat.leb 0 x = true -> PrimFloat.leb x B = true -> upto true B x.
Proof.
  unfold positive_finite, upto. rewrite !leb_spec. unfold SFleb.
  change (Prim2SF 0) with (S754_zero false).
  destruct (Prim2SF B) as [| | |[|] b eb] eqn:EB; try discriminate. intros _.
  destruct (Prim2SF x) as [s|[|]| |[|] m e] eqn:Ex; cbn [nonneg_upto];
    try (cbn [SFcompare]; discriminate); [auto|].
  intros _.
  pose proof (valid_canonical _ _ _ _ Ex) as Hm.
  pose proof (valid_canonical _ _ _ _ EB) as Hb.
  rewrite (SFcompare_val m e b eb Hm Hb).
  destruct (canonical_facts _ _ Hm) as (He & _).
  destruct (Z.compare_spec (val (Z.pos m) e) (val (Z.pos b) eb)); try discriminate;
    intros _; split; lia.
Qed.

Lemma upto_leb (z : bool) (x B : float) :
  upto z B x -> PrimFloat.leb 0 x = true /\ PrimFloat.leb x B = true.
Proof.
  unfold upto. rewrite !leb_spec. unfold SFleb.
  change (Prim2SF 0) with (S754_zero false).
  destruct (Prim2SF B) as [| | |[|] b eb] eqn:EB; try (intros []).
  destruct (Prim2SF x) as [s|[|]| |[|] m e] eqn:Ex; cbn [nonneg_upto];
    try (intros []; fail).
  - intros _. split; reflexivity.
  - intros [He Hv]. split; [reflexivity|].
    rewrite (SFcompare_val m e b eb (valid_canonical _ _ _ _ Ex) (valid_canonical _ _ _ _ EB)).
    destruct (Z.compare_spec (val (Z.pos m) e) (val (Z.pos b) eb)); try reflexivity. lia.
Qed.

Lemma upto_zero (B : float) : positive_finite B = true -> upto false B 0.
Proof.
  unfold positive_finite, upto.
  destruct (Prim2SF B) as [| | |[|] b eb]; try discriminate. intros _.
  change (Prim2SF 0) with (S754_zero false). cbn. now right.
Qed.

(** *** [Route.prototype.calculateSafetyScore] *)

Lemma tenth_range_100 (n : Z) :
  0 <= n <= 100 ->
  PrimFloat.leb 0 (tenth n) = true /\ PrimFloat.leb (tenth n) 10 = true.
Proof.
  intros Hn. apply andb_true_iff.
  apply (upTo_forallb 100 (fun n => PrimFloat.leb 0 (tenth n) && PrimFloat.leb (tenth n) 10));
    [vm_compute; reflexivity | exact Hn].
Qed.

(** X10: when the six stored factors respect the bounds 0 and 10 of the
    schema, the score that [calculateSafetyScore] stores and returns is a
    number of tenths between 0 and 10, so it respects the bounds of the
    schema too. *)
Theorem stored_score_in_range (storedFactors : FactorSet) :
  (forall key, PrimFloat.leb 0 (get storedFactors key) = true /\
               PrimFloat.leb (get storedFactors key) 10 = true) ->
  let score := calculateSafetyScore storedFactors in
  (exists n, 0 <= n <= 100 /\ score = (Z2float n / 10)%float) /\
  PrimFloat.leb 0 score = true /\ PrimFloat.leb score 10 = true.
Proof.
  intros Hf. cbv zeta.
  assert (Hk : forall key, upto true 10 (get storedFactors key)).
  { intros key. destruct (Hf key) as [H0 H10]. now apply leb_upto. }
  assert (Hn : exists n, 0 <= n <= 100 /\ calculateSafetyScore storedFactors = tenth n).
  { unfold calculateSafetyScore, roundOneDecimal, weightedSum, weights.
    cbn [fold_left].
    pose proof (Hk Lighting) as H1. pose proof (Hk PolicePresence) as H2.
    pose proof (Hk CrimeRate) as H3. pose proof (Hk PedestrianTraffic) as H4.
    pose proof (Hk RoadCondition) as H5. pose proof (Hk CommunityReports) as H6.
    set (f1 := get storedFactors Lighting) in *.
    set (f2 := get storedFactors PolicePresence) in *.
    set (f3 := get storedFactors CrimeRate) in *.
    set (f4 := get storedFactors PedestrianTraffic) in *.
    set (f5 := get storedFactors RoadCondition) in *.
    set (f6 := get storedFactors CommunityReports) in *.
    set (P1 := next_up (10 * 0.2)%float). set (P3 := next_up (10 * 0.25)%float).
    set (P4 := next_up (10 * 0.15)%float). set (P5 := next_up (10 * 0.1)%float).
    set (S0 := next_up 0).
    set (S1 := next_up (S0 + P1)%float). set (S2 := next_up (S1 + P1)%float).
    set (S3 := next_up (S2 + P3)%float). set (S4 := next_up (S3 + P4)%float).
    set (S5 := next_up (S4 + P5)%float). set (S6 := next_up (S5 + P5)%float).
    set (Bu := next_up (S6 * 10)%float).
    assert (Q1 : upto true P1 (f1 * 0.2)%float)
      by (apply (mul_upto _ _ _ 10%float); [exact H1 | vm_compute; reflexivity]).
    assert (Q2 : upto true P1 (f2 * 0.2)%float)
      by (apply (mul_upto _ _ _ 10%float); [exact H2 | vm_compute; reflexivity]).
    assert (Q3 : upto true P3 (f3 * 0.25)%float)
      by (apply (mul_upto _ _ _ 10%float); [exact H3 | vm_compute; reflexivity]).
    assert (Q4 : upto true P4 (f4 * 0.15)%float)
      by (apply (mul_upto _ _ _ 10%float); [exact H4 | vm_compute; reflexivity]).
    assert (Q5 : upto true P5 (f5 * 0.1)%float)
      by (apply (mul_upto _ _ _ 10%float); [exact H5 | vm_compute; reflexivity]).
    assert (Q6 : upto true P5 (f6 * 0.1)%float)
      by (apply (mul_upto _ _ _ 10%float); [exact H6 | vm_compute; reflexivity]).
    assert (T1 : upto false S1 (0 + f1 * 0.2)%float).
    { apply (add_upto true _ _ S0 P1); [|exact Q1 | vm_compute; reflexivity].
      apply upto_zero. reflexivity. }
    assert (T2 : upto false S2 (0 + f1 * 0.2 + f2 * 0.2)%float)
      by (apply (add_upto true _ _ S1 P1); [exact T1 | exact Q2 | vm_compute; reflexivity]).
    assert (T3 : upto false S3 (0 + f1 * 0.2 + f2 * 0.2 + f3 * 0.25)%float)
      by (apply (add_upto true _ _ S2 P3); [exact T2 | exact Q3 | vm_compute; reflexivity]).
    assert (T4 : upto false S4 (0 + f1 * 0.2 + f2 * 0.2 + f3 * 0.25 + f4 * 0.15)%float)
      by (apply (add_upto true _ _ S3 P4); [exact T3 | exact Q4 | vm_compute; reflexivity]).
    assert (T5 : upto false S5
                   (0 + f1 * 0.2 + f2 * 0.2 + f3 * 0.25 + f4 * 0.15 + f5 * 0.1)%float)
      by (apply (add_upto true _ _ S4 P5); [exact T4 | exact Q5 | vm_compute; reflexivity]).
    assert (T6 : upto false S6
                   (0 + f1 * 0.2 + f2 * 0.2 + f3 * 0.25 + f4 * 0.15 + f5 * 0.1
                    + f6 * 0.1)%float)
      by (apply (add_upto true _ _ S5 P5); [exact T5 | exact Q6 | vm_compute; reflexivity]).
    assert (Hu : upto false Bu
                   ((0 + f1 * 0.2 + f2 * 0.2 + f3 * 0.25 + f4 * 0.15 + f5 * 0.1
                     + f6 * 0.1) * 10)%float)
      by (apply (mul_upto _ _ _ S6); [exact T6 | vm_compute; reflexivity]).
    destruct (Math_round_upto _ Bu 100 Hu ltac:(vm_compute; reflexivity)) as (n & Hn & Hr).
    exists n. split; [exact Hn|]. unfold tenth. rewrite <- Hr. reflexivity. }
  destruct Hn as (n & Hn & ->).
  split; [exists n; split; [exact Hn | reflexivity]|].
  now apply tenth_range_100.
Qed.

Lemma stored_score_in_range_witness :
  (forall key, PrimFloat.leb 0 (get baseline key) = true /\
               PrimFloat.leb (get baseline key) 10 = true) /\
  PrimFloat.leb (calculateSafetyScore baseline) 10 = true.
Proof.
  assert (H : forall key, PrimFloat.leb 0 (get baseline key) = true /\
                          PrimFloat.leb (get baseline key) 10 = true)
    by (intros []; split; reflexivity).
  split; [exact H|].
  exact (proj2 (proj2 (stored_score_in_range baseline H))).
Defined.


(** *** An exhausted communityReports factor *)

Lemma SFadd_nonpositive (x y : spec_float) :
  nonpositive x -> nonpositive y -> nonpositive (SFadd prec emax x y).
Proof.
  intros Hx Hy.
  destruct x as [sx|[|]| |[|] mx ex]; cbn [nonpositive] in Hx; try contradiction;
    destruct y as [sy|[|]| |[|] my ey]; cbn [nonpositive] in Hy; try contradiction;
    try exact I.
  - destruct sx, sy; exact I.
  - cbn [SFadd]. unfold binary_normalize.
    destruct (cond_Zopp true _ + cond_Zopp true _) as [|p|p] eqn:HM; [exact I | cbn in HM; lia|].
    pose proof (binary_round_signed true p (Z.min ex ey)) as H.
    destruct (binary_round _ _ _ _ _) as [s|s| |s m e]; cbn in H |- *;
      try contradiction; subst; exact I.
Qed.

Lemma leb_0_nonpositive (x : float) : PrimFloat.leb x 0 = true -> nonpositive (Prim2SF x).
Proof.
  rewrite leb_spec. unfold SFleb. change (Prim2SF 0) with (S754_zero false).
  destruct (Prim2SF x) as [s|[|]| |[|] m e]; cbn; try discriminate; auto.
Qed.

Section WithStore.
Variable Db : Type.
Variable findNearby : Db -> float * float -> float -> list SafetyReport.t * Db.

Lemma addReports_nonpositive (nearbyReports : list SafetyReport.t) (f : FactorSet) :
  Forall (fun report => SafetyReport.inTables report = true) nearbyReports ->
  nonpositive (Prim2SF (communityReports f)) ->
  nonpositive (Prim2SF (communityReports (addReports nearbyReports f))).
Proof.
  unfold addReports.
  assert (Hq : forall report,
             SafetyReport.inTables report = true ->
             nonpositive (Prim2SF (PrimFloat.div (SafetyReport.calculateSafetyImpact report)
                                                 (length_number nearbyReports))))
    by (intros report; apply mean_impact_nonpositive).
  revert Hq. generalize (length_number nearbyReports) as d. intros d Hq Hin.
  revert f. induction Hin as [|report rest Hreport Hrest IH]; intros f Hf; [exact Hf|].
  cbn [fold_left]. apply IH. cbn [set communityReports].
  rewrite add_spec. apply SFadd_nonpositive; [exact Hf | now apply Hq].
Qed.

Lemma scanSamples_nonpositive (samplePoints : list Point) :
  answersInTables Db findNearby ->
  forall db f,
    nonpositive (Prim2SF (communityReports f)) ->
    nonpositive (Prim2SF (communityReports
                            (fst (scanSamples Db findNearby db samplePoints f)))).
Proof.
  intros Hin.
  induction samplePoints as [|point rest IH]; intros db f Hf; [exact Hf|].
  cbn [scanSamples].
  pose proof (Hin db (lng point, lat point) 500%float) as Hreports.
  destruct (findNearby db (lng point, lat point) 500%float) as [nearbyReports db'].
  cbn [fst] in Hreports. apply IH.
  destruct (0 <? List.length nearbyReports)%nat; [now apply addReports_nonpositive | exact Hf].
Qed.

Lemma scanSamples_split (first rest : list Point) :
  forall db f,
    fst (scanSamples Db findNearby db (first ++ rest) f)
    = fst (scanSamples Db findNearby
             (snd (scanSamples Db findNearby db first f)) rest
             (fst (scanSamples Db findNearby db first f))).
Proof.
  induction first as [|point first IH]; intros db f; [reflexivity|].
  cbn [app scanSamples].
  destruct (findNearby db (lng point, lat point) 500%float) as [nearbyReports db'].
  apply IH.
Qed.

(** X7: when the reports returned by the store have a severity and a type
    of the tables, once the communityReports accumulator has fallen to zero
    or below after some of the sample points, the reports found at the
    remaining points change nothing: the returned communityReports factor
    is 0 and the overall score is 6. *)
Theorem exhausted_communityReports (db : Db) (polyline : JsString)
        (scanned remaining : list Point) :
  answersInTables Db findNearby ->
  samplePointsOf polyline = scanned ++ remaining ->
  PrimFloat.leb (communityReports (fst (scanSamples Db findNearby db scanned baseline))) 0
  = true ->
  fst (calculateRouteSafetyScore Db findNearby db polyline)
  = {| overall := 6; factors := set baseline CommunityReports 0 |}.
Proof.
  intros Hin Hsplit Hle.
  rewrite calculateRouteSafetyScore_unfold.
  pose proof (accumulated_untouched Db findNearby db polyline) as Hun.
  assert (Hc : nonpositive (Prim2SF (communityReports (accumulated Db findNearby db polyline)))).
  { unfold accumulated. rewrite Hsplit, scanSamples_split.
    apply scanSamples_nonpositive; [exact Hin|]. now apply leb_0_nonpositive. }
  apply clamp_nonpositive in Hc.
  destruct (accumulated Db findNearby db polyline) as [l p c t r cr].
  unfold untouched in Hun. cbn [lighting policePresence crimeRate pedestrianTraffic
                                 roadCondition communityReports] in *.
  injection Hun as -> -> -> -> ->.
  unfold clampAll. cbn [lighting policePresence crimeRate pedestrianTraffic
                        roadCondition communityReports].
  rewrite Hc. vm_compute. reflexivity.
Qed.

(** X5: whatever the polyline, when the reports returned by the store have
    a severity and a type of the tables, the returned communityReports
    factor lies between 0 and its prior of 8. *)
Theorem communityReports_at_most_8 (db : Db) (polyline : JsString) :
  answersInTables Db findNearby ->
  let c := communityReports
             (factors (fst (calculateRouteSafetyScore Db findNearby db polyline))) in
  PrimFloat.leb 0 c = true /\ PrimFloat.leb c 8 = true.
Proof.
  intros Hin. cbv zeta. rewrite calculateRouteSafetyScore_unfold. cbn [factors].
  apply (upto_leb false). now apply communityReports_upto.
Qed.

(** X6: whatever the polyline, when the reports returned by the store have
    a severity and a type of the tables, the overall score of a route is a
    whole number of tenths between 6.0 and 6.8. *)
Theorem overall_between_6_and_6_8 (db : Db) (polyline : JsString) :
  answersInTables Db findNearby ->
  let score := overall (fst (calculateRouteSafetyScore Db findNearby db polyline)) in
  (exists n, 60 <= n <= 68 /\ score = (Z2float n / 10)%float) /\
  PrimFloat.leb 6 score = true /\ PrimFloat.leb score 6.8 = true.
Proof.
  intros Hin. cbv zeta.
  destruct (overall_tenth_range Db findNearby db polyline Hin) as (n & Hn & ->).
  split; [exists n; split; [exact Hn | reflexivity]|].
  apply andb_true_iff.
  assert (H : forall k, 0 <= k <= 8 ->
                        PrimFloat.leb 6 (tenth (60 + k)) && PrimFloat.leb (tenth (60 + k)) 6.8
                        = true)
    by (apply (upTo_forallb 8); vm_compute; reflexivity).
  specialize (H (n - 60) ltac:(lia)).
  replace (60 + (n - 60)) with n in H by lia. exact H.
Qed.

End WithStore.

Lemma exhausted_communityReports_witness :
  answersInTables unit robberyStore /\
  samplePointsOf (of_string "??????????????????????")
  = [{| lat := 0; lng := 0 |}] ++ [{| lat := 0; lng := 0 |}] /\
  PrimFloat.leb (communityReports
                   (fst (scanSamples unit robberyStore tt [{| lat := 0; lng := 0 |}] baseline)))
                0 = true /\
  fst (calculateRouteSafetyScore unit robberyStore tt (of_string "??????????????????????"))
  = {| overall := 6; factors := set baseline CommunityReports 0 |}.
Proof.
  split; [exact robberyStore_inTables|].
  split; [vm_compute; reflexivity|]. split; [vm_compute; reflexivity|].
  apply (exhausted_communityReports unit robberyStore tt (of_string "??????????????????????")
           [{| lat := 0; lng := 0 |}] [{| lat := 0; lng := 0 |}]);
    [exact robberyStore_inTables | vm_compute; reflexivity | vm_compute; reflexivity].
Defined.

Lemma communityReports_at_most_8_witness :
  answersInTables unit robberyStore /\
  (let c := communityReports
              (factors (fst (calculateRouteSafetyScore unit robberyStore tt
                               (of_string "??????????????????????")))) in
   PrimFloat.leb 0 c = true /\ PrimFloat.leb c 8 = true).
Proof.
  split; [exact robberyStore_inTables|].
  exact (communityReports_at_most_8 unit robberyStore tt (of_string "??????????????????????")
           robberyStore_inTables).
Defined.

Lemma overall_between_6_and_6_8_witness :
  answersInTables unit robberyStore /\
  (let score := overall (fst (calculateRouteSafetyScore unit robberyStore tt
                                (of_string "??????????????????????"))) in
   (exists n, 60 <= n <= 68 /\ score = (Z2float n / 10)%float) /\
   PrimFloat.leb 6 score = true /\ PrimFloat.leb score 6.8 = true).
Proof.
  split; [exact robberyStore_inTables|].
  exact (overall_between_6_and_6_8 unit robberyStore tt (of_string "??????????????????????")
           robberyStore_inTables).
Defined.

(** *** Impacts and tags *)

(** X3: the impact of a report of any type, severity and status is
    negative, between -15 (a critical theft or robbery) and -0.5 (a low
    report of the lightest types). *)
Theorem impact_range (t : SafetyReport.ReportType) (s : SafetyReport.Severity)
        (st : SafetyReport.Status) :
  let impact := SafetyReport.calculateSafetyImpact
                  {| SafetyReport.reportType := Some t; SafetyReport.severity := Some s;
                     SafetyReport.status := st |} in
  PrimFloat.leb (-15) impact = true /\ PrimFloat.leb impact (-0.5) = true /\
  PrimFloat.ltb impact 0 = true.
Proof. destruct t, s; vm_compute; repeat split. Qed.

(** X4: for any report type, a more severe report has a strictly lower
    (more negative) impact. *)
Theorem impact_decreases_with_severity (t : SafetyReport.ReportType) (st : SafetyReport.Status) :
  let impact s := SafetyReport.calculateSafetyImpact
                    {| SafetyReport.reportType := Some t; SafetyReport.severity := Some s;
                       SafetyReport.status := st |} in
  PrimFloat.ltb (impact SafetyReport.critical) (impact SafetyReport.high) = true /\
  PrimFloat.ltb (impact SafetyReport.high) (impact SafetyReport.medium) = true /\
  PrimFloat.ltb (impact SafetyReport.medium) (impact SafetyReport.low) = true.
Proof. destruct t; vm_compute; repeat split. Qed.

Section WithStore.
Variable Db : Type.
Variable findNearby : Db -> float * float -> float -> list SafetyReport.t * Db.

(** X8: the tags of a scored route do not depend on the route or on the
    reports: they are always Well-Lit, High Traffic and Main Roads, and never
    Police Patrolled. *)
Theorem tags_are_constant (db : Db) (polyline : JsString) :
  generateRouteTags (fst (calculateRouteSafetyScore Db findNearby db polyline))
  = [WellLit; HighTraffic; MainRoads].
Proof.
  rewrite calculateRouteSafetyScore_unfold. unfold generateRouteTags. cbn [factors].
  pose proof (accumulated_untouched Db findNearby db polyline) as H.
  unfold untouched in H. injection H as H1 H2 H3 H4 H5.
  unfold clampAll. cbn [lighting policePresence pedestrianTraffic roadCondition].
  rewrite H1, H2, H4, H5. vm_compute. reflexivity.
Qed.

End WithStore.

End ScoreBounds.

(* ------------------------------------------------------------------------- *)
(** ** The size of a decoded polyline and its sample points *)

Module SamplingFacts.
Import JS Polyline Scoring PolylineFacts Sampling.

(** Each pass of the outer loop reads at least two code units and pushes
    one point. *)
Lemma decodeLoop_size (fuel : nat) (encoded : JsString) :
  forall index lat lng points out,
    decodeLoop fuel encoded index lat lng points = Some out ->
    if (index <? List.length encoded)%nat
    then (2 * List.length out + index <= 2 * List.length points + List.length encoded + 1)%nat
    else out = points.
Proof.
  induction fuel as [|fuel IH]; intros index lat lng points out H; [discriminate|].
  cbn [decodeLoop] in H.
  destruct (Nat.ltb_spec index (List.length encoded)) as [Hlt|Hge].
  - destruct (readGroup (S fuel) encoded index 0 0) as [[r1 i1]|] eqn:H1; [|discriminate].
    destruct (readGroup (S fuel) encoded i1 0 0) as [[r2 i2]|] eqn:H2; [|discriminate].
    apply readGroup_index_increases in H1, H2.
    apply IH in H. rewrite length_app in H. cbn [List.length] in H.
    destruct (Nat.ltb_spec i2 (List.length encoded)) as [Hlt2|Hge2].
    + lia.
    + subst out. rewrite length_app. cbn [List.length]. lia.
  - now inversion H.
Qed.

Lemma decodePolyline_length (encoded : JsString) :
  (encoded <> [] -> 1 <= List.length (decodePolyline encoded))%nat /\
  (2 * List.length (decodePolyline encoded) <= List.length encoded + 1)%nat.
Proof.
  pose proof (decodePolyline_fuel encoded (S (List.length encoded)) ltac:(lia)) as Hrun.
  unfold decodePolylineFuel in Hrun.
  pose proof (decodeLoop_size _ _ _ _ _ _ _ Hrun) as Hsize.
  pose proof (decodeLoop_pushes _ _ _ _ _ _ _ Hrun) as [_ Hpush].
  cbn [List.length] in *.
  split.
  - intros Hne. destruct encoded as [|c rest]; [congruence|].
    cbn [List.length] in *. specialize (Hpush ltac:(lia)). lia.
  - destruct (Nat.ltb_spec 0 (List.length encoded)) as [Hlt|Hge].
    + lia.
    + rewrite Hsize. cbn. lia.
Qed.

(** X1: the empty string decodes to no point, any other string to at
    least one, and a string of [n] code units to at most [(n + 1) / 2]
    points. *)
Theorem decodePolyline_size (encoded : JsString) :
  (encoded = [] -> decodePolyline encoded = []) /\
  (encoded <> [] -> (1 <= List.length (decodePolyline encoded))%nat) /\
  (2 * List.length (decodePolyline encoded) <= List.length encoded + 1)%nat.
Proof.
  destruct (decodePolyline_length encoded) as [Hmin Hmax].
  split; [|split; assumption].
  intros ->. reflexivity.
Qed.

Lemma filter_index_nth {A} (a : list A) :
  forall index k,
    nth_error (filter_index (fun i => (i mod 10 =? 0)%nat) index a) k
    = nth_error a (10 * k + toNextTenth index).
Proof.
  unfold toNextTenth.
  induction a as [|x rest IH]; intros index k; cbn [filter_index].
  - now rewrite !nth_error_nil.
  - destruct (Nat.eqb_spec (index mod 10) 0) as [Hz|Hnz].
    + assert (E0 : ((10 - index mod 10) mod 10 = 0)%nat) by (rewrite Hz; reflexivity).
      assert (E1 : (S index mod 10 = 1)%nat).
      { rewrite <- Nat.add_1_r. rewrite Nat.Div0.add_mod, Hz. reflexivity. }
      rewrite E0.
      destruct k as [|k]; [reflexivity|].
      replace (10 * S k + 0)%nat with (S (10 * k + 9)) by lia.
      cbn [nth_error]. rewrite IH, E1. reflexivity.
    + rewrite IH.
      assert (Hs : ((10 - S index mod 10) mod 10 + 1 = (10 - index mod 10) mod 10)%nat).
      { pose proof (Nat.mod_upper_bound index 10 ltac:(lia)) as Hb.
        assert (Hsucc : (S index mod 10 = (index mod 10 + 1) mod 10)%nat)
          by (rewrite Nat.Div0.add_mod_idemp_l; f_equal; lia).
        rewrite Hsucc. clear Hsucc.
        revert Hnz Hb. generalize (index mod 10)%nat. intros r Hnz Hb.
        do 10 (destruct r as [|r]; [first [congruence | reflexivity]|]). lia. }
      rewrite <- Hs.
      replace (10 * k + ((10 - S index mod 10) mod 10 + 1))%nat
        with (S (10 * k + (10 - S index mod 10) mod 10)) by lia.
      reflexivity.
Qed.

Lemma filter_index_length {A} (a : list A) :
  forall index,
    List.length (filter_index (fun i => (i mod 10 =? 0)%nat) index a)
    = ((List.length a + 9 - toNextTenth index) / 10)%nat.
Proof.
  intros index.
  set (s := filter_index _ index a).
  (* the k-th sample exists exactly when 10 k + offset is an index of [a] *)
  assert (Hk : forall k, (k < List.length s <-> 10 * k + toNextTenth index < List.length a)%nat).
  { intros k. rewrite <- !nth_error_Some. subst s. now rewrite filter_index_nth. }
  assert (Ho : (toNextTenth index < 10)%nat) by (apply Nat.mod_upper_bound; lia).
  pose proof (Nat.div_mod_eq (List.length a + 9 - toNextTenth index) 10) as Hdm.
  pose proof (Nat.mod_upper_bound (List.length a + 9 - toNextTenth index) 10 ltac:(lia)) as Hm.
  set (q := ((List.length a + 9 - toNextTenth index) / 10)%nat) in *.
  destruct (Nat.lt_trichotomy (List.length s) q) as [Hlt|[Heq|Hgt]]; [exfalso | exact Heq | exfalso].
  - (* the sample at index [length s] would exist *)
    assert (H := proj2 (Hk (List.length s))). lia.
  - assert (H := proj1 (Hk q) Hgt). lia.
Qed.

Lemma samplePointsOf_length (polyline : JsString) :
  List.length (samplePointsOf polyline)
  = ((List.length (decodePolyline polyline) + 9) / 10)%nat.
Proof.
  unfold samplePointsOf. rewrite filter_index_length.
  change (toNextTenth 0) with 0%nat. now rewrite Nat.sub_0_r.
Qed.

(** X2: the sample points are the decoded points at indices 0, 10, 20,
    ...; there are [(n + 9) / 10] of them for [n] decoded points, hence at
    most [(l + 19) / 20] for a polyline of [l] code units, and the first
    decoded point is always sampled. *)
Theorem samplePoints_every_tenth (polyline : JsString) :
  (forall k, nth_error (samplePointsOf polyline) k
             = nth_error (decodePolyline polyline) (10 * k)) /\
  List.length (samplePointsOf polyline)
  = ((List.length (decodePolyline polyline) + 9) / 10)%nat /\
  (List.length (samplePointsOf polyline) <= (List.length polyline + 19) / 20)%nat /\
  hd_error (samplePointsOf polyline) = hd_error (decodePolyline polyline).
Proof.
  split; [|split; [|split]].
  - intros k. unfold samplePointsOf. rewrite filter_index_nth. f_equal.
    unfold toNextTenth. cbn. lia.
  - apply samplePointsOf_length.
  - rewrite samplePointsOf_length.
    destruct (decodePolyline_length polyline) as [_ Hmax].
    pose proof (Nat.mod_upper_bound (List.length polyline + 19) 20 ltac:(lia)) as H2.
    pose proof (Nat.div_mod_eq (List.length polyline + 19) 20) as H3.
    set (q := ((List.length polyline + 19) / 20)%nat) in *.
    set (r := ((List.length polyline + 19) mod 20)%nat) in *.
    apply Nat.le_trans with ((10 * q + 9) / 10)%nat.
    + apply Nat.Div0.div_le_mono. lia.
    + rewrite <- (Nat.div_unique (10 * q + 9) 10 q 9); lia.
  - unfold samplePointsOf. destruct (decodePolyline polyline); reflexivity.
Qed.

Section WithStore.
Variable Db : Type.
Variable findNearby : Db -> float * float -> float -> list SafetyReport.t * Db.

(** X9: a polyline has no sample point exactly when it is empty; the
    empty polyline is scored without a query to the store, which is left in
    the state it was given, and gets the baseline factors and the score
    6.8. *)
Theorem unsampled_only_when_empty (db : Db) (polyline : JsString) :
  (samplePointsOf polyline = [] <-> polyline = []) /\
  calculateRouteSafetyScore Db findNearby db []
  = ({| overall := 6.8; factors := baseline |}, db).
Proof.
  split; [|vm_compute; reflexivity].
  split.
  - intros Hs. destruct polyline as [|c rest]; [reflexivity|exfalso].
    pose proof (samplePointsOf_length (c :: rest)) as Hlen.
    rewrite Hs in Hlen. cbn [List.length] in Hlen.
    destruct (decodePolyline_length (c :: rest)) as [Hmin _].
    specialize (Hmin ltac:(discriminate)).
    assert (H : (1 <= (List.length (decodePolyline (c :: rest)) + 9) / 10)%nat).
    { apply Nat.div_le_lower_bound; lia. }
    lia.
  - intros ->. reflexivity.
Qed.

End WithStore.

End SamplingFacts.

(* ------------------------------------------------------------------------- *)
(** ** Classification and ranking of scored routes *)

Module RankingFacts.
Import JS Polyline Scoring Routes ScoringFacts RoutesFacts Bounds ScoreBounds Ranking Scenarios.

Section SortOn.
Context {A : Type} (compareFn : A -> A -> comparison) (P : A -> Prop).

Lemma insert_Forall (x : A) (l : list A) :
  P x -> Forall P l -> Forall P (insert compareFn x l).
Proof.
  intros Hx Hl. rewrite Forall_forall in *. intros y Hy.
  apply (Permutation_in _ (insert_Permutation compareFn x l)) in Hy.
  destruct Hy as [<- | Hy]; auto.
Qed.

Lemma sort_Forall (l : list A) : Forall P l -> Forall P (sort compareFn l).
Proof.
  intros Hl. rewrite Forall_forall in *. intros y Hy.
  apply Hl. exact (Permutation_in _ (sort_Permutation compareFn l) Hy).
Qed.

(** Elements that the comparator never orders one after the other keep
    their relative order. *)
Lemma insert_filter_on (f : A -> bool) (x : A) (l : list A) :
  (forall a b, P a -> P b -> f a = true -> f b = true -> compareFn a b <> Gt) ->
  P x -> Forall P l ->
  filter f (insert compareFn x l) = filter f (x :: l).
Proof.
  intros Hf Hx Hl. induction Hl as [|y rest Hy Hrest IH]; [reflexivity|].
  cbn [insert].
  destruct (compareFn x y) eqn:Hc; try reflexivity.
  cbn [filter] in *. rewrite IH.
  destruct (f x) eqn:Fx, (f y) eqn:Fy; try reflexivity.
  exfalso. exact (Hf x y Hx Hy Fx Fy Hc).
Qed.

Lemma sort_filter_on (f : A -> bool) (l : list A) :
  (forall a b, P a -> P b -> f a = true -> f b = true -> compareFn a b <> Gt) ->
  Forall P l ->
  filter f (sort compareFn l) = filter f l.
Proof.
  intros Hf Hl. induction Hl as [|x rest Hx Hrest IH]; [reflexivity|].
  cbn [sort]. rewrite insert_filter_on; [|exact Hf | exact Hx | now apply sort_Forall].
  cbn [filter]. now rewrite IH.
Qed.

Variable key : A -> Z.
Hypothesis compare_key :
  forall a b, P a -> P b -> (compareFn a b = Gt <-> key b < key a).

Lemma insert_sorted_on (x : A) (l : list A) :
  P x -> Forall P l ->
  StronglySorted (fun a b => key a <= key b) l ->
  StronglySorted (fun a b => key a <= key b) (insert compareFn x l).
Proof.
  intros Hx Hl Hs. induction Hs as [|y rest Hs IH Hy]; [repeat constructor|].
  inversion Hl as [|? ? Py Prest]; subst.
  cbn [insert].
  assert (Hle : compareFn x y <> Gt -> StronglySorted (fun a b => key a <= key b) (x :: y :: rest)).
  { intros Hn. constructor; [now constructor|].
    assert (key x <= key y).
    { destruct (Z.leb_spec (key x) (key y)) as [|Hlt]; [assumption|].
      exfalso. apply Hn. now apply compare_key. }
    constructor; [assumption|].
    eapply Forall_impl; [|exact Hy]. cbn. intros; lia. }
  destruct (compareFn x y) eqn:Hc; try (apply Hle; congruence).
  constructor; [now apply IH|].
  apply compare_key in Hc; try assumption.
  rewrite Forall_forall in *. intros z Hz.
  apply (Permutation_in _ (insert_Permutation compareFn x rest)) in Hz.
  destruct Hz as [<- | Hz]; [lia | now apply Hy].
Qed.

Lemma sort_sorted_on (l : list A) :
  Forall P l -> StronglySorted (fun a b => key a <= key b) (sort compareFn l).
Proof.
  intros Hl. induction Hl as [|x rest Hx Hrest IH]; [constructor|].
  cbn [sort]. apply insert_sorted_on; [exact Hx | now apply sort_Forall | exact IH].
Qed.

End SortOn.

Lemma StronglySorted_on {A} (P : A -> Prop) (R S : A -> A -> Prop) (l : list A) :
  (forall a b, P a -> P b -> R a b -> S a b) ->
  Forall P l -> StronglySorted R l -> StronglySorted S l.
Proof.
  intros HRS Hl Hs. induction Hs as [|x rest Hs IH Hx]; [constructor|].
  inversion Hl as [|? ? Px Prest]; subst.
  constructor; [now apply IH|].
  rewrite Forall_forall in *. intros y Hy. apply HRS; auto.
Qed.


Lemma Forall2_In_r {A B} (R : A -> B -> Prop) (l : list A) (l' : list B) (y : B) :
  Forall2 R l l' -> In y l' -> exists x, In x l /\ R x y.
Proof.
  intros H. induction H as [|x y' l l' Hxy _ IH]; intros Hy; [destruct Hy|].
  destruct Hy as [<- | Hy].
  - exists x. split; [now left | exact Hxy].
  - destruct (IH Hy) as (x0 & Hx0 & HR). exists x0. split; [now right | exact HR].
Qed.

Lemma Forall2_In_l {A B} (R : A -> B -> Prop) (l : list A) (l' : list B) (x : A) :
  Forall2 R l l' -> In x l -> exists y, In y l' /\ R x y.
Proof.
  intros H. induction H as [|x' y l l' Hxy _ IH]; intros Hx; [destruct Hx|].
  destruct Hx as [<- | Hx].
  - exists y. split; [now left | exact Hxy].
  - destruct (IH Hx) as (y0 & Hy0 & HR). exists y0. split; [now right | exact HR].
Qed.

(** *** Equality of numbers *)

Lemma SFcompare_Eq (a x : spec_float) :
  SFcompare a x = Some Eq ->
  a = x \/ (exists s s', a = S754_zero s /\ x = S754_zero s').
Proof.
  destruct a as [sa|sa| |sa ma ea], x as [sx|sx| |sx mx ex]; cbn; intros H;
    try discriminate; try (destruct sa; discriminate); try (destruct sx; discriminate).
  - right. eauto.
  - left. destruct sa, sx; try discriminate; reflexivity.
  - left. destruct sa, sx; try discriminate;
      destruct (Z.compare_spec ea ex) as [->| |]; try discriminate;
      injection H as H; rewrite Pos.compare_cont_spec in H; cbn [Pos.switch_Eq] in H.
    + destruct (ma ?= mx)%positive eqn:Hc; try discriminate.
      apply Pos.compare_eq in Hc. now subst.
    + destruct (ma ?= mx)%positive eqn:Hc; try discriminate.
      apply Pos.compare_eq in Hc. now subst.
Qed.

(** Two numbers equal to a third one are equal. *)
Lemma eqb_trans_r (a b x : float) :
  PrimFloat.eqb a x = true -> PrimFloat.eqb b x = true -> PrimFloat.eqb a b = true.
Proof.
  rewrite !eqb_spec. unfold SFeqb.
  destruct (SFcompare (Prim2SF a) (Prim2SF x)) as [[]|] eqn:Ha; try discriminate.
  destruct (SFcompare (Prim2SF b) (Prim2SF x)) as [[]|] eqn:Hb; try discriminate.
  intros _ _.
  destruct (SFcompare_Eq _ _ Ha) as [Ea | (s1 & s1' & Ea & Ex)];
    destruct (SFcompare_Eq _ _ Hb) as [Eb | (s2 & s2' & Eb & Ex')].
  - rewrite Ea, Eb. rewrite Eb in Hb. now rewrite Hb.
  - rewrite Ea, Eb, Ex'. reflexivity.
  - rewrite Ea, Eb, Ex. reflexivity.
  - rewrite Ea, Eb. reflexivity.
Qed.

(** *** Classification *)

Lemma Math_min_spread_some (values : list Z) :
  values <> [] ->
  exists m, Math_min_spread values = Some m /\ In m values /\
            forall v, In v values -> m <= v.
Proof.
  destruct values as [|a rest]; [congruence|]. intros _.
  unfold Math_min_spread. cbn [fold_left].
  destruct (Math_min_fold rest a) as (m & -> & Hle & Hall & Hm).
  exists m. split; [reflexivity|]. split.
  - destruct Hm as [->|Hm]; [now left | now right].
  - intros v [<-|Hv]; [exact Hle | now apply Hall].
Qed.

Lemma determineRouteType_cases (routes : list DirectionsRoute) (index : nat)
      (route : DirectionsRoute) (score : SafetyScore) :
  PrimFloat.leb 8 (overall score) = false -> In route routes ->
  (determineRouteType routes index route score = fastest /\
   forall other, In other routes -> duration_value route <= duration_value other) \/
  (determineRouteType routes index route score = balanced /\
   exists other, In other routes /\ duration_value other < duration_value route).
Proof.
  intros Hs Hin. unfold determineRouteType. rewrite Hs, andb_false_r.
  destruct (Math_min_spread_some (map duration_value routes)) as (m & -> & Hm & Hall).
  { intros H. apply (in_map duration_value) in Hin. rewrite H in Hin. destruct Hin. }
  destruct (Z.eqb_spec (duration_value route) m) as [->|Hne].
  - left. split; [reflexivity|]. intros other Ho. apply Hall. now apply in_map.
  - right. split; [reflexivity|].
    apply in_map_iff in Hm. destruct Hm as (other & Ho & Hino).
    exists other. split; [exact Hino|].
    assert (m <= duration_value route) by (apply Hall; now apply in_map). lia.
Qed.

(** *** Scores on the grid of tenths *)

Lemma upTo_forallb2 (N : nat) (P : Z -> Z -> bool) :
  forallb (fun a => forallb (P a) (upTo N)) (upTo N) = true ->
  forall a b, 0 <= a <= Z.of_nat N -> 0 <= b <= Z.of_nat N -> P a b = true.
Proof.
  intros H a b Ha Hb.
  apply (upTo_forallb N (P a)); [|exact Hb].
  exact (upTo_forallb N (fun a => forallb (P a) (upTo N)) H a Ha).
Qed.

Lemma tenths_tenth (n : Z) : 0 <= n <= 68 -> tenths (tenth n) = n.
Proof.
  intros Hn.
  apply Z.eqb_eq.
  apply (upTo_forallb 68 (fun n => tenths (tenth n) =? n)); [vm_compute; reflexivity | exact Hn].
Qed.

Lemma tenth_below_8 (n : Z) : 0 <= n <= 68 -> PrimFloat.leb 8 (tenth n) = false.
Proof.
  intros Hn. apply negb_true_iff.
  apply (upTo_forallb 68 (fun n => negb (PrimFloat.leb 8 (tenth n))));
    [vm_compute; reflexivity | exact Hn].
Qed.

Lemma tenth_compare (na nb : Z) :
  0 <= na <= 68 -> 0 <= nb <= 68 ->
  (sign_float (PrimFloat.sub (tenth nb) (tenth na)) = Gt <-> na < nb).
Proof.
  intros Ha Hb.
  pose proof (upTo_forallb2 68
                (fun na nb => Bool.eqb (isGt (sign_float (PrimFloat.sub (tenth nb) (tenth na))))
                                       (na <? nb))
                ltac:(vm_compute; reflexivity) na nb Ha Hb) as H.
  cbv beta in H. apply eqb_prop in H.
  destruct (sign_float _); cbn [isGt] in H; split; intros Hc;
    try discriminate; try reflexivity;
    try (apply Z.ltb_lt in Hc; congruence); symmetry in H; now apply Z.ltb_lt.
Qed.

Lemma tenth_leb (na nb : Z) :
  0 <= na <= 68 -> 0 <= nb <= 68 -> nb <= na ->
  PrimFloat.leb (tenth nb) (tenth na) = true.
Proof.
  intros Ha Hb Hle.
  pose proof (upTo_forallb2 68
                (fun na nb => implb (nb <=? na) (PrimFloat.leb (tenth nb) (tenth na)))
                ltac:(vm_compute; reflexivity) na nb Ha Hb) as H.
  cbv beta in H. apply Z.leb_le in Hle. rewrite Hle in H. exact H.
Qed.

Lemma tenth_eqb (na nb : Z) :
  0 <= na <= 68 -> 0 <= nb <= 68 ->
  PrimFloat.eqb (tenth na) (tenth nb) = true -> na = nb.
Proof.
  intros Ha Hb He.
  pose proof (upTo_forallb2 68
                (fun na nb => implb (PrimFloat.eqb (tenth na) (tenth nb)) (na =? nb))
                ltac:(vm_compute; reflexivity) na nb Ha Hb) as H.
  cbv beta in H. rewrite He in H. now apply Z.eqb_eq.
Qed.

Section Handler.
Variable Db : Type.
Variable findNearby : Db -> float * float -> float -> list SafetyReport.t * Db.

Lemma mapRoutes_scored (routes todo : list DirectionsRoute) :
  forall db index,
    Forall2 (scoredFrom Db findNearby routes) todo
            (fst (mapRoutes Db findNearby routes db index todo)).
Proof.
  induction todo as [|route rest IH]; intros db index; cbn [mapRoutes]; [constructor|].
  pose proof (eq_refl (fst (calculateRouteSafetyScore Db findNearby db (overview_polyline route))))
    as Hs.
  destruct (calculateRouteSafetyScore Db findNearby db (overview_polyline route))
    as [score db1] eqn:E in Hs at 1 |- *.
  specialize (IH db1 (S index)).
  destruct (mapRoutes Db findNearby routes db1 (S index) rest) as [processed db2].
  cbn [fst] in *. constructor; [|exact IH].
  exists index, db. rewrite <- Hs. reflexivity.
Qed.

Lemma overall_below_8 (db : Db) (polyline : JsString) :
  PrimFloat.leb 8 (overall (fst (calculateRouteSafetyScore Db findNearby db polyline))) = false.
Proof.
  destruct (overall_cases Db findNearby db polyline) as [(_ & Ho & _) | (_ & n & Hn & Ho & _)];
    rewrite Ho; [reflexivity|].
  apply tenth_below_8. lia.
Qed.

(** A processed route whose score is not a [NaN] has one of the tenths as
    its score. *)
Lemma processed_onGrid (routes todo : list DirectionsRoute) (db : Db) (index : nat) :
  Forall (fun p => is_nan (safetyScore p) = false)
         (fst (mapRoutes Db findNearby routes db index todo)) ->
  Forall onGrid (fst (mapRoutes Db findNearby routes db index todo)).
Proof.
  pose proof (mapRoutes_scored routes todo db index) as H.
  induction H as [|route p todo' l (i & db' & ->) _ IH]; intros Hnan; [constructor|].
  inversion Hnan as [|? ? Hp Hl]; subst.
  constructor; [|exact (IH Hl)].
  cbn [safetyScore processRoute] in Hp |- *.
  destruct (overall_cases Db findNearby db' (overview_polyline route))
    as [(_ & Ho & _) | (_ & n & Hn & Ho & _)].
  - rewrite Ho in Hp. discriminate Hp.
  - exists n. split; [lia | exact Ho].
Qed.


(** X11: every route of the response is labelled [fastest] or [balanced]:
    [fastest] exactly when no route of the response has a shorter
    duration, [balanced] otherwise; the label [safest] is never assigned.
    A response that is not empty has a route labelled [fastest]. *)
Theorem routeType_classified (db : Db) (routes : list DirectionsRoute)
        (routePreference : string) :
  let ranked := fst (calculate Db findNearby db routes routePreference) in
  (forall p, In p ranked ->
     (routeType p = fastest /\
      forall other, In other routes -> duration_seconds p <= duration_value other) \/
     (routeType p = balanced /\
      exists other, In other routes /\ duration_value other < duration_seconds p)) /\
  (routes <> [] -> exists p, In p ranked /\ routeType p = fastest).
Proof.
  cbv zeta. unfold calculate.
  pose proof (mapRoutes_scored routes routes db 0) as HF.
  destruct (mapRoutes Db findNearby routes db 0 routes) as [processed db'].
  cbn [fst] in *.
  pose proof (sort_Permutation (compareRoutes routePreference) processed) as Hperm.
  split.
  - intros p Hp. apply (Permutation_in _ Hperm) in Hp.
    destruct (Forall2_In_r _ _ _ _ HF Hp) as (route & Hroute & index & db0 & ->).
    cbn [routeType duration_seconds processRoute].
    apply determineRouteType_cases; [|exact Hroute].
    apply overall_below_8.
  - intros Hne.
    destruct (Math_min_spread_some (map duration_value routes)) as (m & _ & Hm & Hall).
    { destruct routes; [congruence | discriminate]. }
    apply in_map_iff in Hm. destruct Hm as (route & Hd & Hroute).
    destruct (Forall2_In_l _ _ _ _ HF Hroute) as (p & Hp & index & db0 & ->).
    exists (processRoute routes index route
              (fst (calculateRouteSafetyScore Db findNearby db0 (overview_polyline route)))).
    split; [exact (Permutation_in _ (Permutation_sym Hperm) Hp)|].
    cbn [routeType processRoute]. apply determineRouteType_minimal; [exact Hroute|].
    intros other Ho. rewrite Hd. apply Hall. now apply in_map.
Qed.

(** X12: whatever the preference, the ranked list is a rearrangement of the
    list produced by the [map] callback: one entry per route of the
    response, none dropped or repeated. *)
Theorem ranking_rearranges (db : Db) (routes : list DirectionsRoute)
        (routePreference : string) :
  let processed := fst (mapRoutes Db findNearby routes db 0 routes) in
  let ranked := fst (calculate Db findNearby db routes routePreference) in
  Permutation ranked processed /\
  List.length ranked = List.length routes /\
  Permutation (map polyline ranked) (map overview_polyline routes).
Proof.
  cbv zeta. unfold calculate.
  pose proof (mapRoutes_Forall2 Db findNearby routes routes db 0) as HF.
  destruct (mapRoutes Db findNearby routes db 0 routes) as [processed db'].
  cbn [fst] in *.
  assert (Hpoly : map polyline processed = map overview_polyline routes).
  { induction HF as [|route p todo l (index & score & ->) _ IH]; [reflexivity|].
    cbn [map]. now rewrite IH. }
  pose proof (sort_Permutation (compareRoutes routePreference) processed) as Hperm.
  split; [exact Hperm|]. split.
  - rewrite (Permutation_length Hperm). symmetry. exact (Forall2_length HF).
  - rewrite <- Hpoly. now apply Permutation_map.
Qed.

(** X13: under preference [safest], when no score is a [NaN], the ranked
    list is in descending order of score, and routes of equal score keep
    the order of the response. *)
Theorem safest_ranking_sorted_stable (db : Db) (routes : list DirectionsRoute) :
  let processed := fst (mapRoutes Db findNearby routes db 0 routes) in
  let ranked := fst (calculate Db findNearby db routes "safest") in
  Forall (fun p => is_nan (safetyScore p) = false) processed ->
  Permutation ranked processed /\
  StronglySorted (fun a b => PrimFloat.leb (safetyScore b) (safetyScore a) = true) ranked /\
  (forall x, filter (fun p => PrimFloat.eqb (safetyScore p) x) ranked
             = filter (fun p => PrimFloat.eqb (safetyScore p) x) processed).
Proof.
  cbv zeta. unfold calculate.
  pose proof (processed_onGrid routes routes db 0) as HG.
  destruct (mapRoutes Db findNearby routes db 0 routes) as [processed db'].
  cbn [fst] in *. intros Hnan. specialize (HG Hnan).
  split; [apply sort_Permutation|]. split.
  - apply (StronglySorted_on onGrid
             (fun a b => - tenths (safetyScore a) <= - tenths (safetyScore b))).
    + intros a b (na & Ha & Ea) (nb & Hb & Eb) Hle.
      rewrite Ea, Eb in *. rewrite !tenths_tenth in Hle by assumption.
      apply tenth_leb; try assumption. lia.
    + now apply sort_Forall.
    + apply (sort_sorted_on _ onGrid (fun p => - tenths (safetyScore p))); [|exact HG].
      intros a b (na & Ha & Ea) (nb & Hb & Eb).
      change (compareRoutes "safest" a b)
        with (sign_float (PrimFloat.sub (safetyScore b) (safetyScore a))).
      rewrite Ea, Eb, !tenths_tenth by assumption.
      rewrite tenth_compare by assumption. lia.
  - intros x. apply (sort_filter_on _ onGrid); [|exact HG].
    intros a b (na & Ha & Ea) (nb & Hb & Eb) Fa Fb.
    change (compareRoutes "safest" a b)
      with (sign_float (PrimFloat.sub (safetyScore b) (safetyScore a))).
    rewrite Ea, Eb in *.
    pose proof (tenth_eqb na nb Ha Hb (eqb_trans_r _ _ _ Fa Fb)) as ->.
    intros Hgt. apply tenth_compare in Hgt; try assumption. lia.
Qed.


(** X14: under preference [fastest] the first route of the ranked list is
    labelled [fastest] and no route of the response is shorter; the ranked
    list is empty only when the response has no route. *)
Theorem fastest_ranking_head (db : Db) (routes : list DirectionsRoute) :
  match fst (calculate Db findNearby db routes "fastest") with
  | p :: _ =>
      routeType p = fastest /\
      forall other, In other routes -> duration_seconds p <= duration_value other
  | [] => routes = []
  end.
Proof.
  unfold calculate.
  pose proof (mapRoutes_Forall2 Db findNearby routes routes db 0) as HF.
  destruct (mapRoutes Db findNearby routes db 0 routes) as [processed db'].
  cbn [fst] in *.
  pose proof (sort_Permutation (compareRoutes "fastest") processed) as Hperm.
  pose proof (sort_sorted (compareRoutes "fastest") duration_seconds processed
                compareRoutes_fastest_Gt) as Hsorted.
  destruct (sort (compareRoutes "fastest") processed) as [|p rest].
  - apply Permutation_nil in Hperm. subst processed. now inversion HF.
  - assert (Hmin : forall other, In other routes -> duration_seconds p <= duration_value other).
    { intros other Ho.
      destruct (Forall2_In_l _ _ _ _ HF Ho) as (q & Hq & index & score & Eq).
      assert (Hd : duration_seconds q = duration_value other) by (now rewrite Eq).
      rewrite <- Hd.
      apply (Permutation_in _ (Permutation_sym Hperm)) in Hq.
      destruct Hq as [Hq | Hq]; [rewrite Hq; lia|].
      apply StronglySorted_inv in Hsorted. destruct Hsorted as [_ Hall].
      rewrite Forall_forall in Hall. exact (Hall _ Hq). }
    split; [|exact Hmin].
    assert (Hp : In p processed) by (apply (Permutation_in _ Hperm); now left).
    destruct (Forall2_In_r _ _ _ _ HF Hp) as (route & Hroute & index & score & ->).
    cbn [routeType processRoute]. now apply determineRouteType_minimal.
Qed.

End Handler.

Lemma safest_ranking_sorted_stable_witness :
  let route d s := {| distance_value := 1000; duration_value := d;
                      overview_polyline := of_string s |} in
  let routes := [route 600 "a"%string; route 400 "b"%string; route 500 "c"%string] in
  Forall (fun p => is_nan (safetyScore p) = false)
         (fst (mapRoutes nat drainedStore routes 1%nat 0 routes)) /\
  map safetyScore (fst (mapRoutes nat drainedStore routes 1%nat 0 routes))
  = [6.4; 6.8; 6.8]%float /\
  map duration_seconds (fst (calculate nat drainedStore 1%nat routes "safest"))
  = [400; 500; 600] /\
  StronglySorted (fun a b => PrimFloat.leb (safetyScore b) (safetyScore a) = true)
                 (fst (calculate nat drainedStore 1%nat routes "safest")).
Proof.
  cbv zeta.
  assert (Hnan : Forall (fun p => is_nan (safetyScore p) = false)
                        (fst (mapRoutes nat drainedStore
                                [{| distance_value := 1000; duration_value := 600;
                                    overview_polyline := of_string "a" |};
                                 {| distance_value := 1000; duration_value := 400;
                                    overview_polyline := of_string "b" |};
                                 {| distance_value := 1000; duration_value := 500;
                                    overview_polyline := of_string "c" |}] 1%nat 0
                                [{| distance_value := 1000; duration_value := 600;
                                    overview_polyline := of_string "a" |};
                                 {| distance_value := 1000; duration_value := 400;
                                    overview_polyline := of_string "b" |};
                                 {| distance_value := 1000; duration_value := 500;
                                    overview_polyline := of_string "c" |}])))
    by (vm_compute; repeat constructor).
  split; [exact Hnan|].
  split; [vm_compute; reflexivity|]. split; [vm_compute; reflexivity|].
  apply (safest_ranking_sorted_stable nat drainedStore 1%nat). exact Hnan.
Defined.

End RankingFacts.

(* ------------------------------------------------------------------------- *)
(** ** The order of binary64 numbers and the default ranking *)

Module OrderFacts.
Import JS Polyline Scoring Routes Shapes Binary64 ScoringFacts RoutesFacts.
Import Values ValueFacts Bounds ScoreBounds Ranking RankingFacts Order Scenarios.

Lemma val_lt_beyond (m : positive) (e : Z) :
  bounded prec emax m e = true -> 0 < val (Z.pos m) e < beyond.
Proof.
  unfold bounded. intros H. apply andb_true_iff in H. destruct H as [Hc He].
  apply Z.leb_le in He. change (emax - prec) with 971 in He.
  destruct (canonical_facts _ _ Hc) as (Hlo & Hd & _).
  pose proof (digits_bounds m) as Bm.
  split; [apply val_pos; lia|].
  apply Z.lt_le_trans with (val (2 ^ 53) e).
  - unfold val. apply Z.mul_lt_mono_pos_r; [apply Z.pow_pos_nonneg; lia|].
    apply Z.lt_le_trans with (2 ^ Z.pos (digits2_pos m)); [lia|].
    apply Z.pow_le_mono_r; lia.
  - rewrite val_pow by lia. unfold beyond. apply Z.pow_le_mono_r; lia.
Qed.

Lemma beyond_pos : 0 < beyond.
Proof. unfold beyond. apply Z.pow_pos_nonneg; lia. Qed.

(** Comparison of two numbers is comparison of their places. *)
Lemma SFcompare_ord (x y : spec_float) :
  valid_binary x = true -> valid_binary y = true ->
  x <> S754_nan -> y <> S754_nan ->
  SFcompare x y = Some (ord x ?= ord y).
Proof.
  intros Vx Vy Nx Ny.
  pose proof beyond_pos as Hbig.
  destruct x as [sx|sx| |sx mx ex]; try congruence;
    destruct y as [sy|sy| |sy my ey]; try congruence;
    cbn [valid_binary] in Vx, Vy;
    try (pose proof (val_lt_beyond _ _ Vx) as Bx);
    try (pose proof (val_lt_beyond _ _ Vy) as By).
  - reflexivity.
  - cbn [SFcompare ord]. f_equal. symmetry.
    destruct sy; cbn [cond_Zopp]; [apply Z.compare_gt_iff | apply Z.compare_lt_iff]; lia.
  - cbn [SFcompare ord]. f_equal. symmetry.
    destruct sy; cbn [cond_Zopp]; [apply Z.compare_gt_iff | apply Z.compare_lt_iff]; lia.
  - cbn [SFcompare ord]. f_equal. symmetry.
    destruct sx; cbn [cond_Zopp]; [apply Z.compare_lt_iff | apply Z.compare_gt_iff]; lia.
  - cbn [SFcompare ord]. f_equal. symmetry.
    destruct sx, sy; cbn [cond_Zopp];
      [apply Z.compare_eq_iff | apply Z.compare_lt_iff | apply Z.compare_gt_iff
       | apply Z.compare_eq_iff]; lia.
  - cbn [SFcompare ord]. f_equal. symmetry.
    destruct sx, sy; cbn [cond_Zopp];
      [apply Z.compare_lt_iff | apply Z.compare_lt_iff | apply Z.compare_gt_iff
       | apply Z.compare_gt_iff]; lia.
  - cbn [SFcompare ord]. f_equal. symmetry.
    destruct sx; cbn [cond_Zopp]; [apply Z.compare_lt_iff | apply Z.compare_gt_iff]; lia.
  - cbn [SFcompare ord]. f_equal. symmetry.
    destruct sy, sx; cbn [cond_Zopp];
      [apply Z.compare_gt_iff | apply Z.compare_gt_iff | apply Z.compare_lt_iff
       | apply Z.compare_lt_iff]; lia.
  - assert (Cx : canonical_mantissa prec emax mx ex = true)
      by (unfold bounded in Vx; now apply andb_true_iff in Vx).
    assert (Cy : canonical_mantissa prec emax my ey = true)
      by (unfold bounded in Vy; now apply andb_true_iff in Vy).
    pose proof (SFcompare_val mx ex my ey Cx Cy) as Hpos.
    pose proof (SFcompare_val my ey mx ex Cy Cx) as Hneg.
    destruct sx, sy; cbn [ord cond_Zopp].
    + (* both negative: the comparison is reversed *)
      rewrite Z.compare_opp. rewrite <- Hneg.
      cbn [SFcompare]. f_equal.
      rewrite (Z.compare_antisym ex ey).
      destruct (ex ?= ey); cbn [CompOpp]; try reflexivity.
      now rewrite (Pos.compare_cont_antisym mx my Eq).
    + cbn [SFcompare]. f_equal. symmetry. apply Z.compare_lt_iff. lia.
    + cbn [SFcompare]. f_equal. symmetry. apply Z.compare_gt_iff. lia.
    + exact Hpos.
Qed.

Lemma valid_exponent (s : bool) (m : positive) (e : Z) :
  valid_binary (S754_finite s m e) = true -> -1074 <= e.
Proof.
  cbn [valid_binary]. unfold bounded. intros H. apply andb_true_iff in H.
  destruct H as [Hc _]. now destruct (canonical_facts _ _ Hc).
Qed.

(** A positive exact value never rounds to zero. *)
Lemma binary_round_positive (p : positive) (e : Z) :
  -1074 <= e -> is_positive (binary_round prec emax false p e).
Proof.
  intros He.
  assert (H : pos_from 1 (-1074) (binary_round prec emax false p e)).
  { apply binary_round_from; [lia | reflexivity|].
    replace e with (-1074 + (e + 1074)) by lia. rewrite val_shift by lia.
    apply val_le_mono; [lia|].
    assert (0 < 2 ^ (e + 1074)) by (apply Z.pow_pos_nonneg; lia). nia. }
  destruct (binary_round _ _ _ _ _) as [s|[|]| |[|] m e']; cbn in H |- *; tauto.
Qed.

Lemma binary_round_negative (p : positive) (e : Z) :
  ~ is_positive (binary_round prec emax true p e).
Proof.
  pose proof (binary_round_signed true p e) as H.
  destruct (binary_round _ _ _ _ _) as [s|s| |s m e']; cbn in H |- *;
    try contradiction; subst; tauto.
Qed.

Lemma val_cond_Zopp (s : bool) (m e : Z) : cond_Zopp s (val m e) = val (cond_Zopp s m) e.
Proof. destruct s; unfold val; cbn [cond_Zopp]; ring. Qed.

(** The difference [y - x] is positive exactly when [x] lies before [y]. *)
Lemma SFsub_positive (y x : spec_float) :
  valid_binary x = true -> valid_binary y = true ->
  x <> S754_nan -> y <> S754_nan ->
  (is_positive (SFsub prec emax y x) <-> ord x < ord y).
Proof.
  intros Vx Vy Nx Ny.
  pose proof beyond_pos as Hbig.
  destruct x as [sx|sx| |sx mx ex]; try congruence;
    destruct y as [sy|sy| |sy my ey]; try congruence;
    try (pose proof (val_lt_beyond _ _ Vx) as Bx);
    try (pose proof (val_lt_beyond _ _ Vy) as By);
    try (pose proof (valid_exponent _ _ _ Vx) as Ex);
    try (pose proof (valid_exponent _ _ _ Vy) as Ey).
  - destruct sx, sy; cbn [SFsub is_positive ord cond_Zopp negb]; lia.
  - destruct sy; cbn [SFsub is_positive ord cond_Zopp negb]; lia.
  - destruct sy; cbn [SFsub is_positive ord cond_Zopp negb]; lia.
  - destruct sx; cbn [SFsub is_positive ord cond_Zopp negb]; lia.
  - destruct sx, sy; cbn [SFsub is_positive ord cond_Zopp negb]; lia.
  - destruct sx, sy; cbn [SFsub is_positive ord cond_Zopp negb]; lia.
  - destruct sx; cbn [SFsub is_positive ord cond_Zopp negb]; lia.
  - destruct sx, sy; cbn [SFsub is_positive ord cond_Zopp negb]; lia.
  - cbn [SFsub ord].
    set (ez := Z.min ey ex).
    destruct (shl_align_value my ey ez ltac:(lia)) as [HY _].
    destruct (shl_align_value mx ex ez ltac:(lia)) as [HX _].
    set (Y := fst (shl_align my ey ez)) in *.
    set (X := fst (shl_align mx ex ez)) in *.
    assert (Hy : val (Z.pos my) ey = val (Z.pos Y) ez).
    { rewrite HY, <- val_shift by lia. f_equal. lia. }
    assert (Hx : val (Z.pos mx) ex = val (Z.pos X) ez).
    { rewrite HX, <- val_shift by lia. f_equal. lia. }
    rewrite Hy, Hx, !val_cond_Zopp.
    assert (Hsign : val (cond_Zopp sx (Z.pos X)) ez < val (cond_Zopp sy (Z.pos Y)) ez
                    <-> 0 < cond_Zopp sy (Z.pos Y) - cond_Zopp sx (Z.pos X)).
    { split; intros H.
      - apply val_lt_cancel in H; lia.
      - unfold val. apply Z.mul_lt_mono_pos_r; [apply Z.pow_pos_nonneg; lia | lia]. }
    rewrite Hsign.
    unfold binary_normalize.
    destruct (cond_Zopp sy (Z.pos Y) - cond_Zopp sx (Z.pos X)) as [|p|p].
    + cbn [is_positive]. lia.
    + split; [lia|]. intros _. apply binary_round_positive. lia.
    + split; [|lia]. intros H. now apply binary_round_negative in H.
Qed.

Lemma sign_float_Gt (v : float) : sign_float v = Gt <-> is_positive (Prim2SF v).
Proof.
  unfold sign_float. rewrite !ltb_spec. unfold SFltb.
  change (Prim2SF 0) with (S754_zero false).
  destruct (Prim2SF v) as [s|[|]| |[|] m e]; cbn; split; try discriminate; tauto.
Qed.

(** The comparator [(a, b) => key(b) - key(a)] is positive exactly when
    [key(a) < key(b)], for keys that are not [NaN]. *)
Lemma sub_sign (x y : float) :
  Prim2SF x <> S754_nan -> Prim2SF y <> S754_nan ->
  (sign_float (PrimFloat.sub y x) = Gt <-> ord (Prim2SF x) < ord (Prim2SF y)).
Proof.
  intros Nx Ny. rewrite sign_float_Gt, sub_spec.
  apply SFsub_positive; auto using Prim2SF_valid.
Qed.

Lemma leb_ord (x y : float) :
  Prim2SF x <> S754_nan -> Prim2SF y <> S754_nan ->
  (PrimFloat.leb x y = true <-> ord (Prim2SF x) <= ord (Prim2SF y)).
Proof.
  intros Nx Ny. rewrite leb_spec. unfold SFleb.
  rewrite (SFcompare_ord _ _ (Prim2SF_valid x) (Prim2SF_valid y) Nx Ny).
  destruct (Z.compare_spec (ord (Prim2SF x)) (ord (Prim2SF y))); split;
    try discriminate; try reflexivity; lia.
Qed.

Lemma eqb_ord (x y : float) :
  PrimFloat.eqb x y = true -> ord (Prim2SF x) = ord (Prim2SF y).
Proof.
  rewrite eqb_spec. unfold SFeqb.
  destruct (SFcompare (Prim2SF x) (Prim2SF y)) as [[]|] eqn:Hc; try discriminate.
  intros _. destruct (SFcompare_Eq _ _ Hc) as [-> | (s & s' & -> & ->)]; reflexivity.
Qed.

(** *** Numbers that are not [NaN] *)

Lemma signed_not_nan (s : bool) (x : spec_float) : signed s x -> x <> S754_nan.
Proof. destruct x; cbn; congruence. Qed.

Lemma SFmul_not_nan (x : spec_float) (s : bool) (m : positive) (e : Z) :
  x <> S754_nan -> SFmul prec emax x (S754_finite s m e) <> S754_nan.
Proof.
  destruct x as [sx|sx| |sx mx ex]; intros Hx; try congruence; cbn [SFmul]; try discriminate.
  apply (signed_not_nan (xorb sx s)). apply binary_round_aux_signed. lia.
Qed.

Lemma SFdiv_not_nan (s : bool) (m : positive) (e : Z) (y : spec_float) :
  y <> S754_nan -> SFdiv prec emax (S754_finite s m e) y <> S754_nan.
Proof.
  destruct y as [sy|sy| |sy my ey]; intros Hy; try congruence; cbn [SFdiv]; try discriminate.
  unfold SFdiv_core_binary.
  set (e' := Z.min _ _). set (m' := match _ with Z0 => _ | _ => _ end).
  assert (Hm' : 0 <= m').
  { subst m'. destruct (e - ey - e'); [lia | apply Z.shiftl_nonneg; lia | lia]. }
  pose proof (Z.div_pos m' (Z.pos my) Hm' ltac:(lia)) as Hq.
  unfold Z.div in Hq.
  destruct (Z.div_eucl m' (Z.pos my)) as [q r].
  apply (signed_not_nan (xorb s sy)). apply binary_round_aux_signed. exact Hq.
Qed.

Lemma SFadd_not_nan (x y : spec_float) :
  match x with S754_zero _ | S754_finite _ _ _ => True | _ => False end ->
  y <> S754_nan -> SFadd prec emax x y <> S754_nan.
Proof.
  destruct x as [s|s| |s m e]; intros Hx; try contradiction;
    destruct y as [sy|sy| |sy my ey]; intros Hy; try congruence; cbn [SFadd];
    try discriminate.
  - destruct s, sy; discriminate.
  - unfold binary_normalize.
    destruct (_ + _) as [|p|p]; [discriminate | |].
    + apply (signed_not_nan false), binary_round_signed.
    + apply (signed_not_nan true), binary_round_signed.
Qed.

Lemma binary_normalize_not_nan (z e : Z) : binary_normalize prec emax z e false <> S754_nan.
Proof.
  destruct z as [|p|p]; cbn [binary_normalize]; [discriminate | |].
  - apply (signed_not_nan false), binary_round_signed.
  - apply (signed_not_nan true), binary_round_signed.
Qed.

Lemma SF2Prim_not_nan (x : spec_float) : x <> S754_nan -> Prim2SF (SF2Prim x) <> S754_nan.
Proof.
  destruct x as [sx|sx| |s m e]; intros Hx; try congruence.
  1, 2: destruct sx; vm_compute; discriminate.
  unfold SF2Prim, Z.ldexp.
  set (pm := of_uint63 _). set (sh := Uint63.of_Z _).
  assert (H : Prim2SF (ldshiftexp pm sh) <> S754_nan).
  { rewrite ldshiftexp_spec. subst pm. rewrite of_uint63_spec.
    match goal with
    | |- SFldexp _ _ (binary_normalize _ _ ?z _ _) _ <> _ =>
        pose proof (binary_normalize_not_nan z 0) as Hn
    end.
    destruct (binary_normalize _ _ _ _ _) as [s'|s'| |s' m' e']; try congruence;
      cbn [SFldexp]; try discriminate.
    apply (signed_not_nan s'), binary_round_signed. }
  destruct s; [|exact H].
  rewrite opp_spec. destruct (Prim2SF (ldshiftexp pm sh)); cbn; congruence.
Qed.

Lemma Z2float_not_nan (z : Z) : Prim2SF (Z2float z) <> S754_nan.
Proof. apply SF2Prim_not_nan, binary_normalize_not_nan. Qed.

Lemma tenth_weighted_finite (n : Z) :
  0 <= n <= 68 -> is_finite (PrimFloat.mul (tenth n) 0.6) = true.
Proof.
  apply (upTo_forallb 68 (fun n => is_finite (PrimFloat.mul (tenth n) 0.6))).
  vm_compute. reflexivity.
Qed.

(** The combined score of a route whose safety score is a tenth is never
    [NaN], whatever the duration. *)
Lemma combinedScore_not_nan (p : ProcessedRoute) :
  onGrid p -> Prim2SF (combinedScore p) <> S754_nan.
Proof.
  intros (n & Hn & Hs). unfold combinedScore. rewrite Hs.
  pose proof (tenth_weighted_finite n Hn) as Hf. unfold is_finite in Hf.
  rewrite add_spec.
  apply SFadd_not_nan; [destruct (Prim2SF (tenth n * 0.6)); try discriminate; exact I|].
  rewrite mul_spec. change (Prim2SF 0.4) with (S754_finite false 7205759403792794 (-54)).
  apply SFmul_not_nan.
  rewrite mul_spec. change (Prim2SF 10000) with (S754_finite false 5497558138880000 (-39)).
  apply SFmul_not_nan.
  rewrite div_spec. change (Prim2SF 1) with (S754_finite false 4503599627370496 (-52)).
  apply SFdiv_not_nan, Z2float_not_nan.
Qed.


Lemma compareRoutes_default (routePreference : string) (a b : ProcessedRoute) :
  String.eqb routePreference "safest" = false ->
  String.eqb routePreference "fastest" = false ->
  compareRoutes routePreference a b
  = sign_float (PrimFloat.sub (combinedScore b) (combinedScore a)).
Proof. intros H1 H2. unfold compareRoutes. rewrite H1, H2. reflexivity. Qed.

Section Handler.
Variable Db : Type.
Variable findNearby : Db -> float * float -> float -> list SafetyReport.t * Db.

(** X15: under any preference other than [safest] and [fastest], when no
    score is a [NaN], the ranked list is in descending order of the
    combined score
    [safetyScore * 0.6 + (1 / duration.seconds) * 10000 * 0.4], and routes
    of equal combined score keep the order of the response, whatever the
    durations (a duration of zero gives an infinite combined score, never
    a [NaN]). *)
Theorem default_ranking_sorted_stable (db : Db) (routes : list DirectionsRoute)
        (routePreference : string) :
  String.eqb routePreference "safest" = false ->
  String.eqb routePreference "fastest" = false ->
  let processed := fst (mapRoutes Db findNearby routes db 0 routes) in
  let ranked := fst (calculate Db findNearby db routes routePreference) in
  Forall (fun p => is_nan (safetyScore p) = false) processed ->
  Permutation ranked processed /\
  StronglySorted (fun a b => PrimFloat.leb (combinedScore b) (combinedScore a) = true) ranked /\
  (forall x, filter (fun p => PrimFloat.eqb (combinedScore p) x) ranked
             = filter (fun p => PrimFloat.eqb (combinedScore p) x) processed).
Proof.
  intros H1 H2. cbv zeta. unfold calculate.
  pose proof (processed_onGrid Db findNearby routes routes db 0) as HG.
  destruct (mapRoutes Db findNearby routes db 0 routes) as [processed db'].
  cbn [fst] in *. intros Hnan. specialize (HG Hnan).
  split; [apply sort_Permutation|]. split.
  - apply (StronglySorted_on onGrid
             (fun a b => - ord (Prim2SF (combinedScore a)) <= - ord (Prim2SF (combinedScore b)))).
    + intros a b Ga Gb Hle.
      apply leb_ord; [now apply combinedScore_not_nan | now apply combinedScore_not_nan | lia].
    + now apply sort_Forall.
    + apply (sort_sorted_on _ onGrid (fun p => - ord (Prim2SF (combinedScore p)))); [|exact HG].
      intros a b Ga Gb.
      rewrite (compareRoutes_default _ _ _ H1 H2).
      rewrite sub_sign by now apply combinedScore_not_nan. lia.
  - intros x. apply (sort_filter_on _ onGrid); [|exact HG].
    intros a b Ga Gb Fa Fb.
    rewrite (compareRoutes_default _ _ _ H1 H2).
    rewrite sub_sign by now apply combinedScore_not_nan.
    pose proof (eqb_ord _ _ (eqb_trans_r _ _ _ Fa Fb)). lia.
Qed.

End Handler.

Lemma default_ranking_sorted_stable_witness :
  let route d s := {| distance_value := 1000; duration_value := d;
                      overview_polyline := of_string s |} in
  let routes := [route 600 "a"%string; route 0 "b"%string; route 500 "c"%string] in
  String.eqb "balanced" "safest" = false /\ String.eqb "balanced" "fastest" = false /\
  Forall (fun p => is_nan (safetyScore p) = false)
         (fst (mapRoutes nat drainedStore routes 1%nat 0 routes)) /\
  StronglySorted (fun a b => PrimFloat.leb (combinedScore b) (combinedScore a) = true)
                 (fst (calculate nat drainedStore 1%nat routes "balanced")).
Proof.
  cbv zeta. split; [reflexivity|]. split; [reflexivity|].
  assert (Hnan : Forall (fun p => is_nan (safetyScore p) = false)
                        (fst (mapRoutes nat drainedStore
                                [{| distance_value := 1000; duration_value := 600;
                                    overview_polyline := of_string "a" |};
                                 {| distance_value := 1000; duration_value := 0;
                                    overview_polyline := of_string "b" |};
                                 {| distance_value := 1000; duration_value := 500;
                                    overview_polyline := of_string "c" |}] 1%nat 0
                                [{| distance_value := 1000; duration_value := 600;
                                    overview_polyline := of_string "a" |};
                                 {| distance_value := 1000; duration_value := 0;
                                    overview_polyline := of_string "b" |};
                                 {| distance_value := 1000; duration_value := 500;
                                    overview_polyline := of_string "c" |}])))
    by (vm_compute; repeat constructor).
  split; [exact Hnan|].
  apply (default_ranking_sorted_stable nat drainedStore 1%nat _ "balanced");
    [reflexivity | reflexivity | exact Hnan].
Defined.

End OrderFacts.

(* ------------------------------------------------------------------------- *)
(** ** The round trip through the polyline codec *)

Module CodecFacts.
Import JS Polyline Shapes Binary64 ScoringFacts PolylineFacts.
Import Values ValueFacts ScoreBounds Order OrderFacts.

(** *** Rounding stays near the exact value *)

(** The exact value is [mx * 2^ex] or lies between it and [(mx + 1) * 2^ex];
    the rounded result stays within [3 * 2^E] of that interval when the
    value is below [2^(E + 53)]. *)
Lemma binary_round_aux_near (s : bool) (mx ex : Z) (lx : location) (E : Z) :
  0 <= mx -> -2200 <= ex <= E -> -1074 <= E < 970 -> mx < 2 ^ (E + 53 - ex) ->
  exists r, 0 <= r /\
    match binary_round_aux prec emax s mx ex lx with
    | S754_zero _ | S754_finite _ _ _ => True
    | _ => False
    end /\
    ord (binary_round_aux prec emax s mx ex lx) = cond_Zopp s r /\
    val (mx + 1) ex - 3 * val 1 E <= r <= val mx ex + val 1 E.
Proof.
  intros Hm [Hex HexE] HE Hlt.
  pose proof (Zdigits2_le _ _ (conj Hm Hlt)) as Hdig.
  unfold binary_round_aux.
  destruct (shr_fexp prec emax mx ex lx) as [mrs1 e1] eqn:E1.
  destruct (shr_fexp_cases _ _ _ Hm _ _ E1) as [Hm1 Hc1].
  pose proof (round_nearest_even_range (shr_m mrs1) (loc_of_shr_record mrs1)) as Hr.
  set (m1 := shr_m mrs1) in *.
  set (m2 := round_nearest_even m1 (loc_of_shr_record mrs1)) in *.
  (* the first shift *)
  assert (H1 : ex <= e1 <= E /\ val m1 e1 <= val mx ex /\ val (mx + 1) ex <= val (m1 + 1) e1).
  { destruct Hc1 as [[He1 Hq] | (Hlt1 & He1 & Hq)].
    - rewrite He1, Hq. lia.
    - rewrite fexp_unfold in He1. split; [lia|].
      assert (Hp : 0 < 2 ^ (e1 - ex)) by (apply Z.pow_pos_nonneg; lia).
      pose proof (Z.div_mod mx (2 ^ (e1 - ex)) ltac:(lia)) as Hdm.
      pose proof (Z.mod_pos_bound mx (2 ^ (e1 - ex)) Hp) as Hrem.
      rewrite <- Hq in Hdm.
      replace (val m1 e1) with (val (m1 * 2 ^ (e1 - ex)) ex)
        by (rewrite <- val_shift by lia; f_equal; lia).
      replace (val (m1 + 1) e1) with (val ((m1 + 1) * 2 ^ (e1 - ex)) ex)
        by (rewrite <- val_shift by lia; f_equal; lia).
      split; apply val_le_mono; nia. }
  destruct H1 as ((Hle1 & He1E) & H1lo & H1hi).
  assert (Hm1lt : m1 < 2 ^ (E + 53 - e1)).
  { apply (val_lt_cancel _ _ e1); [lia|].
    apply Z.le_lt_trans with (1 := H1lo).
    replace (val (2 ^ (E + 53 - e1)) e1) with (val (2 ^ (E + 53 - ex)) ex)
      by (rewrite !val_pow by lia; f_equal; lia).
    unfold val. apply Z.mul_lt_mono_pos_r; [apply Z.pow_pos_nonneg; lia | exact Hlt]. }
  assert (Hr0 : 0 <= m2) by lia.
  assert (Hm2lt : m2 < 2 ^ (E + 54 - e1)).
  { replace (E + 54 - e1) with (1 + (E + 53 - e1)) by lia.
    rewrite Z.pow_add_r by lia. change (2 ^ 1) with 2. lia. }
  pose proof (Zdigits2_le _ _ (conj Hr0 Hm2lt)) as Hdig2.
  destruct (shr_fexp prec emax m2 e1 loc_Exact) as [mrs2 e2] eqn:E2.
  destruct (shr_fexp_cases _ _ _ Hr0 _ _ E2) as [Hm3 Hc2].
  set (m3 := shr_m mrs2) in *.
  assert (H2 : e1 <= e2 <= E + 1 /\ val m3 e2 <= val m2 e1 /\ val m2 e1 < val (m3 + 1) e2).
  { destruct Hc2 as [[He2 Hq] | (Hlt2 & He2 & Hq)].
    - rewrite He2, Hq. split; [lia|]. split; [lia|].
      rewrite val_add. pose proof (val_pos 1 e1 ltac:(lia) ltac:(lia)). lia.
    - rewrite fexp_unfold in He2. split; [lia|].
      assert (Hp : 0 < 2 ^ (e2 - e1)) by (apply Z.pow_pos_nonneg; lia).
      pose proof (Z.div_mod m2 (2 ^ (e2 - e1)) ltac:(lia)) as Hdm.
      pose proof (Z.mod_pos_bound m2 (2 ^ (e2 - e1)) Hp) as Hrem.
      rewrite <- Hq in Hdm.
      replace (val m3 e2) with (val (m3 * 2 ^ (e2 - e1)) e1)
        by (rewrite <- val_shift by lia; f_equal; lia).
      replace (val (m3 + 1) e2) with (val ((m3 + 1) * 2 ^ (e2 - e1)) e1)
        by (rewrite <- val_shift by lia; f_equal; lia).
      split; [apply val_le_mono; nia|].
      unfold val. apply Z.mul_lt_mono_pos_r; [apply Z.pow_pos_nonneg; lia | nia]. }
  destruct H2 as ((Hle2 & He2E) & H2lo & H2hi).
  assert (Hb1 : val 1 e1 <= val 1 E).
  { unfold val. rewrite !Z.mul_1_l. apply Z.pow_le_mono_r; lia. }
  assert (Hb2 : val 1 e2 <= 2 * val 1 E).
  { apply Z.le_trans with (val 1 (E + 1)).
    - unfold val. rewrite !Z.mul_1_l. apply Z.pow_le_mono_r; lia.
    - rewrite val_shift by lia. unfold val. change (1 * 2 ^ 1) with 2. lia. }
  assert (Hbr : val (mx + 1) ex - 3 * val 1 E <= val m3 e2 <= val mx ex + val 1 E).
  { rewrite (val_add m1 1 e1), (val_add mx 1 ex) in H1hi.
    rewrite (val_add m3 1 e2) in H2hi. rewrite (val_add mx 1 ex).
    assert (val m1 e1 <= val m2 e1 <= val m1 e1 + val 1 e1).
    { rewrite <- val_add. split; apply val_le_mono; lia. }
    lia. }
  destruct m3 as [|m|m] eqn:Hm3e; [| |lia].
  - exists 0. change (val 0 e2) with 0 in Hbr.
    repeat split; try lia. now destruct s.
  - replace (e2 <=? emax - prec) with true
      by (symmetry; apply Z.leb_le; change (emax - prec) with 971; lia).
    exists (val (Z.pos m) e2).
    pose proof (val_pos (Z.pos m) e2 ltac:(lia) ltac:(lia)).
    repeat split; lia.
Qed.

Lemma val_exp_bound (m e k j : Z) :
  0 <= j -> 2 ^ j <= m -> -2200 <= e -> val m e < val 1 k -> e + j < k /\ m < 2 ^ (k - e).
Proof.
  intros Hj Hm He Hv.
  assert (Hm0 : 0 < m) by (pose proof (Z.pow_pos_nonneg 2 j ltac:(lia) Hj); lia).
  assert (Hk : -2200 <= k).
  { destruct (Z.leb_spec (-2200) k) as [|Hlt]; [assumption|exfalso].
    unfold val in Hv. rewrite (Z.pow_neg_r 2 (k + 2200)) in Hv by lia.
    pose proof (val_pos m e Hm0 He). unfold val in *. lia. }
  assert (Hek : e + j < k).
  { destruct (Z.ltb_spec (e + j) k) as [|Hge]; [assumption|exfalso].
    assert (val 1 k <= val (2 ^ j) e).
    { rewrite val_pow by lia. unfold val. rewrite Z.mul_1_l. apply Z.pow_le_mono_r; lia. }
    assert (val (2 ^ j) e <= val m e) by (apply val_le_mono; lia).
    lia. }
  split; [exact Hek|].
  apply (val_lt_cancel _ _ e He).
  rewrite val_pow by lia. replace (k - e + e + 2200) with (k + 2200) by lia.
  unfold val in Hv. now rewrite Z.mul_1_l in Hv.
Qed.

Lemma val_scale (m e : Z) : val m e = m * val 1 e.
Proof. unfold val. ring. Qed.

Lemma abs_cond_Zopp (s : bool) (a b : Z) :
  Z.abs (cond_Zopp s a - cond_Zopp s b) = Z.abs (a - b).
Proof. destruct s; cbn [cond_Zopp]; lia. Qed.

(** *** The product by 1e5 *)

Lemma mul_near (x : float) :
  is_finite x = true -> Z.abs (ord (Prim2SF x)) <= val 180 0 ->
  is_finite (x * 100000) = true /\
  Z.abs (ord (Prim2SF (x * 100000)) - 100000 * ord (Prim2SF x)) <= 3 * val 1 (-28).
Proof.
  unfold is_finite. rewrite mul_spec. unfold SF64mul.
  change (Prim2SF 100000) with (S754_finite false 6871947673600000 (-36)).
  destruct (Prim2SF x) as [s| | |s m e] eqn:Ex; try discriminate; intros _ Hx.
  - cbn [SFmul ord]. split; [reflexivity|]. cbn. lia.
  - cbn [SFmul]. rewrite xorb_false_r.
    destruct (canonical_facts _ _ (valid_canonical _ _ _ _ Ex)) as (He & _).
    cbn [ord] in Hx |- *.
    assert (Hv : val (Z.pos m) e <= val 180 0) by (destruct s; cbn [cond_Zopp] in Hx; lia).
    assert (Hprod : val (Z.pos (m * 6871947673600000)) (e + -36) = 100000 * val (Z.pos m) e).
    { unfold val. rewrite Pos2Z.inj_mul.
      replace (e + 2200) with (36 + (e + -36 + 2200)) by lia.
      rewrite (Z.pow_add_r 2 36) by lia.
      change (Z.pos 6871947673600000) with (100000 * 2 ^ 36). ring. }
    destruct (val_exp_bound (Z.pos (m * 6871947673600000)) (e + -36) 25 52) as [Hek Hlt];
      [lia | | lia | |].
    { rewrite Pos2Z.inj_mul. change (2 ^ 52) with (1 * 2 ^ 52).
      apply Z.mul_le_mono_nonneg; lia. }
    { rewrite Hprod. apply Z.le_lt_trans with (100000 * val 180 0); [lia | reflexivity]. }
    destruct (binary_round_aux_near s (Z.pos (m * 6871947673600000)) (e + -36) loc_Exact (-28))
      as (r & Hr0 & Hfin & Hord & Hlo & Hhi); [lia | lia | lia | exact Hlt |].
    split.
    + destruct (binary_round_aux _ _ _ _ _ _); try contradiction; reflexivity.
    + rewrite Hord.
      replace (100000 * cond_Zopp s (val (Z.pos m) e))
        with (cond_Zopp s (100000 * val (Z.pos m) e)) by (destruct s; cbn [cond_Zopp]; ring).
      rewrite abs_cond_Zopp. rewrite val_add, Hprod in Hlo. rewrite Hprod in Hhi.
      pose proof (val_pos 1 (e + -36) ltac:(lia) ltac:(lia)).
      pose proof (val_pos 1 (-28) ltac:(lia) ltac:(lia)). lia.
Qed.

(** *** The nearest integer *)

Lemma nearest_div (M p : Z) :
  0 < p ->
  (2 * ((2 * M + p) / (2 * p)) - 1) * p <= 2 * M < (2 * ((2 * M + p) / (2 * p)) + 1) * p.
Proof.
  intros Hp.
  pose proof (Z.div_mod (2 * M + p) (2 * p) ltac:(lia)) as Hdm.
  pose proof (Z.mod_pos_bound (2 * M + p) (2 * p) ltac:(lia)) as Hr.
  set (n := (2 * M + p) / (2 * p)) in *.
  set (r := (2 * M + p) mod (2 * p)) in *. nia.
Qed.

Lemma quantise_nearest (x : float) :
  is_finite (x * 100000) = true ->
  Z.abs (2 * val (quantise x) 0 - 2 * ord (Prim2SF (x * 100000))) <= val 1 0.
Proof.
  unfold quantise, is_finite.
  destruct (Prim2SF (x * 100000)) as [s|s| |s m e] eqn:Eu; try discriminate; intros _;
    cbn [ord];
    try (change (val 0 0) with 0; rewrite Z.sub_diag; cbn [Z.abs];
         apply Z.lt_le_incl, val_pos; lia).
  destruct (canonical_facts _ _ (valid_canonical _ _ _ _ Eu)) as (He & _).
  destruct (Z.leb_spec 0 e) as [Hpos|Hneg].
  - replace (val (cond_Zopp s (Z.pos m) * 2 ^ e) 0) with (cond_Zopp s (val (Z.pos m) e)).
    + rewrite Z.sub_diag. cbn [Z.abs]. apply Z.lt_le_incl, val_pos; lia.
    + unfold val. replace (e + 2200) with (e + (0 + 2200)) by lia.
      rewrite (Z.pow_add_r 2 e) by lia. destruct s; cbn [cond_Zopp]; ring.
  - set (p := 2 ^ (- e)).
    assert (Hp : 0 < p) by (apply Z.pow_pos_nonneg; lia).
    assert (Hp1 : 2 ^ (1 - e) = 2 * p).
    { unfold p. replace (1 - e) with (1 + - e) by lia. rewrite Z.pow_add_r by lia. reflexivity. }
    rewrite Hp1.
    pose proof (nearest_div (cond_Zopp s (Z.pos m)) p Hp) as [Hlo Hhi].
    set (M := cond_Zopp s (Z.pos m)) in *.
    set (n := (2 * M + p) / (2 * p)) in *.
    set (q := 2 ^ (e + 2200)).
    assert (Hq : 0 < q) by (apply Z.pow_pos_nonneg; lia).
    assert (Hpq : 2 ^ (0 + 2200) = p * q).
    { unfold p, q. rewrite <- Z.pow_add_r by lia. f_equal. lia. }
    replace (cond_Zopp s (val (Z.pos m) e)) with (M * q)
      by (unfold M, val, q; destruct s; cbn [cond_Zopp]; ring).
    unfold val. rewrite Hpq.
    assert (H1 : (2 * n - 1) * p * q <= 2 * M * q) by (apply Z.mul_le_mono_nonneg_r; lia).
    assert (H2 : 2 * M * q < (2 * n + 1) * p * q) by (apply Z.mul_lt_mono_pos_r; lia).
    apply Z.abs_le. split; nia.
Qed.

(** *** The binary64 value of an integer *)

Lemma binary_round_aux_opp (mx ex : Z) (lx : location) :
  binary_round_aux prec emax true mx ex lx
  = SFopp (binary_round_aux prec emax false mx ex lx).
Proof.
  unfold binary_round_aux.
  destruct (shr_fexp prec emax mx ex lx) as [mrs1 e1].
  destruct (shr_fexp prec emax _ e1 loc_Exact) as [mrs2 e2].
  destruct (shr_m mrs2); try reflexivity.
  destruct (e2 <=? emax - prec); reflexivity.
Qed.

Lemma binary_round_opp (m : positive) (e : Z) :
  binary_round prec emax true m e = SFopp (binary_round prec emax false m e).
Proof.
  unfold binary_round. destruct (shl_align m e _) as [mz ez]. apply binary_round_aux_opp.
Qed.

Lemma Z2float_spec (n : Z) :
  Z.abs n < 2 ^ 62 -> Prim2SF (Z2float n) = binary_normalize prec emax n 0 false.
Proof.
  intros Hn. unfold Z2float.
  assert (Hpos : forall p, Z.pos p < 2 ^ 62 ->
                           binary_normalize prec emax (Z.pos p) 0 false
                           = Prim2SF (of_uint63 (Uint63.of_Z (Z.pos p)))).
  { intros p Hp. rewrite of_uint63_spec. f_equal.
    rewrite Uint63.of_Z_spec. rewrite Z.mod_small; [reflexivity|].
    split; [lia|]. apply Z.lt_trans with (1 := Hp). reflexivity. }
  destruct n as [|p|p].
  - reflexivity.
  - rewrite Hpos by lia. now rewrite SF2Prim_Prim2SF.
  - change (binary_normalize prec emax (Z.neg p) 0 false)
      with (binary_round prec emax true p 0).
    rewrite binary_round_opp.
    change (binary_round prec emax false p 0)
      with (binary_normalize prec emax (Z.pos p) 0 false).
    rewrite Hpos by lia. rewrite <- opp_spec. now rewrite SF2Prim_Prim2SF.
Qed.

Lemma binary_round_near (s : bool) (p : positive) :
  Z.pos p < 2 ^ 25 ->
  exists r, 0 <= r /\
    match binary_round prec emax s p 0 with
    | S754_zero _ | S754_finite _ _ _ => True
    | _ => False
    end /\
    ord (binary_round prec emax s p 0) = cond_Zopp s r /\
    Z.abs (r - val (Z.pos p) 0) <= 3 * val 1 (-28).
Proof.
  intros Hp. unfold binary_round.
  pose proof (digits_bounds p) as Bp.
  assert (Hd : Z.pos (digits2_pos p) <= 25).
  { destruct (Z.leb_spec (Z.pos (digits2_pos p)) 25) as [|Hgt]; [assumption|exfalso].
    assert (2 ^ 25 <= 2 ^ (Z.pos (digits2_pos p) - 1)) by (apply Z.pow_le_mono_r; lia).
    lia. }
  assert (Hf : fexp prec emax (Z.pos (digits2_pos p) + 0) <= -28)
    by (rewrite fexp_unfold; lia).
  assert (Hf0 : -1074 <= fexp prec emax (Z.pos (digits2_pos p) + 0))
    by (rewrite fexp_unfold; lia).
  destruct (shl_align_value p 0 (fexp prec emax (Z.pos (digits2_pos p) + 0)) ltac:(lia))
    as [Hmz Hez].
  destruct (shl_align p 0 _) as [mz ez]. cbn [fst snd] in Hmz, Hez.
  assert (Hval : val (Z.pos mz) ez = val (Z.pos p) 0).
  { rewrite Hmz, <- val_shift by lia. f_equal. lia. }
  destruct (val_exp_bound (Z.pos mz) ez 25 0) as [_ Hlt]; [lia | change (2 ^ 0) with 1; lia | lia | |].
  { rewrite Hval. replace (val 1 25) with (val (2 ^ 25) 0) by (vm_compute; reflexivity).
    unfold val. apply Z.mul_lt_mono_pos_r; [apply Z.pow_pos_nonneg; lia | exact Hp]. }
  destruct (binary_round_aux_near s (Z.pos mz) ez loc_Exact (-28))
    as (r & Hr0 & Hfin & Hord & Hlo & Hhi); [lia | lia | lia | exact Hlt |].
  exists r. split; [exact Hr0|]. split; [exact Hfin|]. split; [exact Hord|].
  rewrite val_add, Hval in Hlo. rewrite Hval in Hhi.
  pose proof (val_pos 1 ez ltac:(lia) ltac:(lia)).
  pose proof (val_pos 1 (-28) ltac:(lia) ltac:(lia)). lia.
Qed.

Lemma Z2float_near (n : Z) :
  Z.abs n < 2 ^ 25 ->
  is_finite (Z2float n) = true /\
  Z.abs (ord (Prim2SF (Z2float n)) - val n 0) <= 3 * val 1 (-28).
Proof.
  intros Hn. unfold is_finite.
  rewrite Z2float_spec by (apply Z.lt_trans with (1 := Hn); reflexivity).
  pose proof (val_pos 1 (-28) ltac:(lia) ltac:(lia)) as HU.
  destruct n as [|p|p].
  - cbn. split; [reflexivity | lia].
  - change (binary_normalize prec emax (Z.pos p) 0 false)
      with (binary_round prec emax false p 0).
    destruct (binary_round_near false p ltac:(lia)) as (r & Hr0 & Hfin & Hord & Hbr).
    split; [destruct (binary_round _ _ _ _ _); try contradiction; reflexivity|].
    rewrite Hord. exact Hbr.
  - change (binary_normalize prec emax (Z.neg p) 0 false)
      with (binary_round prec emax true p 0).
    destruct (binary_round_near true p ltac:(lia)) as (r & Hr0 & Hfin & Hord & Hbr).
    split; [destruct (binary_round _ _ _ _ _); try contradiction; reflexivity|].
    rewrite Hord. cbn [cond_Zopp].
    replace (val (Z.neg p) 0) with (- val (Z.pos p) 0) by (unfold val; lia).
    lia.
Qed.

(** *** The quotient by 1e5 *)

Lemma div_near (K : float) :
  is_finite K = true -> Z.abs (ord (Prim2SF K)) < val 1 25 ->
  is_finite (K / 100000) = true /\
  Z.abs (100000 * ord (Prim2SF (K / 100000)) - ord (Prim2SF K)) <= 300000 * val 1 (-44).
Proof.
  unfold is_finite. rewrite div_spec. unfold SF64div.
  change (Prim2SF 100000) with (S754_finite false 6871947673600000 (-36)).
  destruct (Prim2SF K) as [s| | |s m e] eqn:EK; try discriminate; intros _ HK.
  - cbn [SFdiv ord]. split; [reflexivity|]. cbn. lia.
  - cbn [SFdiv ord] in *. rewrite xorb_false_r.
    destruct (canonical_facts _ _ (valid_canonical _ _ _ _ EK)) as (He & _).
    assert (Hv : val (Z.pos m) e < val 1 25) by (destruct s; cbn [cond_Zopp] in HK; lia).
    destruct (val_exp_bound (Z.pos m) e 25 0) as [_ Hm];
      [lia | change (2 ^ 0) with 1; lia | lia | exact Hv |].
    pose proof (Zdigits2_le (Z.pos m) (25 - e) ltac:(lia)) as Hd1.
    unfold SFdiv_core_binary.
    change (Zdigits2 (Z.pos 6871947673600000)) with 53.
    set (d1 := Zdigits2 (Z.pos m)) in *.
    set (e' := Z.min (fexp prec emax (d1 + e - (53 + -36))) (e - -36)).
    assert (He' : -1074 <= e' <= -45 /\ e' <= e + 36)
      by (subst e'; rewrite fexp_unfold; lia).
    set (sh := e - -36 - e').
    assert (Hsh : 0 <= sh) by (unfold sh; lia).
    set (m' := match sh with
               | 0 => Z.pos m
               | Z.pos _ => Z.shiftl (Z.pos m) sh
               | Z.neg _ => 0
               end).
    assert (Hm' : m' = Z.pos m * 2 ^ sh).
    { subst m'. destruct sh eqn:Esh;
        [rewrite Z.pow_0_r; lia | rewrite Z.shiftl_mul_pow2 by lia; reflexivity | lia]. }
    assert (Hm'0 : 0 < m').
    { rewrite Hm'. apply Z.mul_pos_pos; [lia | apply Z.pow_pos_nonneg; lia]. }
    pose proof (Z_div_mod m' 6871947673600000 ltac:(lia)) as Hdm.
    destruct (Z.div_eucl m' 6871947673600000) as [q r]. destruct Hdm as [Hdm Hr].
    assert (Hq0 : 0 <= q) by nia.
    assert (Hscale : forall t, 100000 * val t e' = val (t * 6871947673600000) (e' - 36)).
    { intros t. unfold val. replace (e' + 2200) with (36 + (e' - 36 + 2200)) by lia.
      rewrite (Z.pow_add_r 2 36) by lia.
      change 6871947673600000 with (100000 * 2 ^ 36). ring. }
    assert (Hm'v : val m' (e' - 36) = val (Z.pos m) e).
    { rewrite Hm', <- val_shift by lia. f_equal. unfold sh. lia. }
    assert (Hkey : 100000 * val q e' <= val (Z.pos m) e < 100000 * val (q + 1) e').
    { rewrite !Hscale, <- Hm'v. split.
      - apply val_le_mono; lia.
      - unfold val. apply Z.mul_lt_mono_pos_r; [apply Z.pow_pos_nonneg; lia | lia]. }
    assert (Hqlt : q < 2 ^ (-44 + 53 - e')).
    { apply (val_lt_cancel _ _ e'); [lia|]. rewrite val_pow by lia.
      replace (-44 + 53 - e' + e' + 2200) with 2209 by lia.
      assert (H : 100000 * val q e' < 100000 * 2 ^ 2209).
      { apply Z.le_lt_trans with (val (Z.pos m) e); [lia|].
        apply Z.lt_trans with (1 := Hv). reflexivity. }
      lia. }
    destruct (binary_round_aux_near s q e' (new_location 6871947673600000 r) (-44))
      as (rr & Hrr0 & Hfin & Hord & Hlo & Hhi); [lia | lia | lia | exact Hqlt |].
    split.
    + destruct (binary_round_aux _ _ _ _ _ _); try contradiction; reflexivity.
    + rewrite Hord.
      replace (100000 * cond_Zopp s rr) with (cond_Zopp s (100000 * rr))
        by (destruct s; cbn [cond_Zopp]; ring).
      rewrite abs_cond_Zopp.
      pose proof (val_pos 1 (-44) ltac:(lia) ltac:(lia)). lia.
Qed.

(** *** One coordinate through the codec *)

Lemma val_units :
  val 1 (-28) = 65536 * val 1 (-44) /\ val 1 0 = 17592186044416 * val 1 (-44) /\
  val 1 25 = 33554432 * val 1 0 /\ 0 < val 1 (-44).
Proof. vm_compute. repeat split. Qed.

Lemma coordinate_roundtrip (x : float) (D : Z) :
  0 <= D <= 180 -> is_finite x = true -> Z.abs (ord (Prim2SF x)) <= val D 0 ->
  Z.abs (quantise x) <= 100000 * D /\
  within1e5 (Z2float (quantise x) / 100000) x.
Proof.
  intros HD Hfx Hx.
  destruct val_units as (HV & HT & HB & HU).
  set (U := val 1 (-44)) in *. set (V := val 1 (-28)) in *. set (T := val 1 0) in *.
  assert (HxD : Z.abs (ord (Prim2SF x)) <= D * T) by (rewrite (val_scale D 0) in Hx; exact Hx).
  assert (Hx180 : Z.abs (ord (Prim2SF x)) <= val 180 0).
  { rewrite (val_scale 180 0). fold T. nia. }
  destruct (mul_near x Hfx Hx180) as [Hfu Hu]. fold V in Hu.
  pose proof (quantise_nearest x Hfu) as Hn. fold T in Hn.
  rewrite (val_scale (quantise x) 0) in Hn. fold T in Hn.
  set (n := quantise x) in *.
  set (ou := ord (Prim2SF (x * 100000))) in *.
  set (ox := ord (Prim2SF x)) in *.
  assert (Hnb : Z.abs n <= 100000 * D).
  { assert (H1 : 2 * n * T < (200000 * D + 2) * T) by lia.
    assert (H2 : (- (200000 * D) - 2) * T < 2 * n * T) by lia.
    apply Z.mul_lt_mono_pos_r in H1; [|lia].
    apply Z.mul_lt_mono_pos_r in H2; [|lia]. lia. }
  split; [exact Hnb|].
  assert (HnT : Z.abs (n * T) <= 18000000 * T).
  { rewrite Z.abs_mul, (Z.abs_eq T) by lia. apply Z.mul_le_mono_nonneg_r; lia. }
  destruct (Z2float_near n) as [HfK HK]; [apply Z.le_lt_trans with 18000000; [lia | reflexivity]|].
  rewrite (val_scale n 0) in HK. fold T V in HK.
  set (K := Z2float n) in *.
  destruct (div_near K HfK) as [Hfx' Hx']; [rewrite HB; fold T; lia|].
  fold U in Hx'.
  unfold within1e5. split; [exact Hfx'|]. split; [exact Hfx|].
  fold T ox. set (ox' := ord (Prim2SF (K / 100000))) in *.
  set (oK := ord (Prim2SF K)) in *. lia.
Qed.

Lemma beyond_180 : val 180 0 < beyond.
Proof. vm_compute. reflexivity. Qed.

Lemma leb_range (x B : float) (D : Z) :
  0 <= D <= 180 ->
  ord (Prim2SF B) = val D 0 -> ord (Prim2SF (- B)) = - val D 0 ->
  PrimFloat.leb (- B) x = true -> PrimFloat.leb x B = true ->
  is_finite x = true /\ Z.abs (ord (Prim2SF x)) <= val D 0.
Proof.
  intros HD HB HnB Hlo Hhi.
  destruct (leb_not_nan _ _ Hlo) as [NnB Nx].
  destruct (leb_not_nan _ _ Hhi) as [_ NB].
  apply (leb_ord _ _ NnB Nx) in Hlo. apply (leb_ord _ _ Nx NB) in Hhi.
  rewrite HnB in Hlo. rewrite HB in Hhi.
  assert (HD180 : val D 0 <= val 180 0) by (apply val_le_mono; lia).
  pose proof beyond_180 as Hbig.
  split; [|lia].
  unfold is_finite.
  destruct (Prim2SF x) as [s|[|]| |s m e]; try reflexivity; try congruence;
    cbn [ord cond_Zopp] in Hlo, Hhi; lia.
Qed.

Lemma geoPoint_range (p : Point) :
  isGeoPoint p ->
  (is_finite (lat p) = true /\ Z.abs (ord (Prim2SF (lat p))) <= val 90 0) /\
  (is_finite (lng p) = true /\ Z.abs (ord (Prim2SF (lng p))) <= val 180 0).
Proof.
  intros (H1 & H2 & H3 & H4). split.
  - apply (leb_range _ 90%float 90);
      [lia | vm_compute; reflexivity | vm_compute; reflexivity | exact H1 | exact H2].
  - apply (leb_range _ 180%float 180);
      [lia | vm_compute; reflexivity | vm_compute; reflexivity | exact H3 | exact H4].
Qed.

Lemma quantise_inRange (points : list Point) :
  Forall isGeoPoint points ->
  Forall inRange (map (fun p => (quantise (lat p), quantise (lng p))) points).
Proof.
  intros H. induction H as [|p rest Hp _ IH]; [constructor|].
  cbn [map]. constructor; [|exact IH].
  destruct (geoPoint_range p Hp) as [[Hf1 Hr1] [Hf2 Hr2]].
  destruct (coordinate_roundtrip (lat p) 90 ltac:(lia) Hf1 Hr1) as [Hq1 _].
  destruct (coordinate_roundtrip (lng p) 180 ltac:(lia) Hf2 Hr2) as [Hq2 _].
  unfold inRange. cbn [fst snd]. lia.
Qed.

(** C5: for every sequence of GeoPoints, decoding the encoding gives as
    many points, each coordinate within 1e-5 of the coordinate of the point
    it comes from; and when the coordinates are rounded to 1e-5 degrees the
    decoded sequence is the encoded one, so that on those sequences
    [decodePolyline] is the exact inverse of [encode]. *)
Theorem decode_encode_roundtrip (points : list Point) :
  Forall isGeoPoint points ->
  Forall2 (fun decoded point => within1e5 (lat decoded) (lat point) /\
                                within1e5 (lng decoded) (lng point))
          (decodePolyline (encode points)) points /\
  (Forall isRoundedPoint points -> decodePolyline (encode points) = points).
Proof.
  intros Hpts. unfold encode.
  rewrite (decodePolyline_encodeFrom _ (quantise_inRange points Hpts)).
  rewrite map_map. cbn [fst snd]. split.
  - induction Hpts as [|p rest Hp _ IH]; [constructor|].
    cbn [map]. constructor; [|exact IH].
    destruct (geoPoint_range p Hp) as [[Hf1 Hr1] [Hf2 Hr2]].
    unfold toPoint. cbn [lat lng]. split.
    + exact (proj2 (coordinate_roundtrip (lat p) 90 ltac:(lia) Hf1 Hr1)).
    + exact (proj2 (coordinate_roundtrip (lng p) 180 ltac:(lia) Hf2 Hr2)).
  - intros Hr. clear Hpts. induction Hr as [|p rest [Hlat Hlng] _ IH]; [reflexivity|].
    cbn [map]. rewrite IH. f_equal.
    unfold toPoint. unfold isRounded in Hlat, Hlng. rewrite Hlat, Hlng.
    now destruct p.
Qed.

Lemma decode_encode_roundtrip_witness :
  let points := [ {| lat := 38.5; lng := -120.2 |};
                  {| lat := 40.7; lng := -120.95 |};
                  {| lat := 43.252; lng := -126.453 |} ]%float in
  Forall isGeoPoint points /\
  Forall isRoundedPoint points /\
  encode points = of_string "_p~iF~ps|U_ulLnnqC_mqNvxq`@" /\
  decodePolyline (encode points) = points.
Proof.
  cbv zeta.
  assert (Hgeo : Forall isGeoPoint
                   [ {| lat := 38.5; lng := -120.2 |};
                     {| lat := 40.7; lng := -120.95 |};
                     {| lat := 43.252; lng := -126.453 |} ]%float)
    by (repeat constructor).
  assert (Hrounded : Forall isRoundedPoint
                       [ {| lat := 38.5; lng := -120.2 |};
                         {| lat := 40.7; lng := -120.95 |};
                         {| lat := 43.252; lng := -126.453 |} ]%float)
    by (repeat constructor; vm_compute; reflexivity).
  split; [exact Hgeo|]. split; [exact Hrounded|]. split; [vm_compute; reflexivity|].
  exact (proj2 (decode_encode_roundtrip _ Hgeo) Hrounded).
Defined.

End CodecFacts.
